(** * BookMind: chapter locator, request shaping, sessions and PCM decoding

    A shallow embedding of the TypeScript sources of BookMind
    ([services/pdfService], [services/geminiService], [App],
    [components/AnalysisView]) together with the properties the
    specification states about them.

    Conventions.
    - A JavaScript string is a list of code units.  The development fixes the
      alphabet to the 256 code units U+0000..U+00FF ([ascii]); white space and
      case folding are the ECMAScript ones restricted to that range.
    - Regular expressions are values of [RegExp.re], run by a backtracking
      matcher that tries alternatives in the order ECMAScript does.
    - Code that awaits the remote model takes the service as a function and
      returns, with its result, the list of requests it issued.
    - A loop that the source does not bound carries a fuel argument; running
      out of fuel is the completion [OutOfFuel]. *)

From Stdlib Require Import String Ascii List Arith Bool Lia ZArith QArith ZifyNat.
From Stdlib Require Import DecimalString.
Import ListNotations.

Set Implicit Arguments.
Unset Strict Implicit.
Set Warnings "-abstract-large-number".

Open Scope nat_scope.
Open Scope list_scope.

(** A string of code units, and string literals as such lists. *)
Definition str : Type := list ascii.
Definition lit (s : string) : str := list_ascii_of_string s.

(* ------------------------------------------------------------------ *)
(** ** ECMAScript string primitives *)

Module JS.

Definition charCode (c : ascii) : nat := nat_of_ascii c.

(** [WhiteSpace] and [LineTerminator] below U+0100: TAB, LF, VT, FF, CR,
    SP and NBSP.  This is the class [\s] and what [trim] strips. *)
Definition isWhiteSpace (c : ascii) : bool :=
  let n := charCode c in
  ((9 <=? n) && (n <=? 13)) || (n =? 32) || (n =? 160).

Definition isLineTerminator (c : ascii) : bool :=
  let n := charCode c in (n =? 10) || (n =? 13).

(** The class [\d]. *)
Definition isDigit (c : ascii) : bool :=
  let n := charCode c in (48 <=? n) && (n <=? 57).

(** [Canonicalize] of a case-insensitive, non-unicode RegExp: the code unit
    of [toUpperCase] when that is a single code unit.  Below U+0100 the
    letters a-z and U+00E0..U+00FE (but U+00F7) fold by 32; U+00B5 and
    U+00FF fold to code units above the range that nothing else folds to,
    and U+00DF upper-cases to two code units, so the three stay. *)
Definition canonicalize (c : ascii) : ascii :=
  let n := charCode c in
  if ((97 <=? n) && (n <=? 122))
     || ((224 <=? n) && (n <=? 254) && negb (n =? 247))
  then ascii_of_nat (n - 32) else c.

Fixpoint trimStart (s : str) : str :=
  match s with
  | c :: r => if isWhiteSpace c then trimStart r else s
  | [] => []
  end.

Definition trimEnd (s : str) : str := rev (trimStart (rev s)).

Definition trim (s : str) : str := trimEnd (trimStart s).

(** [s.slice(from, to)] and [s.slice(from)] for non-negative indices. *)
Definition slice (s : str) (from to : nat) : str :=
  firstn (to - from) (skipn from s).

Definition sliceFrom (s : str) (from : nat) : str := skipn from s.

(** [s.substring(0, n)]. *)
Definition substring0 (s : str) (n : nat) : str := firstn n s.

(** [s.split(sep)] for a separator of one code unit; [cur] is the piece
    being read. *)
Fixpoint splitOn (sep : ascii) (cur : str) (s : str) : list str :=
  match s with
  | [] => [cur]
  | c :: r =>
      if Ascii.eqb c sep then cur :: splitOn sep [] r
      else splitOn sep (cur ++ [c]) r
  end.

Definition split (s : str) (sep : ascii) : list str := splitOn sep [] s.

(** [pieces.join(sep)]. *)
Fixpoint join (pieces : list str) (sep : str) : str :=
  match pieces with
  | [] => []
  | [p] => p
  | p :: rest => p ++ sep ++ join rest sep
  end.

(** A value used as a condition: the empty string is falsy, and so are
    [null] and [undefined], both modelled by [None]. *)
Definition truthy (v : option str) : bool :=
  match v with
  | Some (_ :: _) => true
  | _ => false
  end.

(** [a === b] on strings. *)
Fixpoint eqb (a b : str) : bool :=
  match a, b with
  | [], [] => true
  | c :: a', d :: b' => Ascii.eqb c d && eqb a' b'
  | _, _ => false
  end.

(** [n.toString()] for a non-negative integer. *)
Definition toString (n : nat) : str :=
  lit (NilZero.string_of_uint (Nat.to_uint n)).

End JS.

(* ------------------------------------------------------------------ *)
(** ** Regular expressions *)

Module RegExp.

(** The syntax the sources use: literals, classes, greedy quantifiers on a
    class, sequence, alternation, [^], [$] and one capture group. *)
Inductive re : Type :=
| Eps
| Lit (c : ascii)
| Class (f : ascii -> bool)
| Rep (f : ascii -> bool) (min : nat) (max : option nat)
| Cat (a b : re)
| Alt (a b : re)
| Bol
| Eol
| Group (a : re).

Record flags : Type := { ignoreCase : bool; multiline : bool }.

Definition noFlags : flags := {| ignoreCase := false; multiline := false |}.
Definition flag_i : flags := {| ignoreCase := true; multiline := false |}.
Definition flag_m : flags := {| ignoreCase := false; multiline := true |}.

Definition plus (f : ascii -> bool) : re := Rep f 1 None.
Definition star (f : ascii -> bool) : re := Rep f 0 None.
Definition opt (f : ascii -> bool) : re := Rep f 0 (Some 1).

(** The sequence of a list of terms. *)
Definition seqOf (l : list re) : re := fold_right Cat Eps l.

(** A literal word, code unit by code unit. *)
Definition word (s : string) : re := seqOf (map Lit (lit s)).

Definition anyOf (s : string) (c : ascii) : bool :=
  existsb (Ascii.eqb c) (lit s).

Definition noneOf (s : string) (c : ascii) : bool := negb (anyOf s c).

Definition sameChar (fl : flags) (c d : ascii) : bool :=
  if ignoreCase fl
  then Ascii.eqb (JS.canonicalize c) (JS.canonicalize d)
  else Ascii.eqb c d.

Definition dec (max : option nat) : option nat := option_map pred max.

Definition mayTake (max : option nat) : bool :=
  match max with
  | Some 0 => false
  | _ => true
  end.

Section Matcher.
Variable fl : flags.
(** What a successful match returns to its caller. *)
Variable A : Type.

(** The continuation of a matcher: the code unit before the position
    reached, the input left, and the text of the capture group. *)
Definition cont : Type := option ascii -> str -> option str -> option A.

(** A greedy quantifier: one more code unit of the class is tried first,
    and stopping here is the fallback, allowed once [min] is used up. *)
Fixpoint rep (f : ascii -> bool) (min : nat) (max : option nat)
         (prev : option ascii) (s : str) (k : option ascii -> str -> option A)
  : option A :=
  let stop := match min with 0 => k prev s | S _ => None end in
  match s with
  | c :: r =>
      if f c && mayTake max then
        match rep f (pred min) (dec max) (Some c) r k with
        | Some res => Some res
        | None => stop
        end
      else stop
  | [] => stop
  end.

Definition atLineStart (prev : option ascii) : bool :=
  match prev with
  | None => true
  | Some c => multiline fl && JS.isLineTerminator c
  end.

Definition atLineEnd (s : str) : bool :=
  match s with
  | [] => true
  | c :: _ => multiline fl && JS.isLineTerminator c
  end.

Fixpoint run (r : re) (prev : option ascii) (s : str) (cap : option str)
         (k : cont) : option A :=
  match r with
  | Eps => k prev s cap
  | Lit c =>
      match s with
      | d :: s' => if sameChar fl c d then k (Some d) s' cap else None
      | [] => None
      end
  | Class f =>
      match s with
      | d :: s' => if f d then k (Some d) s' cap else None
      | [] => None
      end
  | Rep f min max => rep f min max prev s (fun p s' => k p s' cap)
  | Cat a b => run a prev s cap (fun p s' cap' => run b p s' cap' k)
  | Alt a b =>
      match run a prev s cap k with
      | Some res => Some res
      | None => run b prev s cap k
      end
  | Bol => if atLineStart prev then k prev s cap else None
  | Eol => if atLineEnd s then k prev s cap else None
  | Group a =>
      run a prev s cap
          (fun p s' _ => k p s' (Some (firstn (length s - length s') s)))
  end.
End Matcher.

(** A match at the current position: its length and its capture. *)
Definition matchAt (fl : flags) (r : re) (prev : option ascii) (s : str)
  : option (nat * option str) :=
  run fl r prev s None (fun _ s' cap => Some (length s - length s', cap)).

(** The first position at or after the current one where [r] matches;
    [i] is the index of the current position. *)
Fixpoint scan (fl : flags) (r : re) (prev : option ascii) (s : str) (i : nat)
  : option (nat * nat) :=
  match matchAt fl r prev s with
  | Some (n, _) => Some (i, n)
  | None =>
      match s with
      | [] => None
      | c :: s' => scan fl r (Some c) s' (S i)
      end
  end.

Definition prevAt (s : str) (i : nat) : option ascii :=
  match i with
  | 0 => None
  | S j => nth_error s j
  end.

(** [re.exec(s)] read with [re.lastIndex = lastIndex]: the index and the
    length of the match.  A regular expression without the [g] flag always
    starts at 0; one with it leaves [lastIndex] at the end of the match. *)
Definition exec (fl : flags) (r : re) (s : str) (lastIndex : nat)
  : option (nat * nat) :=
  if length s <? lastIndex then None
  else scan fl r (prevAt s lastIndex) (skipn lastIndex s) lastIndex.

(** [re.exec(s)] without the [g] flag: the match's [index]. *)
Definition execIndex (fl : flags) (r : re) (s : str) : option nat :=
  option_map fst (exec fl r s 0).

(** [s.replace(re, f)] with the [g] flag; [f] gets the matched text and the
    capture.  [skip] counts the code units of the last match still to be
    passed over. *)
Fixpoint replaceFrom (fl : flags) (r : re) (f : str -> option str -> str)
         (prev : option ascii) (s : str) (skip : nat) : str :=
  match skip with
  | S k =>
      match s with
      | c :: s' => replaceFrom fl r f (Some c) s' k
      | [] => []
      end
  | 0 =>
      match matchAt fl r prev s with
      | Some (n, cap) =>
          f (firstn n s) cap ++
          match s with
          | [] => []
          | c :: s' =>
              match n with
              | 0 => c :: replaceFrom fl r f (Some c) s' 0
              | S n' => replaceFrom fl r f (Some c) s' n'
              end
          end
      | None =>
          match s with
          | [] => []
          | c :: s' => c :: replaceFrom fl r f (Some c) s' 0
          end
      end
  end.

Definition replaceAll (fl : flags) (r : re) (f : str -> option str -> str)
           (s : str) : str :=
  replaceFrom fl r f None s 0.

(** [s.match(re)] with the [g] flag: the matched texts in order, an empty
    match moving the search one code unit on.  [[]] stands for [null]. *)
Fixpoint matchFrom (fl : flags) (r : re) (prev : option ascii) (s : str)
         (skip : nat) : list str :=
  match skip with
  | S k =>
      match s with
      | c :: s' => matchFrom fl r (Some c) s' k
      | [] => []
      end
  | 0 =>
      match matchAt fl r prev s with
      | Some (n, _) =>
          firstn n s ::
          match s with
          | [] => []
          | c :: s' => matchFrom fl r (Some c) s' (pred n)
          end
      | None =>
          match s with
          | [] => []
          | c :: s' => matchFrom fl r (Some c) s' 0
          end
      end
  end.

Definition matchAll (fl : flags) (r : re) (s : str) : list str :=
  matchFrom fl r None s 0.

(** [s.split(re)] for a non-empty [s]; [cur] is the piece being read.  An
    empty match splits only where a piece has been read. *)
Fixpoint splitFrom (fl : flags) (r : re) (prev : option ascii) (s : str)
         (cur : str) (skip : nat) : list str :=
  match s with
  | [] => [cur]
  | c :: s' =>
      match skip with
      | S k => splitFrom fl r (Some c) s' cur k
      | 0 =>
          match matchAt fl r prev s with
          | Some (S n, _) => cur :: splitFrom fl r (Some c) s' [] n
          | Some (0, _) =>
              match cur with
              | [] => splitFrom fl r (Some c) s' [c] 0
              | _ => cur :: splitFrom fl r (Some c) s' [c] 0
              end
          | None => splitFrom fl r (Some c) s' (cur ++ [c]) 0
          end
      end
  end.

Definition split (fl : flags) (r : re) (s : str) : list str :=
  match s with
  | [] => match matchAt fl r None [] with Some _ => [] | None => [[]] end
  | _ => splitFrom fl r None s [] 0
  end.

(** Whether [r] matches at index [i] of [s]. *)
Definition matchesAt (fl : flags) (r : re) (s : str) (i : nat) : bool :=
  match matchAt fl r (prevAt s i) (skipn i s) with
  | Some _ => true
  | None => false
  end.

(** Whether a term can match the empty string. *)
Fixpoint nullable (r : re) : bool :=
  match r with
  | Eps | Bol | Eol => true
  | Lit _ | Class _ => false
  | Rep _ min _ => min =? 0
  | Cat a b => nullable a && nullable b
  | Alt a b => nullable a || nullable b
  | Group a => nullable a
  end.

End RegExp.

(* ------------------------------------------------------------------ *)
(** ** Completions: values, exceptions and unbounded loops *)

Inductive exn : Type :=
| SyntaxError
| RangeError
| InvalidCharacterError
| NotSupportedError
| Error (message : string)
| Rejected.

(** How a call ends: with a value, with a thrown exception (a rejected
    promise), or not within the fuel it was given. *)
Inductive completion (A : Type) : Type :=
| Normal (a : A)
| Throw (e : exn)
| OutOfFuel.

Arguments Normal {A} a.
Arguments Throw {A} e.
Arguments OutOfFuel {A}.

Definition bindC {A B : Type} (m : completion A) (f : A -> completion B)
  : completion B :=
  match m with
  | Normal a => f a
  | Throw e => Throw e
  | OutOfFuel => OutOfFuel
  end.

(** A promise that has settled, or a call of the platform that returns or
    throws. *)
Inductive settled (A : Type) : Type :=
| Fulfilled (a : A)
| Failed (e : exn).

Arguments Fulfilled {A} a.
Arguments Failed {A} e.

Definition await {A : Type} (p : settled A) : completion A :=
  match p with
  | Fulfilled a => Normal a
  | Failed e => Throw e
  end.

Declare Scope completion_scope.
Delimit Scope completion_scope with completion.
Notation "'let*' x ':=' m 'in' k" := (bindC m (fun x => k))
  (at level 10, x pattern, m at level 100, k at level 200)
  : completion_scope.

(* ------------------------------------------------------------------ *)
(** ** services/pdfService *)

Module PdfService.
Import RegExp.
Local Open Scope completion_scope.

Definition backslash : ascii := ascii_of_nat 92.

(** The class [[.*+?^${}()|[\]\\]]: the syntax characters of a pattern. *)
Definition isSyntaxChar (c : ascii) : bool :=
  anyOf ".*+?^${}()|[]" c || Ascii.eqb c backslash.

(** [string.replace(/[.*+?^${}()|[\]\\]/g, '\\$&')] *)
Definition escapeRegExp (string : str) : str :=
  replaceAll noFlags (Class isSyntaxChar) (fun m _ => backslash :: m) string.

(** The text [\s+] that joins the words of a pattern. *)
Definition spacesSource : str := backslash :: lit "s+".

(** What [escapeRegExp] writes for one code unit, and what the whole
    pattern holds for one code unit of the clean text. *)
Definition escapeChar (c : ascii) : str :=
  if isSyntaxChar c then [backslash; c] else [c].

Definition patternChar (c : ascii) : str :=
  if isSyntaxChar c then [backslash; c]
  else if Ascii.eqb c " "%char then spacesSource else [c].

(** [text.trim().replace(/\s+/g, ' ')] *)
Definition cleanText (text : str) : str :=
  replaceAll noFlags (plus JS.isWhiteSpace) (fun _ _ => lit " ") (JS.trim text).

Definition createFlexiblePattern (text : str) : str :=
  let escaped := escapeRegExp (cleanText text) in
  JS.join (JS.split escaped " "%char) spacesSource.

(** [new RegExp(pattern, flags)] on the syntax [createFlexiblePattern]
    writes: an escaped syntax character, [\s+], or a code unit that stands
    for itself.  Anything else is refused here, as a [SyntaxError]. *)
Fixpoint parsePattern (pattern : str) : option (list re) :=
  match pattern with
  | [] => Some []
  | c :: rest =>
      if Ascii.eqb c backslash then
        match rest with
        | d :: rest' =>
            if isSyntaxChar d then option_map (cons (Lit d)) (parsePattern rest')
            else
              match rest' with
              | e :: rest'' =>
                  if Ascii.eqb d "s"%char && Ascii.eqb e "+"%char
                  then option_map (cons (plus JS.isWhiteSpace)) (parsePattern rest'')
                  else None
              | [] => None
              end
        | [] => None
        end
      else if isSyntaxChar c then None
      else option_map (cons (Lit c)) (parsePattern rest)
  end.

(** What a code unit of the clean text stands for in the pattern. *)
Definition atomOf (c : ascii) : re :=
  if Ascii.eqb c " "%char then plus JS.isWhiteSpace else Lit c.

(** The regular expression of a title: its clean text, a space matching
    any run of white space. *)
Definition flexibleRegex (text : str) : re := seqOf (map atomOf (cleanText text)).

Definition newRegExp (pattern : str) : completion re :=
  match parsePattern pattern with
  | Some atoms => Normal (seqOf atoms)
  | None => Throw SyntaxError
  end.

(** [while ((match = regex.exec(fullText)) !== null) matches.push(match.index)]
    for a regular expression with the [g] and [i] flags, whose [lastIndex]
    each [exec] leaves at the end of its match. *)
Fixpoint collectMatches (fuel : nat) (regex : re) (fullText : str)
         (lastIndex : nat) (matches : list nat) : completion (list nat) :=
  match fuel with
  | 0 => OutOfFuel
  | S fuel' =>
      match exec flag_i regex fullText lastIndex with
      | None => Normal matches
      | Some (index, n) =>
          collectMatches fuel' regex fullText (index + n) (matches ++ [index])
      end
  end.

(** [index < fullText.length * 0.05].  The product is a binary64 number; for
    every length below 2^53 it compares with an integer as the exact
    twentieth of the length does. *)
Definition inFirstFivePercent (index len : nat) : bool := index * 20 <? len.

(** The table-of-contents heuristic on the collected matches; [None] is the
    start index [-1]. *)
Definition pickStart (matches : list nat) (len : nat) : option nat :=
  match matches with
  | [] => None
  | m0 :: rest =>
      match rest with
      | m1 :: _ => if inFirstFivePercent m0 len then Some m1 else Some m0
      | [] => Some m0
      end
  end.

(** The occurrence the heuristic selects, said with [exec]: the first
    occurrence of [regex], or the next one after it when there is one and
    the first lies in the first twentieth of the text. *)
Definition selectOccurrence (regex : re) (fullText : str) : option nat :=
  match exec flag_i regex fullText 0 with
  | Some (first, n) =>
      match exec flag_i regex fullText (first + n) with
      | Some (second, _) =>
          if inFirstFivePercent first (length fullText) then Some second
          else Some first
      | None => Some first
      end
  | None => None
  end.

(** [chapterTitle.split(/\s+/)] *)
Definition titleWords (chapterTitle : str) : list str :=
  RegExp.split noFlags (plus JS.isWhiteSpace) chapterTitle.

(** Fallback 1: the first match of the first eight words. *)
Definition partialTitleStart (fullText chapterTitle : str)
  : completion (option nat) :=
  let words := titleWords chapterTitle in
  if 3 <? length words then
    let shortTitle := JS.join (firstn (Nat.min (length words) 8) words) (lit " ") in
    let shortPattern := createFlexiblePattern shortTitle in
    let* shortRegex := newRegExp shortPattern in
    Normal (execIndex flag_i shortRegex fullText)
  else Normal None.

(** [/^(Chapter\s+\d+|Part\s+\d+)/i] *)
Definition numberPrefix : re :=
  Cat Bol
      (Group (Alt (seqOf [word "Chapter"; plus JS.isWhiteSpace; plus JS.isDigit])
                  (seqOf [word "Part"; plus JS.isWhiteSpace; plus JS.isDigit]))).

(** [chapterTitle.match(/^(Chapter\s+\d+|Part\s+\d+)/i)]: the matched text
    [numberMatch[0]]. *)
Definition numberMatch (chapterTitle : str) : option str :=
  match exec flag_i numberPrefix chapterTitle 0 with
  | Some (index, n) => Some (JS.slice chapterTitle index (index + n))
  | None => None
  end.

(** Fallback 2: the [Chapter N] or [Part N] prefix alone. *)
Definition numberStart (fuel : nat) (fullText chapterTitle : str)
  : completion (option nat) :=
  match numberMatch chapterTitle with
  | Some prefix =>
      let numPattern := createFlexiblePattern prefix in
      let* numRegex := newRegExp numPattern in
      let* numMatches := collectMatches fuel numRegex fullText 0 [] in
      Normal (pickStart numMatches (length fullText))
  | None => Normal None
  end.

(** The three tiers that settle [startIndex]. *)
Definition findStartIndex (fuel : nat) (fullText chapterTitle : str)
  : completion (option nat) :=
  let titlePattern := createFlexiblePattern chapterTitle in
  let* titleRegex := newRegExp titlePattern in
  let* matches := collectMatches fuel titleRegex fullText 0 [] in
  match pickStart matches (length fullText) with
  | Some startIndex => Normal (Some startIndex)
  | None =>
      let* partial := partialTitleStart fullText chapterTitle in
      match partial with
      | Some startIndex => Normal (Some startIndex)
      | None => numberStart fuel fullText chapterTitle
      end
  end.

(** Where the search for the next chapter's title begins. *)
Definition searchOffset (startIndex : nat) (chapterTitle : str) : nat :=
  startIndex + Nat.min (length chapterTitle) 50.

(** [endIndex]: the first match of the next title in
    [fullText.slice(offset)], or the end of the text. *)
Definition findEndIndex (fullText chapterTitle : str)
           (nextChapterTitle : option str) (startIndex : nat) : completion nat :=
  match nextChapterTitle with
  | Some next =>
      if JS.truthy nextChapterTitle then
        let nextPattern := createFlexiblePattern next in
        let* nextRegex := newRegExp nextPattern in
        let offset := searchOffset startIndex chapterTitle in
        let searchContext := JS.sliceFrom fullText offset in
        match execIndex flag_i nextRegex searchContext with
        | Some index => Normal (offset + index)
        | None => Normal (length fullText)
        end
      else Normal (length fullText)
  | None => Normal (length fullText)
  end.

Definition CHAR_LIMIT : N := 1000000.

Definition truncationMarker : str := lit "... [Text truncated]".

Definition capExtracted (extracted : str) : str :=
  if (CHAR_LIMIT <? N.of_nat (length extracted))%N
  then JS.slice extracted 0 (N.to_nat CHAR_LIMIT) ++ truncationMarker
  else extracted.

(** [findChapterText(fullText, chapterTitle, nextChapterTitle)]: the text of
    the chapter, or [None] for [null]. *)
Definition findChapterText (fuel : nat) (fullText chapterTitle : str)
           (nextChapterTitle : option str) : completion (option str) :=
  let* start := findStartIndex fuel fullText chapterTitle in
  match start with
  | None => Normal None
  | Some startIndex =>
      let* endIndex := findEndIndex fullText chapterTitle nextChapterTitle startIndex in
      let extracted := JS.slice fullText startIndex endIndex in
      Normal (Some (JS.trim (capExtracted extracted)))
  end.

(** A page as PDF.js hands it over: the strings of its text items, or
    [None] when reading the page throws. *)
Definition page : Type := option (list str).


Record extraction : Type := { text : str; isScanned : bool }.

Definition pageHeader (i : nat) : str :=
  lit "--- Page " ++ JS.toString i ++ lit " ---".

Definition newline : ascii := ascii_of_nat 10.

(** The loop over the pages, [i] being the number of the first of [pages];
    the state is [fullText] and [totalContentLength]. *)
Fixpoint readPages (pages : list page) (i : nat) (fullText : str)
         (totalContentLength : nat) : str * nat :=
  match pages with
  | [] => (fullText, totalContentLength)
  | p :: rest =>
      match p with
      | Some items =>
          let pageText := JS.join items (lit " ") in
          if 0 <? length (JS.trim pageText) then
            readPages rest (S i)
              (fullText ++ pageHeader i ++ [newline] ++ pageText ++ [newline; newline])
              (totalContentLength + length (JS.trim pageText))
          else readPages rest (S i) fullText totalContentLength
      | None => readPages rest (S i) fullText totalContentLength
      end
  end.

(** [extractTextFromPDF(file)]; [pdfjsLib] tells whether the library is
    loaded and [pdf] is what loading the document gives.  The average
    [totalContentLength / numPages < 50] is compared as
    [totalContentLength < 50 * numPages]. *)
Definition extractTextFromPDF (pdfjsLib : bool) (pdf : settled (list page))
  : completion extraction :=
  if pdfjsLib then
    let* pages := await pdf in
    let numPages := length pages in
    let '(fullText, totalContentLength) := readPages pages 1 [] 0 in
    let isScanned := (0 <? numPages) && (totalContentLength <? 50 * numPages) in
    Normal {| text := JS.trim fullText; isScanned := isScanned |}
  else Throw (Error "PDF library not loaded. Please refresh the page.").

(** [convertFileToBase64(file)]: what follows the first comma of the data
    URL the reader gives; [None] is [undefined]. *)
Definition convertFileToBase64 (dataUrl : settled str) : completion (option str) :=
  let* encoded := await dataUrl in
  Normal (nth_error (JS.split encoded ","%char) 1).

End PdfService.

(* ------------------------------------------------------------------ *)
(** ** The platform's base64: [atob] and [btoa] *)

Module Base64.

Definition alphabet : str :=
  lit "ABCDEFGHIJKLMNOPQRSTUVWXYZabcdefghijklmnopqrstuvwxyz0123456789+/".

Fixpoint indexOf (c : ascii) (l : str) (i : nat) : option nat :=
  match l with
  | [] => None
  | d :: r => if Ascii.eqb c d then Some i else indexOf c r (S i)
  end.

Definition sextet (c : ascii) : option nat := indexOf c alphabet 0.

Fixpoint sextets (data : str) : option (list nat) :=
  match data with
  | [] => Some []
  | c :: r =>
      match sextet c, sextets r with
      | Some v, Some l => Some (v :: l)
      | _, _ => None
      end
  end.

(** ASCII white space: TAB, LF, FF, CR and SPACE. *)
Definition isAsciiWhitespace (c : ascii) : bool :=
  let n := JS.charCode c in
  (n =? 9) || (n =? 10) || (n =? 12) || (n =? 13) || (n =? 32).

Definition padding : ascii := "="%char.

(** One or two [=] at the end go when the length is a multiple of four. *)
Definition stripPadding (data : str) : str :=
  if length data mod 4 =? 0 then
    match rev data with
    | p :: q :: r =>
        if Ascii.eqb p padding then
          if Ascii.eqb q padding then rev r else rev (q :: r)
        else data
    | _ => data
    end
  else data.

(** Four sextets make three octets; of a last group of two or three the
    bits that do not fill an octet are dropped. *)
Fixpoint octets (l : list nat) : list nat :=
  match l with
  | a :: b :: c :: d :: r =>
      (a * 4 + b / 16) :: ((b mod 16) * 16 + c / 4) :: ((c mod 4) * 64 + d)
      :: octets r
  | [a; b; c] => [a * 4 + b / 16; (b mod 16) * 16 + c / 4]
  | [a; b] => [a * 4 + b / 16]
  | _ => []
  end.

(** [atob(data)], the forgiving base64 decoding: a binary string, or
    [InvalidCharacterError]. *)
Definition atob (data : str) : completion str :=
  let data := filter (fun c => negb (isAsciiWhitespace c)) data in
  let data := stripPadding data in
  if length data mod 4 =? 1 then Throw InvalidCharacterError
  else
    match sextets data with
    | Some l => Normal (map ascii_of_nat (octets l))
    | None => Throw InvalidCharacterError
    end.

Definition digit (v : nat) : ascii := nth v alphabet padding.

Fixpoint encode (l : list nat) : str :=
  match l with
  | a :: b :: c :: r =>
      digit (a / 4) :: digit ((a mod 4) * 16 + b / 16)
      :: digit ((b mod 16) * 4 + c / 64) :: digit (c mod 64) :: encode r
  | [a; b] =>
      [digit (a / 4); digit ((a mod 4) * 16 + b / 16); digit ((b mod 16) * 4); padding]
  | [a] => [digit (a / 4); digit ((a mod 4) * 16); padding; padding]
  | [] => []
  end.

(** [btoa(binary)] on a string of code units below 256. *)
Definition btoa (binary : str) : str := encode (map JS.charCode binary).

(** The sextets [encode] writes the digits of, and the padding that
    follows them. *)
Fixpoint groups (l : list nat) : list nat :=
  match l with
  | a :: b :: c :: r =>
      a / 4 :: (a mod 4) * 16 + b / 16 :: (b mod 16) * 4 + c / 64 :: c mod 64
      :: groups r
  | [a; b] => [a / 4; (a mod 4) * 16 + b / 16; (b mod 16) * 4]
  | [a] => [a / 4; (a mod 4) * 16]
  | [] => []
  end.

Fixpoint padOf (l : list nat) : str :=
  match l with
  | _ :: _ :: _ :: r => padOf r
  | [_; _] => [padding]
  | [_] => [padding; padding]
  | [] => []
  end.

(** A digit that decodes to its own index and is neither white space nor
    the padding sign. *)
Definition goodDigit (v : nat) : bool :=
  match sextet (digit v) with
  | Some w => w =? v
  | None => false
  end
  && negb (isAsciiWhitespace (digit v))
  && negb (Ascii.eqb (digit v) padding).

End Base64.

(** A [Uint8Array] is the list of its bytes. *)
Definition Uint8Array : Type := list Byte.byte.

(* ------------------------------------------------------------------ *)
(** ** types *)

Record Chapter : Type :=
  { number : str; title : str; description : str }.

Inductive AnalysisType : Type := STANDARD | DETAILED | INSIGHTS | CRITICAL.

Inductive AppStep : Type := upload | processing | chaptersStep | analysis.

Record BookSession : Type :=
  { id : str;
    fileName : str;
    uploadTimestamp : nat;
    sessionChapters : list Chapter;
    sessionPdfText : str;
    sessionPdfBase64 : option str;
    sessionIsScannedMode : bool }.

(* ------------------------------------------------------------------ *)
(** ** services/geminiService *)

Module GeminiService.
Import RegExp.
Local Open Scope completion_scope.

Inductive part : Type :=
| TextPart (text : str)
| InlineData (mimeType : str) (data : str).

Inductive config : Type :=
| ChapterListJson
| Analysis (systemInstruction : str)
| Speech (voiceName : str).

Record request : Type :=
  { model : str; parts : list part; requestConfig : config }.

(** What the code reads of a response: [response.text] and the inline data
    of the first part of the first candidate. *)
Record response : Type :=
  { responseText : option str; inlineData : option str }.

(** A call that awaits the remote model: the requests it issued, in order,
    and how it ended. *)
Definition io (A : Type) : Type := list request * completion A.

Definition ret {A : Type} (a : A) : io A := ([], Normal a).

Definition throw {A : Type} (e : exn) : io A := ([], Throw e).

Definition lift {A : Type} (c : completion A) : io A := ([], c).

Definition bind {A B : Type} (m : io A) (f : A -> io B) : io B :=
  match m with
  | (issued, Normal a) => let (issued', c) := f a in (issued ++ issued', c)
  | (issued, Throw e) => (issued, Throw e)
  | (issued, OutOfFuel) => (issued, OutOfFuel)
  end.

Declare Scope io_scope.
Delimit Scope io_scope with io.
Notation "'do' x <- m ; k" := (bind m (fun x => k))
  (at level 10, x pattern, m at level 100, k at level 200) : io_scope.
Local Open Scope io_scope.

Definition MODEL_NAME : str := lit "gemini-2.0-flash-exp".
Definition TTS_MODEL : str := lit "gemini-2.5-flash-preview-tts".
Definition pdfMime : str := lit "application/pdf".
Definition dquote : str := [ascii_of_nat 34].
Definition nl : str := [ascii_of_nat 10].

Section Remote.
(** [ai.models.generateContent] and [JSON.parse] at the type
    [Chapter[]]. *)
Variable generateContent : request -> settled response.
Variable parseChapters : str -> settled (list Chapter).

Definition call (r : request) : io response := ([r], await (generateContent r)).

Definition visualIdentifyPrompt : str :=
  lit "Analyze this PDF document. Look at the Table of Contents and the initial pages to identify the main chapters.
      If there is no explicit Table of Contents, scan the document structure to identify logical chapter divisions.".

Definition textIdentifyPrompt (textContext : str) : str :=
  lit "Analyze the beginning of this book (Table of Contents and initial pages) and identify the main chapters.
      
      Text Context:
      " ++ textContext.

Definition listInstruction : str :=
  lit "Return a list of chapters with their number, exact title found in the text, and a very brief description inferred from the title or context.".

(** The parts [identifyChapters] sends. *)
Definition identifyParts (pdfText : str) (pdfBase64 : option str) : list part :=
  match pdfBase64 with
  | Some data =>
      if JS.truthy pdfBase64 then
        [InlineData pdfMime data; TextPart visualIdentifyPrompt;
         TextPart listInstruction]
      else
        [TextPart (textIdentifyPrompt (JS.substring0 pdfText 60000));
         TextPart listInstruction]
  | None =>
      [TextPart (textIdentifyPrompt (JS.substring0 pdfText 60000));
       TextPart listInstruction]
  end.

Definition identifyChapters (pdfText : str) (pdfBase64 : option str)
  : io (list Chapter) :=
  do response <- call {| model := MODEL_NAME;
                         parts := identifyParts pdfText pdfBase64;
                         requestConfig := ChapterListJson |};
  if JS.truthy (responseText response) then
    match responseText response with
    | Some json => lift (await (parseChapters json))
    | None => throw (Error "No data returned from AI")
    end
  else throw (Error "No data returned from AI").

Definition systemInstruction : str :=
  lit "You are an expert literary analyst and educational assistant.".

Definition specificPrompt (type : AnalysisType) : str :=
  match type with
  | DETAILED =>
      lit "Provide a detailed analysis including:
      1. Key Concepts & Main Ideas (Bullet points)
      2. Detailed Summary of arguments
      3. Significant Examples mentioned
      4. Core Conclusions"
  | INSIGHTS =>
      lit "Focus on insights and application:
      1. Key Insights (What is the hidden meaning?)
      2. Practical Applications (How can this be used?)
      3. Connections to other disciplines or modern context
      4. Thought-provoking quotes"
  | CRITICAL =>
      lit "Provide a critical review:
      1. Executive Summary
      2. Strengths of the argument
      3. Weaknesses or Logical Gaps
      4. Open Questions for further research"
  | STANDARD =>
      lit "Provide a standard, comprehensive summary of the chapter. Keep it clear, concise, and easy to read."
  end.

(** The prompt of the text path. *)
Definition textPrompt (chapterTitle chapterText : str) (type : AnalysisType) : str :=
  lit "Analyze the content for Chapter: " ++ dquote ++ chapterTitle ++ dquote
  ++ lit ".
    
    " ++ specificPrompt type ++ lit "
    
    Text Content:
    " ++ chapterText.

(** The prompt of the whole-document path. *)
Definition visualPrompt (chapterTitle : str) (type : AnalysisType) : str :=
  lit "I am providing the full PDF of the book. 
    1. LOCATE the chapter titled " ++ dquote ++ chapterTitle ++ dquote ++ lit ".
    2. Read that chapter using your vision/OCR capabilities (ignoring other chapters).
    3. Perform the following analysis:
    
    " ++ specificPrompt type.

(** The request of the text path and the one of the whole-document
    path. *)
Definition textRequest (chapterTitle chapterText : str) (type : AnalysisType)
  : request :=
  {| model := MODEL_NAME;
     parts := [TextPart (textPrompt chapterTitle chapterText type)];
     requestConfig := Analysis systemInstruction |}.

Definition documentRequest (chapterTitle : str) (type : AnalysisType)
           (data : str) : request :=
  {| model := MODEL_NAME;
     parts := [InlineData pdfMime data;
               TextPart (visualPrompt chapterTitle type)];
     requestConfig := Analysis systemInstruction |}.

Definition identifyRequest (pdfText : str) (pdfBase64 : option str) : request :=
  {| model := MODEL_NAME; parts := identifyParts pdfText pdfBase64;
     requestConfig := ChapterListJson |}.

Definition insufficientContent : exn :=
  Error "Insufficient content to analyze. Neither text nor PDF data provided.".

(** The two last branches of [analyzeChapterContent]: the whole document
    when [pdfBase64] is there, the error otherwise. *)
Definition documentParts (chapterTitle : str) (type : AnalysisType)
           (pdfBase64 : option str) : completion (list part) :=
  match pdfBase64 with
  | Some data =>
      if JS.truthy pdfBase64 then
        Normal [InlineData pdfMime data;
                TextPart (visualPrompt chapterTitle type)]
      else Throw insufficientContent
  | None => Throw insufficientContent
  end.

(** The parts [analyzeChapterContent] builds, or the error it throws
    before any request. *)
Definition analysisParts (chapterTitle : str) (chapterText : option str)
           (type : AnalysisType) (pdfBase64 : option str)
  : completion (list part) :=
  match chapterText with
  | Some t =>
      if JS.truthy chapterText && (100 <? length t) then
        Normal [TextPart (textPrompt chapterTitle t type)]
      else documentParts chapterTitle type pdfBase64
  | None => documentParts chapterTitle type pdfBase64
  end.

Definition analyzeChapterContent (chapterTitle : str) (chapterText : option str)
           (type : AnalysisType) (pdfBase64 : option str) : io str :=
  do parts <- lift (analysisParts chapterTitle chapterText type pdfBase64);
  do response <- call {| model := MODEL_NAME;
                         parts := parts;
                         requestConfig := Analysis systemInstruction |};
  match responseText response with
  | Some t => if JS.truthy (Some t) then ret t
              else ret (lit "Could not generate summary.")
  | None => ret (lit "Could not generate summary.")
  end.

Definition oneOf (c : ascii) (d : ascii) : bool := Ascii.eqb d c.

Definition drop (_ : str) (_ : option str) : str := [].

Definition put (s : string) (_ : str) (_ : option str) : str := lit s.

(** [$1]: the capture, empty when the group took no part. *)
Definition capture1 (_ : str) (cap : option str) : str :=
  match cap with
  | Some t => t
  | None => []
  end.

(** The class of bullet marks as the source file spells it: the hyphen and,
    of the three code units that follow it there, the two below U+0100
    (U+00E2 and U+00A2). *)
Definition isBullet (c : ascii) : bool :=
  let n := JS.charCode c in (n =? 45) || (n =? 226) || (n =? 162).

Definition linkPattern : re :=
  seqOf [Lit "["; Group (plus (noneOf "]")); Lit "]"; Lit "(";
       plus (noneOf ")"); Lit ")"].

Definition bulletPattern : re :=
  seqOf [Bol; star JS.isWhiteSpace; Class isBullet; Class JS.isWhiteSpace].

(** [prepareTextForSpeech], the seven replacements in order. *)
Definition prepareTextForSpeech (text : str) : str :=
  let t := replaceAll noFlags (word "**") drop text in
  let t := replaceAll noFlags (Lit "*") drop t in
  let t := replaceAll noFlags
             (Cat (Rep (oneOf "#") 1 (Some 6)) (opt JS.isWhiteSpace)) drop t in
  let t := replaceAll noFlags (Lit "`") drop t in
  let t := replaceAll noFlags linkPattern capture1 t in
  let t := replaceAll flag_m bulletPattern (put ", ") t in
  replaceAll noFlags (plus (oneOf (ascii_of_nat 10))) (put ". ") t.

(** [base64ToUint8Array] *)
Definition base64ToUint8Array (base64 : str) : completion Uint8Array :=
  let* binaryString := Base64.atob base64 in
  let len := length binaryString in
  Normal (map (fun i => byte_of_ascii (nth i binaryString zero)) (seq 0 len)).

Definition CHUNK_SIZE : nat := 32768.

(** The loop of [uint8ArrayToBase64]: [binary] grows by the code units of
    one subarray a turn; a turn moves [i] on by [CHUNK_SIZE], so [len]
    turns are enough. *)
Fixpoint binaryOf (turns : nat) (bytes : Uint8Array) (i : nat) (binary : str) : str :=
  match turns with
  | 0 => binary
  | S turns' =>
      if i <? length bytes then
        binaryOf turns' bytes (i + CHUNK_SIZE)
          (binary ++ map ascii_of_byte (firstn CHUNK_SIZE (skipn i bytes)))
      else binary
  end.

Definition uint8ArrayToBase64 (bytes : Uint8Array) : str :=
  Base64.btoa (binaryOf (length bytes) bytes 0 []).

Definition MAX_CHUNK_LENGTH : nat := 3000.

(** [/[^.!?]+[.!?]+|\s*$/g] *)
Definition sentencePattern : re :=
  Alt (Cat (plus (noneOf ".!?")) (plus (anyOf ".!?")))
      (Cat (star JS.isWhiteSpace) Eol).

Definition sentencesOf (safeText : str) : list str :=
  match matchAll noFlags sentencePattern safeText with
  | [] => [safeText]
  | l => l
  end.

Definition isBlank (s : str) : bool :=
  match JS.trim s with
  | [] => true
  | _ => false
  end.

(** The loop over the sentences; the state is [chunks] and
    [currentChunk]. *)
Fixpoint packSentences (sentences : list str) (chunks : list str)
         (currentChunk : str) : list str * str :=
  match sentences with
  | [] => (chunks, currentChunk)
  | sentence :: rest =>
      if MAX_CHUNK_LENGTH <? length currentChunk + length sentence then
        packSentences rest
          (if isBlank currentChunk then chunks else chunks ++ [currentChunk])
          sentence
      else packSentences rest chunks (currentChunk ++ sentence)
  end.

Definition chunksOf (safeText : str) : list str :=
  if length safeText <=? MAX_CHUNK_LENGTH then [safeText]
  else
    let '(chunks, currentChunk) := packSentences (sentencesOf safeText) [] [] in
    if isBlank currentChunk then chunks else chunks ++ [currentChunk].

(** A chunk that is spoken: one that is not blank. *)
Definition spoken (c : str) : bool := negb (isBlank c).

(** A group of sentences fits a chunk when it is within the ceiling or is
    one sentence alone. *)
Definition fits (g : list str) : Prop :=
  length (concat g) <= MAX_CHUNK_LENGTH \/ exists s, g = [s].

Definition speechRequest (chunk : str) : request :=
  {| model := TTS_MODEL; parts := [TextPart chunk];
     requestConfig := Speech (lit "Kore") |}.

(** The loop over the chunks: one awaited request a chunk, the audio of
    each pushed on [audioSegments]. *)
Fixpoint speakChunks (chunks : list str) (audioSegments : list Uint8Array)
  : io (list Uint8Array) :=
  match chunks with
  | [] => ret audioSegments
  | chunk :: rest =>
      if isBlank chunk then speakChunks rest audioSegments
      else
        do response <- call (speechRequest chunk);
        match inlineData response with
        | Some base64Audio =>
            if JS.truthy (Some base64Audio) then
              do segment <- lift (base64ToUint8Array base64Audio);
              speakChunks rest (audioSegments ++ [segment])
            else speakChunks rest audioSegments
        | None => speakChunks rest audioSegments
        end
  end.

(** The audio one chunk contributes: the decoded bytes of the answer to
    its request, when the answer carries audio. *)
Definition audioOf (chunk : str) : list Uint8Array :=
  match generateContent (speechRequest chunk) with
  | Fulfilled response =>
      match inlineData response with
      | Some (c :: base64Audio) =>
          match base64ToUint8Array (c :: base64Audio) with
          | Normal segment => [segment]
          | _ => []
          end
      | _ => []
      end
  | Failed _ => []
  end.

(** [generateSpeech], the chunked one. *)
Definition generateSpeech (text : str) : io str :=
  let safeText := prepareTextForSpeech text in
  let chunks := chunksOf safeText in
  do audioSegments <- speakChunks chunks [];
  match audioSegments with
  | [] => throw (Error "No audio generated")
  | _ =>
      let combinedAudio := concat audioSegments in
      ret (uint8ArrayToBase64 combinedAudio)
  end.

End Remote.

End GeminiService.

(* ------------------------------------------------------------------ *)
(** ** Sentences, for the statements on chunks

    What a sentence is, said with the punctuation alone and not with the
    pattern the code cuts the text with. *)

Module Sentences.

(** Sentence punctuation: the full stop, the exclamation mark and the
    question mark. *)
Definition isSentenceEnd (c : ascii) : bool :=
  Ascii.eqb c "."%char || Ascii.eqb c "!"%char || Ascii.eqb c "?"%char.

(** The text from its first sentence punctuation on. *)
Fixpoint afterBody (s : str) : str :=
  match s with
  | c :: r => if isSentenceEnd c then s else afterBody r
  | [] => []
  end.

(** A sentence: code units that are no sentence punctuation, one at
    least, and then sentence punctuation to its end, one at least. *)
Definition isSentence (s : str) : bool :=
  match s with
  | c :: _ =>
      negb (isSentenceEnd c)
      && match afterBody s with
         | [] => false
         | marks => forallb isSentenceEnd marks
         end
  | [] => false
  end.

End Sentences.

(* ------------------------------------------------------------------ *)
(** ** App, the library of book sessions *)

Module App.
Import GeminiService.
Local Open Scope completion_scope.
Local Open Scope io_scope.

Record state : Type :=
  { sessions : list BookSession;
    activeSessionId : option str;
    isLibraryOpen : bool;
    step : AppStep;
    pdfText : str;
    pdfBase64 : option str;
    isScannedMode : bool;
    chapters : list Chapter;
    selectedChapter : option Chapter;
    currentAnalysis : str;
    currentAnalysisType : AnalysisType;
    loading : bool;
    error : str }.

(** The state of the first render. *)
Definition initial : state :=
  {| sessions := []; activeSessionId := None; isLibraryOpen := false;
     step := upload; pdfText := []; pdfBase64 := Some [];
     isScannedMode := false; chapters := []; selectedChapter := None;
     currentAnalysis := []; currentAnalysisType := STANDARD;
     loading := false; error := [] |}.

Definition setSessions (v : list BookSession) (st : state) : state :=
  {| sessions := v; activeSessionId := activeSessionId st;
     isLibraryOpen := isLibraryOpen st; step := step st; pdfText := pdfText st;
     pdfBase64 := pdfBase64 st; isScannedMode := isScannedMode st;
     chapters := chapters st; selectedChapter := selectedChapter st;
     currentAnalysis := currentAnalysis st;
     currentAnalysisType := currentAnalysisType st;
     loading := loading st; error := error st |}.

Definition setActiveSessionId (v : option str) (st : state) : state :=
  {| sessions := sessions st; activeSessionId := v;
     isLibraryOpen := isLibraryOpen st; step := step st; pdfText := pdfText st;
     pdfBase64 := pdfBase64 st; isScannedMode := isScannedMode st;
     chapters := chapters st; selectedChapter := selectedChapter st;
     currentAnalysis := currentAnalysis st;
     currentAnalysisType := currentAnalysisType st;
     loading := loading st; error := error st |}.

Definition setIsLibraryOpen (v : bool) (st : state) : state :=
  {| sessions := sessions st; activeSessionId := activeSessionId st;
     isLibraryOpen := v; step := step st; pdfText := pdfText st;
     pdfBase64 := pdfBase64 st; isScannedMode := isScannedMode st;
     chapters := chapters st; selectedChapter := selectedChapter st;
     currentAnalysis := currentAnalysis st;
     currentAnalysisType := currentAnalysisType st;
     loading := loading st; error := error st |}.

Definition setStep (v : AppStep) (st : state) : state :=
  {| sessions := sessions st; activeSessionId := activeSessionId st;
     isLibraryOpen := isLibraryOpen st; step := v; pdfText := pdfText st;
     pdfBase64 := pdfBase64 st; isScannedMode := isScannedMode st;
     chapters := chapters st; selectedChapter := selectedChapter st;
     currentAnalysis := currentAnalysis st;
     currentAnalysisType := currentAnalysisType st;
     loading := loading st; error := error st |}.

Definition setPdfText (v : str) (st : state) : state :=
  {| sessions := sessions st; activeSessionId := activeSessionId st;
     isLibraryOpen := isLibraryOpen st; step := step st; pdfText := v;
     pdfBase64 := pdfBase64 st; isScannedMode := isScannedMode st;
     chapters := chapters st; selectedChapter := selectedChapter st;
     currentAnalysis := currentAnalysis st;
     currentAnalysisType := currentAnalysisType st;
     loading := loading st; error := error st |}.

Definition setPdfBase64 (v : option str) (st : state) : state :=
  {| sessions := sessions st; activeSessionId := activeSessionId st;
     isLibraryOpen := isLibraryOpen st; step := step st; pdfText := pdfText st;
     pdfBase64 := v; isScannedMode := isScannedMode st;
     chapters := chapters st; selectedChapter := selectedChapter st;
     currentAnalysis := currentAnalysis st;
     currentAnalysisType := currentAnalysisType st;
     loading := loading st; error := error st |}.

Definition setIsScannedMode (v : bool) (st : state) : state :=
  {| sessions := sessions st; activeSessionId := activeSessionId st;
     isLibraryOpen := isLibraryOpen st; step := step st; pdfText := pdfText st;
     pdfBase64 := pdfBase64 st; isScannedMode := v;
     chapters := chapters st; selectedChapter := selectedChapter st;
     currentAnalysis := currentAnalysis st;
     currentAnalysisType := currentAnalysisType st;
     loading := loading st; error := error st |}.

Definition setChapters (v : list Chapter) (st : state) : state :=
  {| sessions := sessions st; activeSessionId := activeSessionId st;
     isLibraryOpen := isLibraryOpen st; step := step st; pdfText := pdfText st;
     pdfBase64 := pdfBase64 st; isScannedMode := isScannedMode st;
     chapters := v; selectedChapter := selectedChapter st;
     currentAnalysis := currentAnalysis st;
     currentAnalysisType := currentAnalysisType st;
     loading := loading st; error := error st |}.

Definition setSelectedChapter (v : option Chapter) (st : state) : state :=
  {| sessions := sessions st; activeSessionId := activeSessionId st;
     isLibraryOpen := isLibraryOpen st; step := step st; pdfText := pdfText st;
     pdfBase64 := pdfBase64 st; isScannedMode := isScannedMode st;
     chapters := chapters st; selectedChapter := v;
     currentAnalysis := currentAnalysis st;
     currentAnalysisType := currentAnalysisType st;
     loading := loading st; error := error st |}.

Definition setCurrentAnalysis (v : str) (st : state) : state :=
  {| sessions := sessions st; activeSessionId := activeSessionId st;
     isLibraryOpen := isLibraryOpen st; step := step st; pdfText := pdfText st;
     pdfBase64 := pdfBase64 st; isScannedMode := isScannedMode st;
     chapters := chapters st; selectedChapter := selectedChapter st;
     currentAnalysis := v;
     currentAnalysisType := currentAnalysisType st;
     loading := loading st; error := error st |}.

Definition setCurrentAnalysisType (v : AnalysisType) (st : state) : state :=
  {| sessions := sessions st; activeSessionId := activeSessionId st;
     isLibraryOpen := isLibraryOpen st; step := step st; pdfText := pdfText st;
     pdfBase64 := pdfBase64 st; isScannedMode := isScannedMode st;
     chapters := chapters st; selectedChapter := selectedChapter st;
     currentAnalysis := currentAnalysis st;
     currentAnalysisType := v;
     loading := loading st; error := error st |}.

Definition setLoading (v : bool) (st : state) : state :=
  {| sessions := sessions st; activeSessionId := activeSessionId st;
     isLibraryOpen := isLibraryOpen st; step := step st; pdfText := pdfText st;
     pdfBase64 := pdfBase64 st; isScannedMode := isScannedMode st;
     chapters := chapters st; selectedChapter := selectedChapter st;
     currentAnalysis := currentAnalysis st;
     currentAnalysisType := currentAnalysisType st;
     loading := v; error := error st |}.

Definition setError (v : str) (st : state) : state :=
  {| sessions := sessions st; activeSessionId := activeSessionId st;
     isLibraryOpen := isLibraryOpen st; step := step st; pdfText := pdfText st;
     pdfBase64 := pdfBase64 st; isScannedMode := isScannedMode st;
     chapters := chapters st; selectedChapter := selectedChapter st;
     currentAnalysis := currentAnalysis st;
     currentAnalysisType := currentAnalysisType st;
     loading := loading st; error := v |}.

(** Setters applied in the order the source calls them. *)
Definition apply (updates : list (state -> state)) (st : state) : state :=
  fold_left (fun s f => f s) updates st.

Definition loadSession (session : BookSession) (st : state) : state :=
  apply [ setActiveSessionId (Some (id session));
          setPdfText (sessionPdfText session);
          setPdfBase64 (sessionPdfBase64 session);
          setIsScannedMode (sessionIsScannedMode session);
          setChapters (sessionChapters session);
          setSelectedChapter None;
          setCurrentAnalysis [];
          setStep chaptersStep;
          setError [];
          setLoading false;
          setIsLibraryOpen false ] st.

Definition handleSwitchSession (sessionId : str) (st : state) : state :=
  match find (fun s => JS.eqb (id s) sessionId) (sessions st) with
  | Some session => loadSession session st
  | None => st
  end.

Definition handleUploadNew (st : state) : state :=
  apply [ setStep upload; setError []; setActiveSessionId None;
          setSelectedChapter None ] st.

(** [sessionId === activeSessionId], the latter a string or [null]. *)
Definition isActive (sessionId : str) (active : option str) : bool :=
  match active with
  | Some a => JS.eqb sessionId a
  | None => false
  end.

Definition removeSession (sessionId : str) (st : state) : state :=
  let newSessions :=
    filter (fun s => negb (JS.eqb (id s) sessionId)) (sessions st) in
  let st1 := setSessions newSessions st in
  if isActive sessionId (activeSessionId st) then
    match newSessions with
    | first :: _ => loadSession first st1
    | [] => handleUploadNew st1
    end
  else st1.

(** What the handler reads of the chosen file and of the clock. *)
Record File : Type :=
  { name : str;
    dataUrl : settled str;
    pdf : settled (list PdfService.page) }.

(** [err.message] where the code that ran gives the text; an exception of
    the platform is shown by a text of its own, which is not empty. *)
Definition messageOf (e : exn) : str :=
  match e with
  | Error m => lit m
  | SyntaxError => lit "SyntaxError"
  | RangeError => lit "RangeError"
  | InvalidCharacterError => lit "InvalidCharacterError"
  | NotSupportedError => lit "NotSupportedError"
  | Rejected => []
  end.

Definition orElse (s fallback : str) : str :=
  match s with
  | [] => fallback
  | _ => s
  end.

Section Handlers.
Variable generateContent : request -> settled response.
Variable parseChapters : str -> settled (list Chapter).
Variable pdfjsLib : bool.

(** [finalIsScanned] *)
Definition decideScanned (text : str) (isScanned : bool) : bool :=
  if isScanned then true
  else if length text <? 500 then true
  else isScanned.

(** The body of the [try] of [handleFileSelect]; the state travels with
    the completion, since a setter called before a throw has taken
    effect. *)
Definition processFile (file : File) (now now' : nat) (st : state)
  : list request * (state * completion unit) :=
  match PdfService.convertFileToBase64 (dataUrl file) with
  | Normal base64 =>
      let st := setPdfBase64 base64 st in
      match PdfService.extractTextFromPDF pdfjsLib (pdf file) with
      | Normal ex =>
          let text := PdfService.text ex in
          let st := setPdfText text st in
          let finalIsScanned := decideScanned text (PdfService.isScanned ex) in
          let st := setIsScannedMode finalIsScanned st in
          let '(issued, identified) :=
            identifyChapters generateContent parseChapters
              (if finalIsScanned then [] else text)
              (if finalIsScanned then base64 else None) in
          match identified with
          | Normal identifiedChapters =>
              if length identifiedChapters =? 0 then
                (issued, (st, Throw (Error "Could not identify chapters. Try a different book.")))
              else
                let newSession :=
                  {| id := JS.toString now;
                     fileName := name file;
                     uploadTimestamp := now';
                     sessionChapters := identifiedChapters;
                     sessionPdfText := text;
                     sessionPdfBase64 := base64;
                     sessionIsScannedMode := finalIsScanned |} in
                let st := setSessions (newSession :: sessions st) st in
                (issued, (loadSession newSession st, Normal tt))
          | Throw e => (issued, (st, Throw e))
          | OutOfFuel => (issued, (st, OutOfFuel))
          end
      | Throw e => ([], (st, Throw e))
      | OutOfFuel => ([], (st, OutOfFuel))
      end
  | Throw e => ([], (st, Throw e))
  | OutOfFuel => ([], (st, OutOfFuel))
  end.

Definition handleFileSelect (file : File) (now now' : nat) (st : state)
  : io state :=
  let st := apply [setLoading true; setError []; setIsScannedMode false] st in
  match processFile file now now' st with
  | (issued, (st', Normal _)) => (issued, Normal st')
  | (issued, (st', Throw err)) =>
      (issued,
       Normal (apply [ setError (orElse (messageOf err)
                                        (lit "Failed to process the book."));
                       setLoading false ] st'))
  | (issued, (_, OutOfFuel)) => (issued, OutOfFuel)
  end.

(** [chapters.findIndex(c => c.number === chapter.number && c.title === chapter.title)] *)
Fixpoint findIndex (chapter : Chapter) (l : list Chapter) (i : nat) : option nat :=
  match l with
  | [] => None
  | c :: r =>
      if JS.eqb (number c) (number chapter) && JS.eqb (title c) (title chapter)
      then Some i
      else findIndex chapter r (S i)
  end.

Definition nextChapterOf (chapter : Chapter) (l : list Chapter) : option Chapter :=
  match findIndex chapter l 0 with
  | Some currentIndex =>
      if S currentIndex <? length l then nth_error l (S currentIndex) else None
  | None => None
  end.

(** [!chapterContent || chapterContent.length < 200] *)
Definition tooShort (chapterContent : option str) : bool :=
  match chapterContent with
  | Some t => negb (JS.truthy chapterContent) || (length t <? 200)
  | None => true
  end.

(** The [chapterContent] the handler passes on. *)
Definition isolateChapter (fuel : nat) (st : state) (chapter : Chapter)
  : completion (option str) :=
  if isScannedMode st then Normal None
  else
    let nextChapter := nextChapterOf chapter (chapters st) in
    let* chapterContent :=
      PdfService.findChapterText fuel (pdfText st) (title chapter)
        (option_map title nextChapter) in
    if tooShort chapterContent then Normal None else Normal chapterContent.

Definition handleChapterAnalysis (fuel : nat) (chapter : Chapter)
           (type : AnalysisType) (st : state) : io state :=
  let st1 := apply [ setSelectedChapter (Some chapter);
                     setCurrentAnalysisType type;
                     setStep analysis;
                     setLoading true;
                     setCurrentAnalysis [] ] st in
  let attempt :=
    do chapterContent <- lift (isolateChapter fuel st chapter);
    analyzeChapterContent generateContent (title chapter) chapterContent type
                          (pdfBase64 st) in
  match attempt with
  | (issued, Normal result) =>
      (issued, Normal (apply [setCurrentAnalysis result; setLoading false] st1))
  | (issued, Throw _) =>
      (issued,
       Normal (apply [ setError (lit "Failed to generate analysis.");
                       setStep chaptersStep;
                       setLoading false ] st1))
  | (issued, OutOfFuel) => (issued, OutOfFuel)
  end.

End Handlers.

End App.

(* ------------------------------------------------------------------ *)
(** ** components/AnalysisView, the audio helpers *)

Module AnalysisView.
Local Open Scope completion_scope.

(** [decodeBase64]: the bytes of [atob(base64)] but an odd last one. *)
Definition decodeBase64 (base64 : str) : completion Uint8Array :=
  let* binaryString := Base64.atob base64 in
  let len := length binaryString in
  let safeLen := len - (len mod 2) in
  Normal (map (fun i => byte_of_ascii (nth i binaryString zero)) (seq 0 safeLen)).

(** A 16-bit two's complement sample of two bytes, low byte first: the
    byte order of an [Int16Array] on a little-endian machine. *)
Definition int16 (lo hi : Byte.byte) : Z :=
  let u := (Z.of_N (Byte.to_N lo) + 256 * Z.of_N (Byte.to_N hi))%Z in
  if (u <? 32768)%Z then u else (u - 65536)%Z.

Fixpoint int16s (bytes : list Byte.byte) : list Z :=
  match bytes with
  | lo :: hi :: r => int16 lo hi :: int16s r
  | _ => []
  end.

(** [new Int16Array(buffer)]: a [RangeError] unless the byte length is a
    multiple of two. *)
Definition newInt16Array (buffer : list Byte.byte) : completion (list Z) :=
  if Nat.even (length buffer) then Normal (int16s buffer) else Throw RangeError.

Record AudioBuffer : Type :=
  { numberOfChannels : nat;
    sampleRate : N;
    channelData : list (list Q) }.

(** [ctx.createBuffer(numberOfChannels, length, sampleRate)]: channels of
    zeros; a [NotSupportedError] when a count is zero.  The rate the code
    asks for lies in the range every context supports. *)
Definition createBuffer (numChannels frameCount : nat) (rate : N)
  : completion AudioBuffer :=
  if (numChannels =? 0) || (frameCount =? 0) || (rate =? 0)%N
  then Throw NotSupportedError
  else Normal {| numberOfChannels := numChannels; sampleRate := rate;
                 channelData := repeat (repeat 0%Q frameCount) numChannels |}.

(** [a[i] = v] on a typed array: nothing happens out of range. *)
Fixpoint setAt {A : Type} (i : nat) (v : A) (a : list A) : list A :=
  match a, i with
  | [], _ => []
  | _ :: r, 0 => v :: r
  | x :: r, S j => x :: setAt j v r
  end.

(** [dataInt16[j] / 32768.0].  The quotient of a 16-bit integer by a power
    of two is exact as a binary64 number and as the binary32 number the
    channel stores, so the rational is the number stored. *)
Definition normalize (sample : Z) : Q := Qmake sample 32768.

(** The inner loop: [channelData[i] = dataInt16[i * numChannels + channel] / 32768.0]
    for [i] from 0 to [frameCount - 1]. *)
Definition fillChannel (dataInt16 : list Z) (numChannels channel frameCount : nat)
           (data : list Q) : list Q :=
  fold_left
    (fun cd i => setAt i (normalize (nth (i * numChannels + channel) dataInt16 0%Z)) cd)
    (seq 0 frameCount) data.

Definition sampleRate24k : N := 24000.

(** [decodeAudioData(data, ctx)] *)
Definition decodeAudioData (data : Uint8Array) : completion AudioBuffer :=
  let numChannels := 1 in
  let buffer := data in
  let* dataInt16 := newInt16Array buffer in
  let frameCount := length dataInt16 / numChannels in
  let* audioBuffer := createBuffer numChannels frameCount sampleRate24k in
  Normal
    {| numberOfChannels := numberOfChannels audioBuffer;
       sampleRate := sampleRate audioBuffer;
       channelData :=
         fold_left
           (fun chans channel =>
              setAt channel
                (fillChannel dataInt16 numChannels channel frameCount
                   (nth channel chans []))
                chans)
           (seq 0 numChannels) (channelData audioBuffer) |}.

End AnalysisView.

(* ------------------------------------------------------------------ *)
(** ** Inputs the examples run on *)

Module Fixtures.
Import GeminiService App.

(** A small book: a contents line, then two chapters. *)
Definition book : str :=
  lit "One Two. One: it begins here and goes on. Two: it ends.".

(** A remote model that answers every request with the same text. *)
Definition answering (_ : request) : settled response :=
  Fulfilled {| responseText := Some (lit "ok"); inlineData := None |}.

Definition chapterOne : Chapter :=
  {| number := lit "1"; title := lit "One"; description := [] |}.

Definition chapterTwo : Chapter :=
  {| number := lit "2"; title := lit "Two"; description := [] |}.

Definition oneChapter (_ : str) : settled (list Chapter) :=
  Fulfilled [chapterOne].


(** A scanned book: ten pages, none with text. *)
Definition scannedFile : File :=
  {| name := lit "scan.pdf";
     dataUrl := Fulfilled (lit "data:application/pdf;base64,JVBERi0=");
     pdf := Fulfilled (repeat (Some []) 10) |}.

End Fixtures.

(* ------------------------------------------------------------------ *)
(** ** Spellings of a title *)

Module Spelling.
Import RegExp.

(** A text that begins on a code unit that is not white space. *)
Definition startsWord (s : str) : Prop :=
  match s with
  | c :: _ => JS.isWhiteSpace c = false
  | [] => False
  end.

(** [spells t u]: [u] is [t] up to the case of its letters and up to the
    white space that separates its words, a run of white space standing
    for any other. *)
Inductive spells : str -> str -> Prop :=
| spells_end : spells [] []
| spells_unit (c d : ascii) (t u : str) :
    JS.isWhiteSpace c = false ->
    sameChar flag_i c d = true ->
    spells t u ->
    spells (c :: t) (d :: u)
| spells_gap (gap gap' t u : str) :
    gap <> [] -> gap' <> [] ->
    Forall (fun c => JS.isWhiteSpace c = true) gap ->
    Forall (fun c => JS.isWhiteSpace c = true) gap' ->
    startsWord t -> startsWord u ->
    spells t u ->
    spells (gap ++ t) (gap' ++ u).

(** The code unit before the position reached once [s] is read. *)
Definition lastOr (prev : option ascii) (s : str) : option ascii :=
  fold_left (fun _ c => Some c) s prev.

End Spelling.

(* ------------------------------------------------------------------ *)
(** ** The layout of an extraction *)

Module Layout.
Import PdfService.

(** The pages with their numbers, the first being [i]. *)
Fixpoint numbered (i : nat) (pages : list page) : list (nat * page) :=
  match pages with
  | [] => []
  | p :: rest => (i, p) :: numbered (S i) rest
  end.

(** The text of a page: its items joined by a space; none for a page that
    cannot be read. *)
Definition pageText (p : page) : option str :=
  match p with
  | Some items => Some (JS.join items (lit " "))
  | None => None
  end.

(** A page that was read and whose text is not blank. *)
Definition hasText (np : nat * page) : bool :=
  match pageText (snd np) with
  | Some t => 0 <? length (JS.trim t)
  | None => false
  end.

(** The block of a page in the text, and the length it counts for. *)
Definition pageBlock (np : nat * page) : str :=
  match pageText (snd np) with
  | Some t => pageHeader (fst np) ++ [newline] ++ t ++ [newline; newline]
  | None => []
  end.

Definition pageLength (np : nat * page) : nat :=
  match pageText (snd np) with
  | Some t => length (JS.trim t)
  | None => 0
  end.

End Layout.

(* ------------------------------------------------------------------ *)
(** ** How the request of a chunk ends *)

Module SpeechOutcome.
Import GeminiService.

Section Remote.
Variable generateContent : request -> settled response.

(** A chunk whose request is answered, with audio that decodes or with
    none. *)
Definition answered (chunk : str) : Prop :=
  exists r,
    generateContent (speechRequest chunk) = Fulfilled r
    /\ forall x b64, inlineData r = Some (x :: b64) ->
                     exists segment, base64ToUint8Array (x :: b64) = Normal segment.

(** A chunk whose request fails, or whose answer carries audio that is
    not base64 text. *)
Definition failing (chunk : str) (e : exn) : Prop :=
  generateContent (speechRequest chunk) = Failed e
  \/ exists r x b64,
      generateContent (speechRequest chunk) = Fulfilled r
      /\ inlineData r = Some (x :: b64)
      /\ base64ToUint8Array (x :: b64) = Throw e.

(** A chunk whose answer carries no audio. *)
Definition silent (chunk : str) : Prop :=
  exists r,
    generateContent (speechRequest chunk) = Fulfilled r
    /\ (inlineData r = None \/ inlineData r = Some []).

End Remote.
End SpeechOutcome.

(* ------------------------------------------------------------------ *)
(** ** services/geminiService, the speech of one request *)

Module SingleRequestSpeech.
Import GeminiService.
Local Open Scope io_scope.

(** [prepareTextForSpeech] of [services/geminiService.ts]: the same seven
    replacements, then [.substring(0, 2000)]. *)
Definition prepareTextForSpeech (text : str) : str :=
  JS.substring0 (GeminiService.prepareTextForSpeech text) 2000.

Section Remote.
Variable generateContent : request -> settled response.

(** [generateSpeech] of [services/geminiService.ts]: one request, whose
    audio is returned as the answer gives it. *)
Definition generateSpeech (text : str) : io str :=
  let safeText := prepareTextForSpeech text in
  do response <- call generateContent (speechRequest safeText);
  match inlineData response with
  | Some base64Audio =>
      if negb (JS.truthy (Some base64Audio))
      then throw (Error "No audio data returned")
      else ret base64Audio
  | None => throw (Error "No audio data returned")
  end.

End Remote.
End SingleRequestSpeech.

(* ------------------------------------------------------------------ *)
(** ** services/geminiService, the slide of a chapter *)

Module SlideService.
Import GeminiService.

Record imageRequest : Type :=
  { imageModel : str; imagePrompt : str; aspectRatio : str }.

(** What the code reads of the answer: the candidates, when there are any,
    and of each its [content?.parts], when there are any. *)
Definition candidate : Type := option (list part).

Record imageResponse : Type := { candidates : option (list candidate) }.

Definition IMAGE_MODEL : str := lit "gemini-2.5-flash-image".

(** The text of the prompt around the title and the analysis. *)
Definition slidePromptOpening : str :=
  lit "Create a high-quality, 16:9 infographic-style presentation slide for a book chapter titled ".

Definition slidePromptThemes : str :=
  lit ".
    The visual should abstractly represent the following key themes from the chapter:
    ".

Definition slidePromptStyle : str :=
  lit "...

    Style: Professional, minimal text, vector art or high-quality illustration, educational, clean background.".

Definition slidePrompt (chapterTitle analysisText : str) : str :=
  slidePromptOpening ++ dquote ++ chapterTitle ++ dquote ++ slidePromptThemes
  ++ JS.substring0 analysisText 500 ++ slidePromptStyle.

Definition slideRequest (chapterTitle analysisText : str) : imageRequest :=
  {| imageModel := IMAGE_MODEL;
     imagePrompt := slidePrompt chapterTitle analysisText;
     aspectRatio := lit "16:9" |}.

(** [part.inlineData && part.inlineData.data]: the data of a part that
    carries some. *)
Definition dataOf (p : part) : option str :=
  match p with
  | InlineData _ (c :: data) => Some (c :: data)
  | _ => None
  end.

(** The inner loop, over the parts of a candidate. *)
Fixpoint imageOfParts (ps : list part) : option str :=
  match ps with
  | [] => None
  | p :: rest =>
      match dataOf p with
      | Some data => Some data
      | None => imageOfParts rest
      end
  end.

(** [candidate.content?.parts || []] *)
Definition partsOf (c : candidate) : list part :=
  match c with
  | Some ps => ps
  | None => []
  end.

(** The outer loop, over the candidates. *)
Fixpoint imageOfCandidates (cs : list candidate) : option str :=
  match cs with
  | [] => None
  | c :: rest =>
      match imageOfParts (partsOf c) with
      | Some data => Some data
      | None => imageOfCandidates rest
      end
  end.

(** [response.candidates || []] *)
Definition candidatesOf (r : imageResponse) : list candidate :=
  match candidates r with
  | Some cs => cs
  | None => []
  end.

Section Remote.
Variable generateContent : imageRequest -> settled imageResponse.

(** [generateSlide]: the requests issued, and how the call ends. *)
Definition generateSlide (chapterTitle analysisText : str)
  : list imageRequest * completion str :=
  let request := slideRequest chapterTitle analysisText in
  ([request],
   match await (generateContent request) with
   | Normal response =>
       match imageOfCandidates (candidatesOf response) with
       | Some data => Normal data
       | None => Throw (Error "No image generated")
       end
   | Throw e => Throw e
   | OutOfFuel => OutOfFuel
   end).

(** The slide state of the analysis view and what the user is told. *)
Record slideState : Type :=
  { slideImage : option str; isGeneratingSlide : bool }.

Record slideOutcome : Type :=
  { issued : list imageRequest; alerts : list str; after : slideState }.

(** [handleGenerateSlide] of the analysis view. *)
Definition handleGenerateSlide (chapter : Chapter) (analysis : str)
           (st : slideState) : slideOutcome :=
  if JS.truthy (slideImage st) then
    {| issued := []; alerts := []; after := st |}
  else
    let (requests, done) := generateSlide (title chapter) analysis in
    match done with
    | Normal base64 =>
        {| issued := requests; alerts := [];
           after := {| slideImage := Some base64; isGeneratingSlide := false |} |}
    | _ =>
        {| issued := requests;
           alerts := [lit "Failed to generate slide. Please try again."];
           after := {| slideImage := slideImage st; isGeneratingSlide := false |} |}
    end.

End Remote.
End SlideService.

(* ------------------------------------------------------------------ *)
(** ** The analysis view as it was first: decoding without the guard *)

Module EarlierView.
Import AnalysisView.
Local Open Scope completion_scope.

(** [decodeBase64]: every byte of [atob(base64)]. *)
Definition decodeBase64 (base64 : str) : completion Uint8Array :=
  let* binaryString := Base64.atob base64 in
  let len := length binaryString in
  Normal (map (fun i => byte_of_ascii (nth i binaryString zero)) (seq 0 len)).

(** [decodeAudioData(data, ctx, sampleRate, numChannels)].  The view of
    16-bit samples is taken on [data.buffer], which a [Uint8Array] from
    [decodeBase64] fills whole.  The buffer is created with the integer
    part of [dataInt16.length / numChannels]; a frame past it, which the
    loop reaches when the quotient is not whole, is written nowhere. *)
Definition decodeAudioData (data : Uint8Array) (rate : N) (numChannels : nat)
  : completion AudioBuffer :=
  let* dataInt16 := newInt16Array data in
  let frameCount := length dataInt16 / numChannels in
  let* buffer := createBuffer numChannels frameCount rate in
  Normal
    {| numberOfChannels := numberOfChannels buffer;
       sampleRate := sampleRate buffer;
       channelData :=
         fold_left
           (fun chans channel =>
              setAt channel
                (fillChannel dataInt16 numChannels channel frameCount
                   (nth channel chans []))
                chans)
           (seq 0 numChannels) (channelData buffer) |}.

(** What [handlePlay] does with the audio it is given: decode the text,
    then the samples, one channel at 24000 Hz. *)
Definition decodeSpeech (base64Audio : str) : completion AudioBuffer :=
  let* bytes := decodeBase64 base64Audio in
  decodeAudioData bytes 24000 1.

End EarlierView.

(* ------------------------------------------------------------------ *)
(** ** components/AnalysisView, the player *)

Module Player.
Import RegExp GeminiService AnalysisView.
Local Open Scope completion_scope.

(** [/\n\n+/] *)
Definition blankLines : re :=
  Cat (Lit (ascii_of_nat 10)) (plus (oneOf (ascii_of_nat 10))).

(** [contentBlocks]: [analysis.split(/\n\n+/).filter(Boolean)], and no
    block for an empty analysis. *)
Definition contentBlocks (analysis : str) : list str :=
  if negb (JS.truthy (Some analysis)) then []
  else filter (fun block => JS.truthy (Some block))
              (RegExp.split noFlags blankLines analysis).

(** Whether a text holds two line feeds in a row. *)
Fixpoint hasBlankLine (s : str) : bool :=
  match s with
  | c :: rest =>
      match rest with
      | d :: _ =>
          (Ascii.eqb c (ascii_of_nat 10) && Ascii.eqb d (ascii_of_nat 10))
          || hasBlankLine rest
      | [] => false
      end
  | [] => false
  end.

Record blockEntry : Type := { endChar : nat; index : nat }.

(** The [forEach] of [blockMap]; the state is [map] and [totalChars]. *)
Fixpoint blockEntries (blocks : list str) (i : nat) (map : list blockEntry)
         (totalChars : nat) : list blockEntry * nat :=
  match blocks with
  | [] => (map, totalChars)
  | block :: rest =>
      let totalChars := totalChars + length block in
      blockEntries rest (S i) (map ++ [{| endChar := totalChars; index := i |}])
                   totalChars
  end.

Definition blockMap (contentBlocks : list str) : list blockEntry * nat :=
  blockEntries contentBlocks 0 [] 0.

(** The audio state of the view; [duration] is [buffer.duration], the
    number of frames over the sample rate. *)
Record audioState : Type :=
  { audioBuffer : option AudioBuffer;
    duration : Q;
    isGeneratingAudio : bool }.

Definition durationOf (buffer : AudioBuffer) : Q :=
  inject_Z (Z.of_nat (length (nth 0 (channelData buffer) [])))
  / inject_Z (Z.of_N (sampleRate buffer)).

Record prepared : Type :=
  { returned : option AudioBuffer; alerts : list str; after : audioState }.

Section Service.
(** [generateSpeech], as the view imports it. *)
Variable generateSpeech : str -> io str.

(** [prepareAudio]: the buffer to play, [None] for [null].  The audio
    context is taken to be there and running. *)
Definition prepareAudio (analysis : str) (st : audioState) : io prepared :=
  match audioBuffer st with
  | Some buffer =>
      ret {| returned := Some buffer; alerts := [];
             after := {| audioBuffer := audioBuffer st; duration := duration st;
                         isGeneratingAudio := false |} |}
  | None =>
      let (issued, done) :=
        bind (generateSpeech analysis)
             (fun base64Audio =>
                lift (let* bytes := decodeBase64 base64Audio in
                      decodeAudioData bytes)) in
      (issued,
       match done with
       | Normal buffer =>
           Normal {| returned := Some buffer; alerts := [];
                     after := {| audioBuffer := Some buffer;
                                 duration := durationOf buffer;
                                 isGeneratingAudio := false |} |}
       | Throw _ =>
           Normal {| returned := None;
                     alerts := [lit "Could not generate audio. Please try again."];
                     after := {| audioBuffer := audioBuffer st;
                                 duration := duration st;
                                 isGeneratingAudio := false |} |}
       | OutOfFuel => OutOfFuel
       end)
  end.

End Service.
End Player.

(* ------------------------------------------------------------------ *)
(** ** App, the page and what it offers *)

Module Ui.
Import GeminiService App.
Local Open Scope completion_scope.

(** What the user can do on the page of the library. *)
Inductive event : Type :=
| LogoClicked
| LibraryToggled
| BackdropClicked
| SessionClicked (session : BookSession)
| RemoveClicked (session : BookSession)
| AddNewBookClicked
| ErrorDismissed
| FileSelected (file : File)
| ChapterSelected (chapter : Chapter) (type : AnalysisType)
| UploadNewClicked
| BackClicked
| RegenerateClicked.

(** The library menu is rendered when there are sessions and it is open. *)
Definition menuShown (st : state) : Prop :=
  sessions st <> [] /\ isLibraryOpen st = true.

(** What the page rendered from a state offers: the logo always; the
    library button with sessions; the rows of the menu, their remove
    buttons, the backdrop and "Add New Book" with the menu; the banner's
    cross with an error; the upload box on the upload step, where a file
    can be dropped also while one is read; the chapters and "Upload New
      Book" on the chapters step; "Back" and "Regenerate" on the analysis
    step with a selected chapter, once the spinner shown while loading is
    gone. *)
Definition offered (st : state) (e : event) : Prop :=
  match e with
  | LogoClicked => True
  | LibraryToggled => sessions st <> []
  | BackdropClicked => menuShown st
  | SessionClicked session => menuShown st /\ In session (sessions st)
  | RemoveClicked session => menuShown st /\ In session (sessions st)
  | AddNewBookClicked => menuShown st
  | ErrorDismissed => error st <> []
  | FileSelected _ => step st = upload
  | ChapterSelected chapter _ => step st = chaptersStep /\ In chapter (chapters st)
  | UploadNewClicked => step st = chaptersStep
  | BackClicked =>
      step st = analysis /\ selectedChapter st <> None /\ loading st = false
  | RegenerateClicked =>
      step st = analysis /\ selectedChapter st <> None /\ loading st = false
  end.

(** Where a handler waits: the [await] of [handleFileSelect] on the
    reader, on the extraction and on the identification of the chapters,
    and the [await] of [handleChapterAnalysis] on the analysis.  A task
    holds what the rest of the handler has in its local variables and in
    the arguments of the call it waits for. *)
Inductive task : Type :=
| Reading (file : File)
| Extracting (file : File) (base64 : option str)
| Identifying (file : File) (base64 : option str) (text : str)
              (finalIsScanned : bool)
| Analysing (chapterTitle : str) (chapterContent : option str)
            (type : AnalysisType) (pdfBase64 : option str).

(** The [catch] of [handleFileSelect] and the [catch] and [finally] of
    [handleChapterAnalysis]. *)
Definition uploadFailed (err : exn) (st : state) : state :=
  apply [ setError (orElse (messageOf err) (lit "Failed to process the book."));
          setLoading false ] st.

Definition analysisFailed (st : state) : state :=
  apply [ setError (lit "Failed to generate analysis.");
          setStep chaptersStep;
          setLoading false ] st.

Section Handlers.
Variable generateContent : request -> settled response.
Variable parseChapters : str -> settled (list Chapter).
Variable pdfjsLib : bool.

(** [handleChapterAnalysis] up to its [await]: the setters, the search
    for the chapter's text in the state the handler was made for, and
    the call of [analyzeChapterContent], which either rejects before any
    request, and then the [catch] runs with no event in between, or
    leaves a request in flight. *)
Definition beginAnalysis (fuel : nat) (chapter : Chapter) (type : AnalysisType)
           (st : state) : completion (state * list task) :=
  let st1 := apply [ setSelectedChapter (Some chapter);
                     setCurrentAnalysisType type;
                     setStep analysis;
                     setLoading true;
                     setCurrentAnalysis [] ] st in
  match isolateChapter fuel st chapter with
  | Normal chapterContent =>
      match analysisParts (title chapter) chapterContent type (pdfBase64 st) with
      | Normal _ =>
          Normal (st1, [Analysing (title chapter) chapterContent type
                                  (pdfBase64 st)])
      | Throw _ => Normal (analysisFailed st1, [])
      | OutOfFuel => OutOfFuel
      end
  | Throw _ => Normal (analysisFailed st1, [])
  | OutOfFuel => OutOfFuel
  end.

(** What the handler of an event does before it returns or waits. *)
Definition begin (fuel : nat) (e : event) (st : state)
  : completion (state * list task) :=
  match e with
  | LogoClicked =>
      Normal (match sessions st with
              | first :: _ => loadSession first st
              | [] => handleUploadNew st
              end, [])
  | LibraryToggled => Normal (setIsLibraryOpen (negb (isLibraryOpen st)) st, [])
  | BackdropClicked => Normal (setIsLibraryOpen false st, [])
  | SessionClicked session => Normal (loadSession session st, [])
  | RemoveClicked session => Normal (removeSession (id session) st, [])
  | AddNewBookClicked => Normal (setIsLibraryOpen false (handleUploadNew st), [])
  | ErrorDismissed => Normal (setError [] st, [])
  | FileSelected file =>
      Normal (apply [setLoading true; setError []; setIsScannedMode false] st,
              [Reading file])
  | ChapterSelected chapter type => beginAnalysis fuel chapter type st
  | UploadNewClicked => Normal (handleUploadNew st, [])
  | BackClicked => Normal (setStep chaptersStep st, [])
  | RegenerateClicked =>
      match selectedChapter st with
      | Some chapter => beginAnalysis fuel chapter (currentAnalysisType st) st
      | None => Normal (st, [])
      end
  end.

(** The rest of a handler once what it waits for has settled, run on
    the state of that moment up to the next wait or to its end; [now]
    and [now'] are the two readings of the clock. *)
Definition resume (t : task) (now now' : nat) (st : state) : state * list task :=
  match t with
  | Reading file =>
      match PdfService.convertFileToBase64 (dataUrl file) with
      | Normal base64 =>
          let st := setPdfBase64 base64 st in
          if pdfjsLib then (st, [Extracting file base64])
          else
            (uploadFailed (Error "PDF library not loaded. Please refresh the page.")
                          st, [])
      | Throw err => (uploadFailed err st, [])
      | OutOfFuel => (st, [])
      end
  | Extracting file base64 =>
      match PdfService.extractTextFromPDF true (pdf file) with
      | Normal ex =>
          let text := PdfService.text ex in
          let st := setPdfText text st in
          let finalIsScanned := decideScanned text (PdfService.isScanned ex) in
          let st := setIsScannedMode finalIsScanned st in
          (st, [Identifying file base64 text finalIsScanned])
      | Throw err => (uploadFailed err st, [])
      | OutOfFuel => (st, [])
      end
  | Identifying file base64 text finalIsScanned =>
      match snd (identifyChapters generateContent parseChapters
                   (if finalIsScanned then [] else text)
                   (if finalIsScanned then base64 else None)) with
      | Normal identifiedChapters =>
          if length identifiedChapters =? 0 then
            (uploadFailed
               (Error "Could not identify chapters. Try a different book.") st, [])
          else
            let newSession :=
              {| id := JS.toString now;
                 fileName := name file;
                 uploadTimestamp := now';
                 sessionChapters := identifiedChapters;
                 sessionPdfText := text;
                 sessionPdfBase64 := base64;
                 sessionIsScannedMode := finalIsScanned |} in
            let st := setSessions (newSession :: sessions st) st in
            (loadSession newSession st, [])
      | Throw err => (uploadFailed err st, [])
      | OutOfFuel => (st, [])
      end
  | Analysing chapterTitle chapterContent type pdfBase64 =>
      match snd (analyzeChapterContent generateContent chapterTitle chapterContent
                   type pdfBase64) with
      | Normal result => (apply [setCurrentAnalysis result; setLoading false] st, [])
      | Throw _ => (analysisFailed st, [])
      | OutOfFuel => (st, [])
      end
  end.

(** The page: the state rendered and the handlers that wait. *)
Record page : Type := { view : state; waiting : list task }.

(** The pages the library goes through from the first render.  An event
    the page offers runs its handler up to its first wait, on the state
    rendered: every change of the state is taken to be rendered before
    the next event is handled.  Any handler that waits may go on, in any
    order, whatever came in between. *)
Inductive reachable : page -> Prop :=
| reach_initial : reachable {| view := initial; waiting := [] |}
| reach_event (p : page) (e : event) (fuel : nat) (st : state) (ts : list task) :
    reachable p -> offered (view p) e ->
    begin fuel e (view p) = Normal (st, ts) ->
    reachable {| view := st; waiting := waiting p ++ ts |}
| reach_resume (p : page) (before after : list task) (t : task) (now now' : nat)
               (st : state) (ts : list task) :
    reachable p -> waiting p = before ++ t :: after ->
    resume t now now' (view p) = (st, ts) ->
    reachable {| view := st; waiting := before ++ ts ++ after |}.

(** A handler that waits, gone through with no event in between. *)
Fixpoint settle (turns : nat) (now now' : nat) (st : state) (ts : list task)
  : state * list task :=
  match turns, ts with
  | S turns', t :: rest =>
      let '(st', ts') := resume t now now' st in
      settle turns' now now' st' (ts' ++ rest)
  | _, _ => (st, ts)
  end.

End Handlers.




(** What holds of the state rendered whatever the handlers that wait and
    the order they go on in: every session of the library has a chapter;
    the active id names a session of the library, whose chapters are the
    ones in view; the upload screen shows only with no session active; the
    selected chapter is one of the chapters in view, and there is one on
    the analysis screen; the step is never "processing". *)
Definition kept (st : state) : Prop :=
  Forall (fun session => sessionChapters session <> []) (sessions st)
  /\ (forall a, activeSessionId st = Some a ->
                exists session,
                  In session (sessions st) /\ id session = a
                  /\ chapters st = sessionChapters session)
  /\ (step st = upload -> activeSessionId st = None)
  /\ (forall chapter, selectedChapter st = Some chapter -> In chapter (chapters st))
  /\ (step st = analysis -> selectedChapter st <> None)
  /\ step st <> processing.

End Ui.

(* ------------------------------------------------------------------ *)
(** ** App, with one book *)

(** The App that holds one book has the state of the library's App but its
    three library fields; its handlers are modelled on the same record and
    leave those fields alone.  Its [handleChapterAnalysis] is the one of the
    library, word for word. *)
Module SingleBook.
Import GeminiService App.

Section Handlers.
Variable generateContent : request -> settled response.
Variable parseChapters : str -> settled (list Chapter).
Variable pdfjsLib : bool.

(** The mode set after the extraction: [setIsScannedMode(true)] when the
    extractor flags the document, or else when the text is short. *)
Definition markScanned (text : str) (isScanned : bool) (st : state) : state :=
  if isScanned then setIsScannedMode true st
  else if length text <? 500 then setIsScannedMode true st
  else st.

(** The body of the [try] of [handleFileSelect]. *)
Definition processFile (file : File) (st : state)
  : list request * (state * completion unit) :=
  match PdfService.convertFileToBase64 (dataUrl file) with
  | Normal base64 =>
      let st := setPdfBase64 base64 st in
      match PdfService.extractTextFromPDF pdfjsLib (pdf file) with
      | Normal ex =>
          let text := PdfService.text ex in
          let isScanned := PdfService.isScanned ex in
          let st := setPdfText text st in
          let st := markScanned text isScanned st in
          let '(issued, identified) :=
            identifyChapters generateContent parseChapters
              (if isScanned then [] else text)
              (if isScanned then base64 else None) in
          match identified with
          | Normal identifiedChapters =>
              if length identifiedChapters =? 0 then
                (issued, (st, Throw (Error "Could not identify chapters. Try a different book.")))
              else
                (issued,
                 (apply [setChapters identifiedChapters; setStep chaptersStep] st,
                  Normal tt))
          | Throw e => (issued, (st, Throw e))
          | OutOfFuel => (issued, (st, OutOfFuel))
          end
      | Throw e => ([], (st, Throw e))
      | OutOfFuel => ([], (st, OutOfFuel))
      end
  | Throw e => ([], (st, Throw e))
  | OutOfFuel => ([], (st, OutOfFuel))
  end.

Definition handleFileSelect (file : File) (st : state) : io state :=
  let st := apply [setLoading true; setError []; setIsScannedMode false] st in
  match processFile file st with
  | (issued, (st', Normal _)) => (issued, Normal (setLoading false st'))
  | (issued, (st', Throw err)) =>
      (issued,
       Normal (apply [ setError (orElse (messageOf err)
                                        (lit "Failed to process the book."));
                       setLoading false ] st'))
  | (issued, (_, OutOfFuel)) => (issued, OutOfFuel)
  end.

Definition handleReset (st : state) : state :=
  apply [ setPdfText []; setPdfBase64 (Some []); setChapters [];
          setSelectedChapter None; setCurrentAnalysis []; setStep upload;
          setError []; setIsScannedMode false ] st.

End Handlers.
End SingleBook.

(* ------------------------------------------------------------------ *)
(** ** The words and the number prefix of a title

    Said with the code units of the title alone, and not with the patterns
    the code reads it with. *)

Module Wording.
Import RegExp.

(** A word: code units that are no white space, one at least. *)
Definition isWord (w : str) : Prop :=
  w <> [] /\ Forall (fun c => JS.isWhiteSpace c = false) w.

(** [worded words body]: [body] is the words in order, with a run of
    white space between one and the next and none before the first or
    after the last. *)
Inductive worded : list str -> str -> Prop :=
| worded_one (w : str) : isWord w -> worded [w] w
| worded_more (w gap : str) (words : list str) (body : str) :
    isWord w -> gap <> [] ->
    Forall (fun c => JS.isWhiteSpace c = true) gap ->
    worded words body ->
    worded (w :: words) (w ++ gap ++ body).

(** What is left of a text once a word is read off its start, in any
    letter case. *)
Fixpoint readWord (w s : str) : option str :=
  match w with
  | [] => Some s
  | c :: w' =>
      match s with
      | d :: s' => if sameChar flag_i c d then readWord w' s' else None
      | [] => None
      end
  end.

Fixpoint dropWhile (f : ascii -> bool) (s : str) : str :=
  match s with
  | c :: r => if f c then dropWhile f r else s
  | [] => []
  end.

(** The prefix of a title that is a keyword, then white space, then
    digits, one at least of each: all the white space and all the digits
    there are. *)
Definition numbered (keyword : string) (title : str) : option str :=
  match readWord (lit keyword) title with
  | Some afterWord =>
      let afterSpace := dropWhile JS.isWhiteSpace afterWord in
      let afterDigits := dropWhile JS.isDigit afterSpace in
      if (length afterSpace <? length afterWord)
         && (length afterDigits <? length afterSpace)
      then Some (firstn (length title - length afterDigits) title)
      else None
  | None => None
  end.

(** The "Chapter N" or "Part N" prefix a title begins with. *)
Definition numberedPrefix (title : str) : option str :=
  match numbered "Chapter" title with
  | Some prefix => Some prefix
  | None => numbered "Part" title
  end.

End Wording.

(* ------------------------------------------------------------------ *)
(** ** More inputs the examples run on *)

Module Samples.

(** A heading as a table of contents gives it, and as the page spells
    it. *)
Definition heading : str := lit " Chapter One ".

Definition spelled : str :=
  lit "CHAPTER" ++ [ascii_of_nat 10; " "%char] ++ lit "one".

(** A remote model that answers every request with the same audio, the
    three bytes 0, 1 and 2. *)
Definition speaking (_ : GeminiService.request) : settled GeminiService.response :=
  Fulfilled {| GeminiService.responseText := None;
               GeminiService.inlineData := Some (lit "AAEC") |}.

(** A book whose one chapter is long enough to be sent as text. *)
Definition longBook : str := lit "One " ++ repeat "x"%char 250.

Definition longReading : App.state :=
  App.setPdfText longBook
    (App.setPdfBase64 (Some (lit "JVBERi0="))
       (App.setChapters [Fixtures.chapterOne]
          (App.setStep chaptersStep App.initial))).

(** A leaflet: one page of sixty code units. *)
Definition leaflet : App.File :=
  {| App.name := lit "leaflet.pdf";
     App.dataUrl := Fulfilled (lit "data:application/pdf;base64,JVBERi0=");
     App.pdf := Fulfilled [Some [repeat "a"%char 60]] |}.

(** A remote model that answers a request with the text of its prompt,
    and a table of contents of two chapters. *)
Definition echoing (r : GeminiService.request) : settled GeminiService.response :=
  Fulfilled {| GeminiService.responseText :=
                 match rev (GeminiService.parts r) with
                 | GeminiService.TextPart prompt :: _ => Some prompt
                 | _ => None
                 end;
               GeminiService.inlineData := None |}.

Definition twoChapters (_ : str) : settled (list Chapter) :=
  Fulfilled [Fixtures.chapterOne; Fixtures.chapterTwo].

(** The page once the scanned book is in the library: the file chosen on
    the first page and the three waits of its upload gone through. *)
Definition shelved : Ui.page :=
  let settled :=
    Ui.settle echoing twoChapters true 3 7 7
      (App.apply [App.setLoading true; App.setError []; App.setIsScannedMode false]
                 App.initial)
      [Ui.Reading Fixtures.scannedFile] in
  {| Ui.view := fst settled; Ui.waiting := snd settled |}.

End Samples.

(* ------------------------------------------------------------------ *)
(** * Properties *)

(* ------------------------------------------------------------------ *)
(** ** Facts about the matcher *)

Module RegExpFacts.
Import RegExp.

Section Progress.
Variable fl : flags.
Variable A : Type.

(** A quantifier hands its continuation a suffix of the input, a proper
    one when it must take a code unit. *)
Lemma rep_progress (f : ascii -> bool) (s : str) :
  forall (min : nat) (max : option nat) (prev : option ascii)
         (k : option ascii -> str -> option A) (res : A),
    rep f min max prev s k = Some res ->
    exists p s', k p s' = Some res /\ length s' <= length s
                 /\ (min <> 0 -> length s' < length s).
Proof.
  induction s as [|c r IH]; intros min max prev k res H; simpl in H.
  - destruct min; [|discriminate].
    exists prev, []. repeat split; auto. intros; congruence.
  - destruct (f c && mayTake max).
    + destruct (rep f (pred min) (dec max) (Some c) r k) eqn:E.
      * inversion H; subst. apply IH in E.
        destruct E as (p & s' & Hk & Hle & _).
        exists p, s'. simpl. repeat split; auto; intros; lia.
      * destruct min; [|discriminate].
        exists prev, (c :: r). repeat split; auto. intros; congruence.
    + destruct min; [|discriminate].
      exists prev, (c :: r). repeat split; auto. intros; congruence.
Qed.

Lemma run_progress (r : re) :
  forall (prev : option ascii) (s : str) (cap : option str)
         (k : cont A) (res : A),
    run fl r prev s cap k = Some res ->
    exists p s' cap', k p s' cap' = Some res /\ length s' <= length s
                      /\ (nullable r = false -> length s' < length s).
Proof.
  induction r as [|c|f|f min max|a IHa b IHb|a IHa b IHb| | |a IHa];
    intros prev s cap k res H; simpl in H.
  - exists prev, s, cap. repeat split; auto. simpl; discriminate.
  - destruct s as [|d s']; [discriminate|].
    destruct (sameChar fl c d); [|discriminate].
    exists (Some d), s', cap. simpl. repeat split; auto.
  - destruct s as [|d s']; [discriminate|].
    destruct (f d); [|discriminate].
    exists (Some d), s', cap. simpl. repeat split; auto.
  - apply rep_progress in H. destruct H as (p & s' & Hk & Hle & Hlt).
    exists p, s', cap. repeat split; auto.
    simpl. intros Hn. apply Hlt. intros ->. discriminate.
  - apply IHa in H. destruct H as (p & s1 & cap1 & Hb & Hle1 & Hlt1).
    apply IHb in Hb. destruct Hb as (q & s2 & cap2 & Hk & Hle2 & Hlt2).
    exists q, s2, cap2. repeat split; auto; [lia|].
    simpl. intros Hn. apply andb_false_iff in Hn.
    destruct Hn as [Hn|Hn]; [apply Hlt1 in Hn|apply Hlt2 in Hn]; lia.
  - simpl. destruct (run fl a prev s cap k) eqn:E.
    + inversion H; subst. apply IHa in E.
      destruct E as (p & s' & cap' & Hk & Hle & Hlt).
      exists p, s', cap'. repeat split; auto.
      intros Hn. apply orb_false_iff in Hn. apply Hlt. tauto.
    + apply IHb in H. destruct H as (p & s' & cap' & Hk & Hle & Hlt).
      exists p, s', cap'. repeat split; auto.
      intros Hn. apply orb_false_iff in Hn. apply Hlt. tauto.
  - destruct (atLineStart fl prev); [|discriminate].
    exists prev, s, cap. repeat split; auto. simpl; discriminate.
  - destruct (atLineEnd fl s); [|discriminate].
    exists prev, s, cap. repeat split; auto. simpl; discriminate.
  - apply IHa in H. destruct H as (p & s' & cap' & Hk & Hle & Hlt).
    eexists p, s', _. repeat split; eauto.
Qed.
End Progress.

(** A match is no longer than the input, and not empty when the term is
    not nullable. *)
Lemma matchAt_bounds (fl : flags) (r : re) (prev : option ascii) (s : str)
      (n : nat) (cap : option str) :
  matchAt fl r prev s = Some (n, cap) ->
  n <= length s /\ (nullable r = false -> 1 <= n).
Proof.
  unfold matchAt. intros H. apply run_progress in H.
  destruct H as (p & s' & cap' & Hk & Hle & Hlt).
  inversion Hk; subst. split; [lia|]. intros Hn. apply Hlt in Hn. lia.
Qed.

Lemma scan_bounds (fl : flags) (r : re) (s : str) :
  forall (prev : option ascii) (i index n : nat),
    scan fl r prev s i = Some (index, n) ->
    i <= index /\ index + n <= i + length s /\ (nullable r = false -> 1 <= n).
Proof.
  induction s as [|c s' IH]; intros prev i index n H; simpl in H.
  - destruct (matchAt fl r prev []) as [[m cap]|] eqn:E; [|discriminate].
    inversion H; subst. apply matchAt_bounds in E. destruct E as [E1 E2].
    simpl in *. repeat split; auto; lia.
  - destruct (matchAt fl r prev (c :: s')) as [[m cap]|] eqn:E.
    + inversion H; subst. apply matchAt_bounds in E. destruct E as [E1 E2].
      simpl in *. repeat split; auto; lia.
    + apply IH in H. destruct H as (H1 & H2 & H3).
      simpl. repeat split; auto; lia.
Qed.

(** [exec] finds its match at or after [lastIndex] and inside the text. *)
Lemma exec_bounds (fl : flags) (r : re) (s : str) (lastIndex index n : nat) :
  exec fl r s lastIndex = Some (index, n) ->
  lastIndex <= index /\ index + n <= length s /\ (nullable r = false -> 1 <= n).
Proof.
  unfold exec. destruct (length s <? lastIndex) eqn:E; [discriminate|].
  apply Nat.ltb_ge in E. intros H. apply scan_bounds in H.
  rewrite length_skipn in H. destruct H as (H1 & H2 & H3).
  repeat split; auto; lia.
Qed.

Lemma prevAt_succ (s : str) (i : nat) (c : ascii) (s' : str) :
  skipn i s = c :: s' -> prevAt s (S i) = Some c /\ skipn (S i) s = s'.
Proof.
  revert s. induction i as [|i IH]; intros s H.
  - simpl in H. subst. auto.
  - destruct s as [|d r]; [discriminate|]. simpl in H.
    destruct (IH _ H) as [Hp Hs]. split; [|exact Hs].
    destruct i; simpl in *; auto.
Qed.

Lemma scan_first (fl : flags) (r : re) (s : str) (rest : str) :
  forall (i index n : nat),
    skipn i s = rest ->
    scan fl r (prevAt s i) rest i = Some (index, n) ->
    (exists cap, matchAt fl r (prevAt s index) (skipn index s) = Some (n, cap))
    /\ forall j, i <= j < index -> matchesAt fl r s j = false.
Proof.
  induction rest as [|c rest' IH]; intros i index n Hs H; simpl in H.
  - destruct (matchAt fl r (prevAt s i) []) as [[m cap]|] eqn:E; [|discriminate].
    inversion H; subst. rewrite Hs. split; [eauto|]. intros; lia.
  - destruct (matchAt fl r (prevAt s i) (c :: rest')) as [[m cap]|] eqn:E.
    + inversion H; subst. rewrite Hs. split; [eauto|]. intros; lia.
    + destruct (prevAt_succ Hs) as [Hp Hs'].
      rewrite <- Hp in H. apply IH in H; [|exact Hs'].
      destruct H as [Hm Hnone]. split; [exact Hm|].
      intros j Hj. destruct (Nat.eq_dec j i) as [->|Hne].
      * unfold matchesAt. rewrite Hs, E. reflexivity.
      * apply Hnone. lia.
Qed.

(** [exec] returns the first index from [lastIndex] on where the term
    matches, with the length of the match there. *)
Lemma exec_first (fl : flags) (r : re) (s : str) (lastIndex index n : nat) :
  exec fl r s lastIndex = Some (index, n) ->
  (exists cap, matchAt fl r (prevAt s index) (skipn index s) = Some (n, cap))
  /\ forall j, lastIndex <= j < index -> matchesAt fl r s j = false.
Proof.
  unfold exec. destruct (length s <? lastIndex); [discriminate|].
  apply scan_first. reflexivity.
Qed.

Lemma scan_none (fl : flags) (r : re) (s : str) (rest : str) :
  forall (i : nat),
    skipn i s = rest ->
    scan fl r (prevAt s i) rest i = None ->
    forall j, i <= j <= length s -> matchesAt fl r s j = false.
Proof.
  induction rest as [|c rest' IH]; intros i Hs H j Hj; simpl in H.
  - destruct (matchAt fl r (prevAt s i) []) as [[m cap]|] eqn:E; [discriminate|].
    assert (length s <= i).
    { destruct (Nat.le_gt_cases (length s) i); auto.
      pose proof (length_skipn i s) as L. rewrite Hs in L. simpl in L. lia. }
    assert (j = i) by lia. subst j. unfold matchesAt. rewrite Hs, E. reflexivity.
  - destruct (matchAt fl r (prevAt s i) (c :: rest')) as [[m cap]|] eqn:E;
      [discriminate|].
    destruct (prevAt_succ Hs) as [Hp Hs'].
    rewrite <- Hp in H.
    destruct (Nat.eq_dec j i) as [->|Hne].
    + unfold matchesAt. rewrite Hs, E. reflexivity.
    + apply (IH _ Hs' H). lia.
Qed.

(** [exec] returns [null] from index 0 only when the term matches nowhere. *)
Lemma exec_none (fl : flags) (r : re) (s : str) :
  exec fl r s 0 = None ->
  forall j, j <= length s -> matchesAt fl r s j = false.
Proof.
  unfold exec. simpl. intros H j Hj.
  apply (@scan_none fl r s s 0 eq_refl H). lia.
Qed.

End RegExpFacts.

Module PatternFacts.
Import RegExp PdfService RegExpFacts.

Lemma matchAt_class (fl : flags) (f : ascii -> bool) (prev : option ascii)
      (c : ascii) (s : str) :
  matchAt fl (Class f) prev (c :: s) = if f c then Some (1, None) else None.
Proof.
  unfold matchAt. cbn [run]. destruct (f c); [|reflexivity].
  replace (length (c :: s) - length s) with 1 by (cbn [length]; lia).
  reflexivity.
Qed.

(** Replacing the code units of a class one by one. *)
Lemma replaceFrom_class (f : ascii -> bool) (g : str -> option str -> str)
      (s : str) :
  forall prev,
    replaceFrom noFlags (Class f) g prev s 0
    = flat_map (fun c => if f c then g [c] None else [c]) s.
Proof.
  induction s as [|c s IH]; intros prev.
  - reflexivity.
  - cbn [replaceFrom flat_map]. rewrite matchAt_class.
    destruct (f c); cbn [firstn]; rewrite IH; reflexivity.
Qed.

Lemma escapeRegExp_spec (s : str) : escapeRegExp s = flat_map escapeChar s.
Proof.
  unfold escapeRegExp, replaceAll. rewrite replaceFrom_class. reflexivity.
Qed.

Lemma splitOn_nonempty (sep : ascii) (s : str) :
  forall cur, JS.splitOn sep cur s <> [].
Proof.
  induction s as [|c s IH]; intros cur; simpl; [discriminate|].
  destruct (Ascii.eqb c sep); [discriminate|apply IH].
Qed.

Lemma join_splitOn (sep : ascii) (by_ : str) (s : str) :
  forall cur,
    JS.join (JS.splitOn sep cur s) by_
    = cur ++ flat_map (fun c => if Ascii.eqb c sep then by_ else [c]) s.
Proof.
  induction s as [|c s IH]; intros cur; cbn [JS.splitOn flat_map].
  - simpl. now rewrite app_nil_r.
  - destruct (Ascii.eqb c sep).
    + pose proof (IH []) as H. pose proof (@splitOn_nonempty sep s []) as N.
      destruct (JS.splitOn sep [] s) as [|p rest]; [congruence|].
      change (JS.join (cur :: p :: rest) by_)
        with (cur ++ by_ ++ JS.join (p :: rest) by_).
      rewrite H. reflexivity.
    + rewrite IH, <- app_assoc. reflexivity.
Qed.

Lemma createFlexiblePattern_spec (text : str) :
  createFlexiblePattern text = flat_map patternChar (cleanText text).
Proof.
  unfold createFlexiblePattern, JS.split. rewrite join_splitOn, escapeRegExp_spec.
  simpl. induction (cleanText text) as [|c s IH]; [reflexivity|].
  simpl. rewrite flat_map_app, IH. f_equal.
  unfold escapeChar, patternChar.
  destruct (isSyntaxChar c) eqn:E.
  - simpl. destruct (Ascii.eqb c " ") eqn:E'.
    + apply Ascii.eqb_eq in E'. subst. discriminate.
    + reflexivity.
  - simpl. rewrite app_nil_r. reflexivity.
Qed.

Lemma isSyntaxChar_backslash : isSyntaxChar backslash = true.
Proof. reflexivity. Qed.

Lemma parsePattern_spec (s : str) :
  parsePattern (flat_map patternChar s) = Some (map atomOf s).
Proof.
  induction s as [|c s IH]; [reflexivity|].
  cbn [flat_map map]. unfold patternChar at 1, atomOf at 1.
  destruct (isSyntaxChar c) eqn:E.
  - cbn [app parsePattern]. rewrite Ascii.eqb_refl, E, IH.
    destruct (Ascii.eqb c " ") eqn:E'.
    + apply Ascii.eqb_eq in E'. subst. discriminate.
    + reflexivity.
  - destruct (Ascii.eqb c " ") eqn:E'.
    + unfold spacesSource. cbn [lit list_ascii_of_string app parsePattern].
      rewrite Ascii.eqb_refl. cbn [isSyntaxChar]. 
      change (isSyntaxChar "s") with false. cbn iota.
      rewrite !Ascii.eqb_refl. cbn [andb]. rewrite IH. reflexivity.
    + cbn [app parsePattern].
      destruct (Ascii.eqb c backslash) eqn:B.
      * apply Ascii.eqb_eq in B. subst. discriminate.
      * rewrite E, IH. reflexivity.
Qed.

(** The constructor accepts every pattern [createFlexiblePattern] writes,
    and builds the regular expression of the title. *)
Lemma newRegExp_flexible (text : str) :
  newRegExp (createFlexiblePattern text) = Normal (flexibleRegex text).
Proof.
  unfold newRegExp. rewrite createFlexiblePattern_spec, parsePattern_spec.
  reflexivity.
Qed.

Lemma nullable_atomOf (c : ascii) : nullable (atomOf c) = false.
Proof. unfold atomOf. destruct (Ascii.eqb c " "); reflexivity. Qed.

Lemma nullable_seqOf_atoms (s : str) :
  nullable (seqOf (map atomOf s)) = match s with [] => true | _ => false end.
Proof.
  destruct s as [|c s]; [reflexivity|]. simpl. now rewrite nullable_atomOf.
Qed.

Lemma cleanText_blank (text : str) : JS.trim text = [] -> cleanText text = [].
Proof. unfold cleanText. intros ->. reflexivity. Qed.

Lemma cleanText_not_blank (text : str) : JS.trim text <> [] -> cleanText text <> [].
Proof.
  unfold cleanText, replaceAll. destruct (JS.trim text) as [|c s]; [congruence|].
  intros _. cbn [replaceFrom].
  destruct (matchAt noFlags (plus JS.isWhiteSpace) None (c :: s)) as [[n cap]|];
    discriminate.
Qed.

(** The regular expression of a blank title is the empty one; any other
    cannot match the empty string. *)
Lemma flexibleRegex_blank (text : str) :
  JS.trim text = [] -> flexibleRegex text = Eps.
Proof. unfold flexibleRegex. intros H. now rewrite cleanText_blank. Qed.

Lemma flexibleRegex_not_nullable (text : str) :
  JS.trim text <> [] -> nullable (flexibleRegex text) = false.
Proof.
  intros H. unfold flexibleRegex. rewrite nullable_seqOf_atoms.
  apply cleanText_not_blank in H. destruct (cleanText text); congruence.
Qed.

(** The loop that collects the matches ends when every match moves
    [lastIndex] on. *)
Lemma collectMatches_terminates (regex : re) (fullText : str) :
  nullable regex = false ->
  forall fuel lastIndex matches,
    length fullText - lastIndex < fuel ->
    exists l, collectMatches fuel regex fullText lastIndex matches = Normal l.
Proof.
  intros Hn. induction fuel as [|fuel IH]; intros lastIndex matches Hlen.
  - lia.
  - simpl. destruct (exec flag_i regex fullText lastIndex) as [[index n]|] eqn:E.
    + apply exec_bounds in E. destruct E as (H1 & H2 & H3).
      apply IH. specialize (H3 Hn). lia.
    + eauto.
Qed.

(** More fuel does not change what the loop returns. *)
Lemma collectMatches_fuel (regex : re) (fullText : str) :
  forall fuel fuel' lastIndex matches l,
    collectMatches fuel regex fullText lastIndex matches = Normal l ->
    fuel <= fuel' ->
    collectMatches fuel' regex fullText lastIndex matches = Normal l.
Proof.
  induction fuel as [|fuel IH]; intros fuel' lastIndex matches l H Hle;
    [discriminate|].
  destruct fuel' as [|fuel']; [lia|]. simpl in *.
  destruct (exec flag_i regex fullText lastIndex) as [[index n]|]; auto.
  apply IH with (fuel' := fuel') in H; auto. lia.
Qed.

Lemma exec_Eps (fullText : str) (lastIndex : nat) :
  lastIndex <= length fullText ->
  exec flag_i Eps fullText lastIndex = Some (lastIndex, 0).
Proof.
  intros H. unfold exec. apply Nat.ltb_ge in H. rewrite H.
  destruct (skipn lastIndex fullText); cbn [scan]; unfold matchAt; cbn [run];
    now rewrite Nat.sub_diag.
Qed.

(** On the empty regular expression the loop never ends: each [exec]
    matches the empty string where the last one did. *)
Lemma collectMatches_Eps (fullText : str) :
  forall fuel matches, collectMatches fuel Eps fullText 0 matches = OutOfFuel.
Proof.
  induction fuel as [|fuel IH]; intros matches; [reflexivity|].
  cbn [collectMatches]. rewrite exec_Eps by lia. apply IH.
Qed.

End PatternFacts.

Module PdfServiceFacts.
Import RegExp PdfService RegExpFacts PatternFacts.

Lemma collectMatches_extends (regex : re) (fullText : str) :
  forall fuel lastIndex matches l,
    collectMatches fuel regex fullText lastIndex matches = Normal l ->
    exists more, l = matches ++ more.
Proof.
  induction fuel as [|fuel IH]; intros lastIndex matches l H; [discriminate|].
  simpl in H. destruct (exec flag_i regex fullText lastIndex) as [[index n]|].
  - apply IH in H. destruct H as [more ->]. rewrite <- app_assoc. eauto.
  - inversion H; subst. exists []. now rewrite app_nil_r.
Qed.

(** With enough fuel the loop and the heuristic select the occurrence
    [selectOccurrence] describes. *)
Lemma collectMatches_select (regex : re) (fullText : str) (fuel : nat) :
  nullable regex = false ->
  length fullText < fuel ->
  exists matches,
    collectMatches fuel regex fullText 0 [] = Normal matches
    /\ pickStart matches (length fullText) = selectOccurrence regex fullText.
Proof.
  intros Hn Hfuel. unfold selectOccurrence.
  destruct fuel as [|fuel]; [lia|]. cbn [collectMatches].
  destruct (exec flag_i regex fullText 0) as [[m0 n0]|] eqn:E0.
  - pose proof (exec_bounds E0) as (_ & B0 & P0). specialize (P0 Hn).
    destruct fuel as [|fuel]; [lia|]. cbn [collectMatches app].
    destruct (exec flag_i regex fullText (m0 + n0)) as [[m1 n1]|] eqn:E1.
    + pose proof (exec_bounds E1) as (L1 & B1 & P1). specialize (P1 Hn).
      destruct (@collectMatches_terminates regex fullText Hn fuel (m1 + n1)
                  ([m0] ++ [m1])) as [l Hl]; [lia|].
      exists l. split; [exact Hl|].
      apply collectMatches_extends in Hl. destruct Hl as [more ->].
      reflexivity.
    + exists [m0]. split; reflexivity.
  - exists []. split; reflexivity.
Qed.

Lemma findEndIndex_spec (fullText chapterTitle next : str) (startIndex : nat) :
  next <> [] ->
  findEndIndex fullText chapterTitle (Some next) startIndex
  = Normal
      (let offset := searchOffset startIndex chapterTitle in
       match execIndex flag_i (flexibleRegex next) (JS.sliceFrom fullText offset) with
       | Some index => offset + index
       | None => length fullText
       end).
Proof.
  intros H. unfold findEndIndex. destruct next as [|c next]; [congruence|].
  cbn [JS.truthy]. rewrite newRegExp_flexible. cbn [bindC].
  destruct (execIndex _ _ _); reflexivity.
Qed.

Lemma findEndIndex_total (fullText chapterTitle : str) (next : option str)
      (startIndex : nat) :
  exists endIndex,
    findEndIndex fullText chapterTitle next startIndex = Normal endIndex.
Proof.
  destruct next as [[|c next]|]; try (eexists; reflexivity).
  rewrite findEndIndex_spec by discriminate. eauto.
Qed.

(** The first tier: a title that is not blank and occurs in the text. *)
Lemma findStartIndex_tier1 (fuel : nat) (fullText chapterTitle : str) (start : nat) :
  JS.trim chapterTitle <> [] ->
  length fullText < fuel ->
  selectOccurrence (flexibleRegex chapterTitle) fullText = Some start ->
  findStartIndex fuel fullText chapterTitle = Normal (Some start).
Proof.
  intros Hb Hfuel Hsel. unfold findStartIndex.
  rewrite newRegExp_flexible. cbn [bindC].
  destruct (@collectMatches_select (flexibleRegex chapterTitle) fullText fuel)
    as (matches & Hc & Hp); auto using flexibleRegex_not_nullable.
  rewrite Hc. cbn [bindC]. rewrite Hp, Hsel. reflexivity.
Qed.

Lemma findChapterText_blank (fuel : nat) (fullText chapterTitle : str)
      (next : option str) :
  JS.trim chapterTitle = [] ->
  findChapterText fuel fullText chapterTitle next = OutOfFuel.
Proof.
  intros H. unfold findChapterText, findStartIndex.
  rewrite newRegExp_flexible, flexibleRegex_blank by exact H.
  cbn [bindC]. rewrite collectMatches_Eps. reflexivity.
Qed.

Lemma firstn_min_length {A : Type} (l : list A) (n : nat) :
  firstn (Nat.min (length l) n) l = firstn n l.
Proof.
  destruct (Nat.le_gt_cases n (length l)).
  - now rewrite Nat.min_r.
  - rewrite Nat.min_l by lia. rewrite !firstn_all2 by lia. reflexivity.
Qed.

Lemma partialTitleStart_spec (fullText chapterTitle : str) :
  partialTitleStart fullText chapterTitle
  = Normal
      (let words := titleWords chapterTitle in
       if 3 <? length words
       then execIndex flag_i (flexibleRegex (JS.join (firstn 8 words) (lit " "))) fullText
       else None).
Proof.
  unfold partialTitleStart. cbv zeta.
  destruct (3 <? length (titleWords chapterTitle)); [|reflexivity].
  rewrite newRegExp_flexible, firstn_min_length. reflexivity.
Qed.

End PdfServiceFacts.

Module NumberPrefixFacts.
Import RegExp PdfService RegExpFacts PatternFacts PdfServiceFacts.

Lemma trimStart_keeps_last (d : ascii) (l : str) :
  JS.isWhiteSpace d = false -> JS.trimStart (l ++ [d]) <> [].
Proof.
  intros H. induction l as [|c l IH]; simpl.
  - rewrite H. discriminate.
  - destruct (JS.isWhiteSpace c); [exact IH|discriminate].
Qed.

(** A string that begins with a code unit that is not white space is not
    blank. *)
Lemma trim_not_blank (d : ascii) (s : str) :
  JS.isWhiteSpace d = false -> JS.trim (d :: s) <> [].
Proof.
  intros H. unfold JS.trim, JS.trimEnd. cbn [JS.trimStart]. rewrite H.
  cbn [rev]. intros E.
  apply (f_equal (@rev ascii)) in E. rewrite rev_involutive in E.
  now apply (@trimStart_keeps_last d (rev s)).
Qed.

Lemma initial_not_space (d : ascii) :
  sameChar flag_i "C" d = true \/ sameChar flag_i "P" d = true ->
  JS.isWhiteSpace d = false.
Proof.
  destruct d as [b0 b1 b2 b3 b4 b5 b6 b7].
  destruct b0, b1, b2, b3, b4, b5, b6, b7; vm_compute;
    intros [H|H]; (reflexivity || discriminate).
Qed.

Lemma numberPrefix_initial (d : ascii) (s : str) (n : nat) (cap : option str) :
  matchAt flag_i numberPrefix None (d :: s) = Some (n, cap) ->
  sameChar flag_i "C" d = true \/ sameChar flag_i "P" d = true.
Proof.
  unfold matchAt, numberPrefix, word, seqOf.
  cbn [run lit list_ascii_of_string map fold_right atLineStart].
  destruct (sameChar flag_i "C" d); [auto|].
  destruct (sameChar flag_i "P" d); [auto|discriminate].
Qed.

Lemma numberPrefix_needs_start (s : str) :
  forall (c : ascii) (i : nat), scan flag_i numberPrefix (Some c) s i = None.
Proof.
  induction s as [|d s IH]; intros c i; cbn [scan].
  - reflexivity.
  - unfold matchAt, numberPrefix at 1. cbn [run]. cbn. apply IH.
Qed.

(** The prefix [numberMatch] returns is not blank. *)
Lemma numberMatch_not_blank (chapterTitle prefix : str) :
  numberMatch chapterTitle = Some prefix -> JS.trim prefix <> [].
Proof.
  unfold numberMatch, exec. cbn [length Nat.ltb Nat.leb prevAt skipn].
  destruct chapterTitle as [|d s]; [discriminate|].
  cbn [scan].
  destruct (matchAt flag_i numberPrefix None (d :: s)) as [[n cap]|] eqn:E.
  - intros H. inversion H; subst; clear H.
    pose proof (numberPrefix_initial E) as Hd.
    apply matchAt_bounds in E. destruct E as [_ Hn].
    specialize (Hn eq_refl).
    destruct n as [|n]; [lia|].
    unfold JS.slice. cbn [skipn Nat.add Nat.sub firstn].
    apply trim_not_blank, initial_not_space, Hd.
  - rewrite numberPrefix_needs_start. discriminate.
Qed.

Lemma numberStart_spec (fuel : nat) (fullText chapterTitle : str) :
  length fullText < fuel ->
  numberStart fuel fullText chapterTitle
  = Normal match numberMatch chapterTitle with
           | Some prefix => selectOccurrence (flexibleRegex prefix) fullText
           | None => None
           end.
Proof.
  intros Hfuel. unfold numberStart.
  destruct (numberMatch chapterTitle) as [prefix|] eqn:E; [|reflexivity].
  rewrite newRegExp_flexible. cbn [bindC].
  apply numberMatch_not_blank in E.
  destruct (@collectMatches_select (flexibleRegex prefix) fullText fuel)
    as (matches & Hc & Hp); auto using flexibleRegex_not_nullable.
  rewrite Hc. cbn [bindC]. now rewrite Hp.
Qed.

End NumberPrefixFacts.

Module SpanStart.
Import RegExp PdfService RegExpFacts PatternFacts PdfServiceFacts NumberPrefixFacts.

Lemma canonicalize_space (c : ascii) :
  JS.isWhiteSpace (JS.canonicalize c) = JS.isWhiteSpace c.
Proof.
  destruct c as [b0 b1 b2 b3 b4 b5 b6 b7].
  destruct b0, b1, b2, b3, b4, b5, b6, b7; reflexivity.
Qed.

(** Code units that match each other without regard to case are both
    white space or both not. *)
Lemma sameChar_space (c d : ascii) :
  sameChar flag_i c d = true -> JS.isWhiteSpace d = JS.isWhiteSpace c.
Proof.
  unfold sameChar. cbn [ignoreCase flag_i]. intros H.
  apply Ascii.eqb_eq in H.
  now rewrite <- (canonicalize_space c), <- (canonicalize_space d), H.
Qed.

Lemma trimStart_head (s : str) (c : ascii) (r : str) :
  JS.trimStart s = c :: r -> JS.isWhiteSpace c = false.
Proof.
  induction s as [|x s IH]; simpl; [discriminate|].
  destruct (JS.isWhiteSpace x) eqn:E; [exact IH|].
  intros H. inversion H; subst. exact E.
Qed.

Lemma trimStart_last (d : ascii) (l : str) :
  JS.isWhiteSpace d = false -> exists l', JS.trimStart (l ++ [d]) = l' ++ [d].
Proof.
  intros H. induction l as [|c l IH]; simpl.
  - rewrite H. now exists [].
  - destruct (JS.isWhiteSpace c); [exact IH|]. now exists (c :: l).
Qed.

(** Trimming keeps a first code unit that is not white space. *)
Lemma trim_keeps_head (d : ascii) (s : str) :
  JS.isWhiteSpace d = false -> exists r, JS.trim (d :: s) = d :: r.
Proof.
  intros H. unfold JS.trim, JS.trimEnd. cbn [JS.trimStart]. rewrite H.
  cbn [rev]. destruct (@trimStart_last d (rev s) H) as [l' ->].
  rewrite rev_app_distr. cbn. eauto.
Qed.

Lemma trim_head (s : str) (c : ascii) (r : str) :
  JS.trim s = c :: r -> JS.isWhiteSpace c = false.
Proof.
  unfold JS.trim. destruct (JS.trimStart s) as [|d t] eqn:E.
  - discriminate.
  - pose proof (trimStart_head E) as Hd.
    destruct (@trim_keeps_head d t Hd) as [r' Hr].
    unfold JS.trim in Hr. cbn [JS.trimStart] in Hr. rewrite Hd in Hr.
    rewrite Hr. intros H. inversion H; subst. exact Hd.
Qed.

Lemma cleanText_head (text : str) :
  JS.trim text <> [] ->
  exists c rest, cleanText text = c :: rest /\ JS.isWhiteSpace c = false.
Proof.
  unfold cleanText, replaceAll. destruct (JS.trim text) as [|c s] eqn:E;
    [congruence|].
  intros _. pose proof (trim_head E) as Hc.
  cbn [replaceFrom]. unfold matchAt, plus. cbn [run rep]. rewrite Hc.
  cbn [andb]. eauto.
Qed.

Lemma matchAt_Lit_head (fl : flags) (c : ascii) (r : re) (prev : option ascii)
      (s : str) (n : nat) (cap : option str) :
  matchAt fl (Cat (Lit c) r) prev s = Some (n, cap) ->
  exists d s', s = d :: s' /\ sameChar fl c d = true.
Proof.
  unfold matchAt. cbn [run]. destruct s as [|d s']; [discriminate|].
  destruct (sameChar fl c d) eqn:E; [|discriminate].
  intros _. exists d, s'. split; [reflexivity|exact E].
Qed.

(** Where the pattern of a title that is not blank matches, the text holds
    a code unit that is not white space. *)
Lemma flexible_match_head (chapterTitle fullText : str)
      (lastIndex index n : nat) :
  JS.trim chapterTitle <> [] ->
  exec flag_i (flexibleRegex chapterTitle) fullText lastIndex = Some (index, n) ->
  exists d s', skipn index fullText = d :: s' /\ JS.isWhiteSpace d = false.
Proof.
  intros Hb He. apply exec_first in He. destruct He as [[cap Hm] _].
  destruct (cleanText_head Hb) as (c & rest & Hc & Hs).
  unfold flexibleRegex in Hm. rewrite Hc in Hm. cbn [map seqOf fold_right] in Hm.
  unfold atomOf at 1 in Hm.
  destruct (Ascii.eqb c " ") eqn:E.
  - apply Ascii.eqb_eq in E. subst c. discriminate.
  - apply matchAt_Lit_head in Hm. destruct Hm as (d & s' & Hk & Hsame).
    exists d, s'. split; [exact Hk|]. now rewrite (sameChar_space Hsame).
Qed.

Lemma capExtracted_head (d : ascii) (x : str) :
  exists y, capExtracted (d :: x) = d :: y.
Proof.
  unfold capExtracted. destruct (_ <? _)%N; [|eauto].
  unfold JS.slice. cbn [skipn]. rewrite Nat.sub_0_r.
  assert (H : N.to_nat CHAR_LIMIT <> 0) by (unfold CHAR_LIMIT; lia).
  destruct (N.to_nat CHAR_LIMIT); [congruence|]. cbn [firstn app]. eauto.
Qed.

(** The text returned for a span that begins, before its end, on a code
    unit that is not white space begins with that code unit. *)
Lemma returned_text_head (fullText : str) (startIndex endIndex : nat)
      (d : ascii) (s' : str) :
  skipn startIndex fullText = d :: s' ->
  JS.isWhiteSpace d = false ->
  startIndex < endIndex ->
  exists rest,
    JS.trim (capExtracted (JS.slice fullText startIndex endIndex)) = d :: rest
    /\ nth_error fullText startIndex = Some d.
Proof.
  intros Hk Hd Hlt. unfold JS.slice. rewrite Hk.
  destruct (endIndex - startIndex) as [|k] eqn:E; [lia|]. cbn [firstn].
  destruct (capExtracted_head d (firstn k s')) as [y ->].
  destruct (@trim_keeps_head d y Hd) as [r ->].
  exists r. split; [reflexivity|].
  rewrite <- (Nat.add_0_r startIndex), <- nth_error_skipn, Hk. reflexivity.
Qed.

Lemma findEndIndex_after_start (fullText chapterTitle : str)
      (next : option str) (startIndex endIndex : nat) :
  chapterTitle <> [] ->
  startIndex < length fullText ->
  findEndIndex fullText chapterTitle next startIndex = Normal endIndex ->
  startIndex < endIndex.
Proof.
  intros Ht Hs. destruct next as [[|c next]|].
  - cbn. intros H. inversion H. lia.
  - rewrite findEndIndex_spec by discriminate. cbv zeta. unfold searchOffset.
    assert (Hpos : 0 < length chapterTitle)
      by (destruct chapterTitle; [congruence|cbn; lia]).
    destruct (execIndex _ _ _); intros H; inversion H; lia.
  - cbn. intros H. inversion H. lia.
Qed.

End SpanStart.

Module ChapterLocator.
Import RegExp PdfService RegExpFacts PatternFacts PdfServiceFacts NumberPrefixFacts.
Import SpanStart.

Lemma slice_nth (s : str) (from to i : nat) :
  i < length (JS.slice s from to) ->
  nth_error (JS.slice s from to) i = nth_error s (from + i) /\ from + i < to.
Proof.
  unfold JS.slice. rewrite length_firstn, length_skipn. intros H.
  rewrite nth_error_firstn.
  assert (E : (i <? to - from) = true) by (apply Nat.ltb_lt; lia).
  rewrite E, nth_error_skipn. split; [reflexivity|lia].
Qed.

Lemma slice_to_end (s : str) (from : nat) :
  JS.slice s from (length s) = skipn from s.
Proof.
  unfold JS.slice. apply firstn_all2. rewrite length_skipn. lia.
Qed.

(** C1, the failing input.  On a blank chapter title the pattern is
    empty: it matches at every index of any text, so it occurs, first at
    index 0; each [exec] of the loop that collects the matches returns that
    match again without moving [lastIndex], and whatever the fuel
    [findChapterText] has not returned. *)
Theorem findChapterText_blank_title_never_returns :
  forall (fuel : nat) (fullText : str) (next : option str),
    findChapterText fuel fullText (lit " ") next = OutOfFuel
    /\ findChapterText fuel fullText [] next = OutOfFuel
    /\ exec flag_i (flexibleRegex (lit " ")) fullText 0 = Some (0, 0)
    /\ exec flag_i (flexibleRegex (lit " ")) fullText (0 + 0) = Some (0, 0)
    /\ forall i, i <= length fullText ->
                 matchesAt flag_i (flexibleRegex (lit " ")) fullText i = true.
Proof.
  intros fuel fullText next.
  split; [apply findChapterText_blank; reflexivity|].
  split; [apply findChapterText_blank; reflexivity|].
  rewrite flexibleRegex_blank by reflexivity.
  split; [apply exec_Eps; lia|]. split; [apply exec_Eps; lia|].
  intros i _. reflexivity.
Qed.

(** The 5% test on natural numbers is the comparison of the index with the
    twentieth of the length. *)
Lemma inFirstFivePercent_spec (index len : nat) :
  inFirstFivePercent index len = true
  <-> (inject_Z (Z.of_nat index) < inject_Z (Z.of_nat len) * (5 # 100))%Q.
Proof.
  unfold inFirstFivePercent, Qlt. simpl. rewrite Nat.ltb_lt. lia.
Qed.

(** A title that is not blank never makes the locator loop or throw:
    with fuel beyond the length of the text it returns, a text or
    [null]. *)
Theorem findChapterText_returns :
  forall (fuel : nat) (fullText chapterTitle : str) (next : option str),
    JS.trim chapterTitle <> [] ->
    length fullText < fuel ->
    exists result,
      findChapterText fuel fullText chapterTitle next = Normal result.
Proof.
  intros fuel fullText chapterTitle next Hb Hfuel.
  assert (Hs : exists start,
             findStartIndex fuel fullText chapterTitle = Normal start).
  { unfold findStartIndex. rewrite newRegExp_flexible. cbn [bindC].
    destruct (@collectMatches_select (flexibleRegex chapterTitle) fullText fuel)
      as (matches & Hc & _); auto using flexibleRegex_not_nullable.
    rewrite Hc. cbn [bindC].
    destruct (pickStart matches (length fullText)); [eauto|].
    rewrite partialTitleStart_spec. cbn [bindC].
    match goal with |- context [match ?p with Some _ => _ | None => _ end] =>
      destruct p end; [eauto|].
    rewrite numberStart_spec by exact Hfuel. eauto. }
  destruct Hs as [start Hs]. unfold findChapterText. rewrite Hs. cbn [bindC].
  destruct start as [startIndex|]; [|eauto].
  destruct (findEndIndex_total fullText chapterTitle next startIndex) as [e He].
  rewrite He. cbn [bindC]. eauto.
Qed.

(** The first tier on a title that is not blank: given fuel beyond the
    length of the text, when the title's pattern occurs (first at [m0], with
    length [n0]), the returned text is the trimmed, capped slice that starts
    at the next occurrence after it if there is one and [m0] lies in the
    first 5% of the text, and at [m0] otherwise; its first code unit is the
    one the text holds at that start. *)
Theorem findChapterText_start :
  forall (fuel : nat) (fullText chapterTitle : str) (next : option str)
         (m0 n0 : nat),
    JS.trim chapterTitle <> [] ->
    length fullText < fuel ->
    exec flag_i (flexibleRegex chapterTitle) fullText 0 = Some (m0, n0) ->
    let startIndex :=
      match exec flag_i (flexibleRegex chapterTitle) fullText (m0 + n0) with
      | Some (m1, _) =>
          if inFirstFivePercent m0 (length fullText) then m1 else m0
      | None => m0
      end in
    findStartIndex fuel fullText chapterTitle = Normal (Some startIndex)
    /\ exists endIndex d rest,
        findEndIndex fullText chapterTitle next startIndex = Normal endIndex
        /\ startIndex < endIndex
        /\ findChapterText fuel fullText chapterTitle next
           = Normal (Some (JS.trim (capExtracted (JS.slice fullText startIndex endIndex))))
        /\ JS.trim (capExtracted (JS.slice fullText startIndex endIndex)) = d :: rest
        /\ nth_error fullText startIndex = Some d.
Proof.
  intros fuel fullText chapterTitle next m0 n0 Hb Hfuel E0 startIndex.
  assert (Hs : findStartIndex fuel fullText chapterTitle = Normal (Some startIndex)).
  { apply findStartIndex_tier1; auto. unfold selectOccurrence. rewrite E0.
    subst startIndex.
    destruct (exec flag_i (flexibleRegex chapterTitle) fullText (m0 + n0))
      as [[m1 n1]|]; [|reflexivity].
    destruct (inFirstFivePercent m0 (length fullText)); reflexivity. }
  split; [exact Hs|].
  assert (Hh : exists d s', skipn startIndex fullText = d :: s'
                            /\ JS.isWhiteSpace d = false).
  { subst startIndex.
    destruct (exec flag_i (flexibleRegex chapterTitle) fullText (m0 + n0))
      as [[m1 n1]|] eqn:E1.
    - destruct (inFirstFivePercent m0 (length fullText)).
      + exact (flexible_match_head Hb E1).
      + exact (flexible_match_head Hb E0).
    - exact (flexible_match_head Hb E0). }
  destruct Hh as (d & s' & Hk & Hd).
  destruct (findEndIndex_total fullText chapterTitle next startIndex) as [e He].
  assert (Hlen : startIndex < length fullText).
  { destruct (Nat.lt_ge_cases startIndex (length fullText)) as [H|H]; [exact H|].
    rewrite skipn_all2 in Hk by exact H. discriminate. }
  assert (Ht : chapterTitle <> []) by (intros ->; apply Hb; reflexivity).
  pose proof (findEndIndex_after_start Ht Hlen He) as Hlt.
  destruct (returned_text_head Hk Hd Hlt) as (rest & Hr & Hn).
  exists e, d, rest. split; [exact He|]. split; [exact Hlt|].
  split; [|split; [exact Hr|exact Hn]].
  unfold findChapterText. rewrite Hs. cbn [bindC]. rewrite He. reflexivity.
Qed.

(** C2.  Once a start is detected and a next title is supplied (a string
    that is not empty), the next title is searched from
    [startIndex + min(chapterTitle.length, 50)] on, first match only; the
    slice returned (trimmed and capped) runs from the start to the index of
    that match, or to the end of the text when there is none, and each of
    its code units is the one of the text at an index below the end. *)
Theorem findChapterText_end_boundary :
  forall (fuel : nat) (fullText chapterTitle nextChapterTitle : str)
         (startIndex : nat),
    findStartIndex fuel fullText chapterTitle = Normal (Some startIndex) ->
    nextChapterTitle <> [] ->
    let offset := startIndex + Nat.min (length chapterTitle) 50 in
    let found :=
      execIndex flag_i (flexibleRegex nextChapterTitle)
                (JS.sliceFrom fullText offset) in
    let endIndex :=
      match found with
      | Some index => offset + index
      | None => length fullText
      end in
    let extracted := JS.slice fullText startIndex endIndex in
    findChapterText fuel fullText chapterTitle (Some nextChapterTitle)
    = Normal (Some (JS.trim (capExtracted extracted)))
    /\ (forall i, i < length extracted ->
                  nth_error extracted i = nth_error fullText (startIndex + i)
                  /\ startIndex + i < endIndex)
    /\ (found = None -> extracted = skipn startIndex fullText).
Proof.
  intros fuel fullText chapterTitle nextChapterTitle startIndex Hs Hn
         offset found endIndex extracted.
  repeat split.
  - unfold findChapterText. rewrite Hs. cbn [bindC].
    rewrite findEndIndex_spec by exact Hn. reflexivity.
  - apply slice_nth in H. tauto.
  - apply slice_nth in H. tauto.
  - intros E. subst extracted endIndex. rewrite E. apply slice_to_end.
Qed.

(** The tiers after the first, on the pieces the code splits the title
    into: when the exact title's pattern occurs nowhere in the text, the
    start is the first match of the pattern of the first eight pieces when
    there are more than three; failing that, the occurrence the
    table-of-contents rule selects for the prefix the number pattern
    finds; and with no start the result is [null]. *)
Lemma findStartIndex_tiers :
  forall (fuel : nat) (fullText chapterTitle : str) (next : option str),
    length fullText < fuel ->
    exec flag_i (flexibleRegex chapterTitle) fullText 0 = None ->
    let words := titleWords chapterTitle in
    let partial :=
      if 3 <? length words
      then execIndex flag_i
             (flexibleRegex (JS.join (firstn 8 words) (lit " "))) fullText
      else None in
    let numbered :=
      match numberMatch chapterTitle with
      | Some prefix => selectOccurrence (flexibleRegex prefix) fullText
      | None => None
      end in
    findStartIndex fuel fullText chapterTitle
    = Normal (match partial with
              | Some index => Some index
              | None => numbered
              end)
    /\ (partial = None -> numbered = None ->
        findChapterText fuel fullText chapterTitle next = Normal None).
Proof.
  intros fuel fullText chapterTitle next Hfuel E0 words partial numbered.
  assert (Hs : findStartIndex fuel fullText chapterTitle
               = Normal (match partial with
                         | Some index => Some index
                         | None => numbered
                         end)).
  { unfold findStartIndex. rewrite newRegExp_flexible. cbn [bindC].
    destruct fuel as [|fuel]; [lia|]. cbn [collectMatches]. rewrite E0.
    cbn [bindC pickStart]. rewrite partialTitleStart_spec. cbn [bindC].
    fold words. fold partial. destruct partial; [reflexivity|].
    rewrite numberStart_spec by exact Hfuel. reflexivity. }
  split; [exact Hs|].
  intros Hp Hn. unfold findChapterText. rewrite Hs, Hp, Hn. reflexivity.
Qed.

(** C3, where the code departs from it.  A title that begins with white
    space splits into an empty first piece and its words, and the empty
    piece counts among the first eight: the retry is made with the first
    seven words.  Here the title has eight words and the text holds the
    first seven; neither the title nor its first eight words occur, and
    the title has no number prefix, yet the chapter is found, at the
    first seven words.  Without the white space before it the same title
    is not found. *)
Theorem findChapterText_leading_space_seven_words :
  let title := lit " Notes on the History of the Roman Empire" in
  let fullText :=
    lit "Preface. Notes on the History of the Roman Republic. It began." in
  titleWords title
  = [] :: map lit ["Notes"; "on"; "the"; "History"; "of"; "the"; "Roman";
                   "Empire"]%string
  /\ exec flag_i (flexibleRegex title) fullText 0 = None
  /\ exec flag_i (flexibleRegex (lit "Notes on the History of the Roman Empire"))
          fullText 0 = None
  /\ numberMatch title = None
  /\ partialTitleStart fullText title
     = Normal (execIndex flag_i
                 (flexibleRegex (lit "Notes on the History of the Roman")) fullText)
  /\ findChapterText 100 fullText title None
     = Normal (Some (lit "Notes on the History of the Roman Republic. It began."))
  /\ findChapterText 100 fullText (lit "Notes on the History of the Roman Empire")
       None
     = Normal None.
Proof. repeat split; vm_compute; reflexivity. Qed.

End ChapterLocator.

Module SessionFacts.
Import App.

Lemma eqb_eq (a b : str) : JS.eqb a b = true <-> a = b.
Proof.
  revert b. induction a as [|c a IH]; intros [|d b]; simpl;
    try (split; (reflexivity || discriminate)).
  rewrite andb_true_iff, Ascii.eqb_eq, IH.
  split; [intros [-> ->]; reflexivity|intros H; inversion H; auto].
Qed.

Lemma isActive_spec (sessionId : str) (active : option str) :
  isActive sessionId active = true <-> active = Some sessionId.
Proof.
  destruct active as [a|]; simpl.
  - rewrite eqb_eq. split; [intros ->; reflexivity|intros H; inversion H; auto].
  - split; discriminate.
Qed.

(** C9.  Removing a session keeps the others in their order.  Removing the
    active one loads the first of those left, and with none left shows the
    upload screen with no active session and no selected chapter; removing
    any other one leaves the active session and the view as they were. *)
Theorem removeSession_active_fallback :
  forall (sessionId : str) (st : state),
    let remaining :=
      filter (fun s => negb (JS.eqb (id s) sessionId)) (sessions st) in
    let st' := removeSession sessionId st in
    sessions st' = remaining
    /\ (activeSessionId st = Some sessionId ->
        match remaining with
        | first :: _ =>
            activeSessionId st' = Some (id first)
            /\ step st' = chaptersStep
            /\ chapters st' = sessionChapters first
            /\ pdfText st' = sessionPdfText first
            /\ pdfBase64 st' = sessionPdfBase64 first
            /\ isScannedMode st' = sessionIsScannedMode first
            /\ selectedChapter st' = None
            /\ currentAnalysis st' = []
        | [] =>
            activeSessionId st' = None
            /\ step st' = upload
            /\ selectedChapter st' = None
        end)
    /\ (activeSessionId st <> Some sessionId ->
        activeSessionId st' = activeSessionId st
        /\ step st' = step st
        /\ chapters st' = chapters st
        /\ selectedChapter st' = selectedChapter st
        /\ currentAnalysis st' = currentAnalysis st
        /\ pdfText st' = pdfText st
        /\ isScannedMode st' = isScannedMode st).
Proof.
  intros sessionId st remaining st'. subst st'. unfold removeSession.
  fold remaining.
  destruct (isActive sessionId (activeSessionId st)) eqn:E.
  - apply isActive_spec in E. split; [|split].
    + destruct remaining; reflexivity.
    + intros _. destruct remaining; repeat split; reflexivity.
    + intros H; congruence.
  - split; [reflexivity|split].
    + intros H. apply isActive_spec in H. congruence.
    + intros _. repeat split; reflexivity.
Qed.

(** A new book goes to the front of the library, and loading a session
    makes it the active one. *)
Lemma loadSession_active (session : BookSession) (st : state) :
  activeSessionId (loadSession session st) = Some (id session)
  /\ isScannedMode (loadSession session st) = sessionIsScannedMode session
  /\ sessions (loadSession session st) = sessions st.
Proof. repeat split; reflexivity. Qed.

End SessionFacts.

Module AnalysisFacts.
Import GeminiService App.

Section Remote.
Variable generateContent : request -> settled response.

Lemma analyze_issues (chapterTitle : str) (chapterText : option str)
      (type : AnalysisType) (pdfBase64 : option str) (parts : list part) :
  analysisParts chapterTitle chapterText type pdfBase64 = Normal parts ->
  fst (analyzeChapterContent generateContent chapterTitle chapterText type pdfBase64)
  = [{| model := MODEL_NAME; parts := parts;
        requestConfig := Analysis systemInstruction |}].
Proof.
  intros H. unfold analyzeChapterContent, lift, bind, call. rewrite H.
  destruct (await _) as [r| |]; try reflexivity.
  destruct (responseText r) as [[|c t]|]; reflexivity.
Qed.

Lemma analyze_throws (chapterTitle : str) (chapterText : option str)
      (type : AnalysisType) (pdfBase64 : option str) (e : exn) :
  analysisParts chapterTitle chapterText type pdfBase64 = Throw e ->
  analyzeChapterContent generateContent chapterTitle chapterText type pdfBase64
  = ([], Throw e).
Proof.
  intros H. unfold analyzeChapterContent, lift, bind. rewrite H. reflexivity.
Qed.

(** C5, as the code has it.  The text path is taken exactly when chapter
    text of more than 100 code units is given; otherwise, with document
    bytes, the one request carries the whole document and the prompt that
    names the chapter to locate; with neither, the call throws the
    insufficient-content error and has issued no request. *)
Theorem analyzeChapterContent_paths :
  forall (chapterTitle : str) (chapterText : option str)
         (type : AnalysisType) (pdfBase64 : option str),
    let run :=
      analyzeChapterContent generateContent chapterTitle chapterText type
                            pdfBase64 in
    match chapterText, pdfBase64 with
    | Some t, _ =>
        if 100 <? length t then fst run = [textRequest chapterTitle t type]
        else
          match pdfBase64 with
          | Some (c :: data) =>
              fst run = [documentRequest chapterTitle type (c :: data)]
          | _ => run = ([], Throw insufficientContent)
          end
    | None, Some (c :: data) =>
        fst run = [documentRequest chapterTitle type (c :: data)]
    | None, _ => run = ([], Throw insufficientContent)
    end.
Proof.
  intros chapterTitle chapterText type pdfBase64 run. subst run.
  destruct chapterText as [t|].
  - destruct (100 <? length t) eqn:E.
    + apply analyze_issues. unfold analysisParts.
      destruct t as [|c t]; [discriminate|]. cbn [JS.truthy andb].
      now rewrite E.
    + assert (P : analysisParts chapterTitle (Some t) type pdfBase64
                  = documentParts chapterTitle type pdfBase64).
      { unfold analysisParts. rewrite E. now rewrite andb_false_r. }
      destruct pdfBase64 as [[|c data]|].
      * apply analyze_throws. rewrite P. reflexivity.
      * apply analyze_issues. rewrite P. reflexivity.
      * apply analyze_throws. rewrite P. reflexivity.
  - destruct pdfBase64 as [[|c data]|].
    + apply analyze_throws. reflexivity.
    + apply analyze_issues. reflexivity.
    + apply analyze_throws. reflexivity.
Qed.

End Remote.

(** C5, the claim as stated fails: chapter text of exactly 100 code units
    is at least 100 long, and it is the whole document that is sent. *)
Lemma analyzeChapterContent_100_chars_not_text_path :
  length (repeat "a"%char 100) = 100
  /\ analysisParts (lit "Ode") (Some (repeat "a"%char 100)) STANDARD
                   (Some (lit "JVBERi0="))
     = Normal [InlineData pdfMime (lit "JVBERi0=");
               TextPart (visualPrompt (lit "Ode") STANDARD)].
Proof. split; reflexivity. Qed.

End AnalysisFacts.

Module HandlerFacts.
Import GeminiService App AnalysisFacts.

Section Remote.
Variable generateContent : request -> settled response.
Variable parseChapters : str -> settled (list Chapter).
Variable pdfjsLib : bool.

Lemma tooShort_spec (chapterContent : option str) :
  tooShort chapterContent = true <->
  match chapterContent with
  | Some t => length t < 200
  | None => True
  end.
Proof.
  destruct chapterContent as [[|c t]|]; unfold tooShort;
    cbn [JS.truthy negb orb].
  - split; auto. intros _. cbn [length]. lia.
  - apply Nat.ltb_lt.
  - tauto.
Qed.



Lemma decideScanned_spec (text : str) (isScanned : bool) :
  decideScanned text isScanned = isScanned || (length text <? 500).
Proof.
  unfold decideScanned. destruct isScanned; [reflexivity|].
  destruct (length text <? 500); reflexivity.
Qed.



Lemma await_settles {A : Type} (p : settled A) : await p <> OutOfFuel.
Proof. destruct p; discriminate. Qed.

Lemma identify_issues (pdfText : str) (pdfBase64 : option str) :
  exists done,
    identifyChapters generateContent parseChapters pdfText pdfBase64
    = ([identifyRequest pdfText pdfBase64], done)
    /\ done <> OutOfFuel.
Proof.
  unfold identifyChapters, bind, call. fold (identifyRequest pdfText pdfBase64).
  destruct (generateContent _) as [r|e]; cbn [await].
  - destruct (responseText r) as [[|x t]|]; cbn [JS.truthy];
      try (eexists; split; [reflexivity|discriminate]).
    unfold lift. destruct (parseChapters _); cbn [await];
      eexists; (split; [reflexivity|discriminate]).
  - eexists; split; [reflexivity|discriminate].
Qed.

(** Once the file is read and its text extracted, the handler returns,
    has issued the one identification request, and leaves
    [isScannedMode] as decided from the extraction. *)
Lemma handleFileSelect_decides (file : File) (now now' : nat) (st : state)
      (base64 : option str) (ex : PdfService.extraction) :
  PdfService.convertFileToBase64 (dataUrl file) = Normal base64 ->
  PdfService.extractTextFromPDF pdfjsLib (pdf file) = Normal ex ->
  let scanned := PdfService.isScanned ex || (length (PdfService.text ex) <? 500) in
  exists st',
    handleFileSelect generateContent parseChapters pdfjsLib file now now' st
    = ([identifyRequest (if scanned then [] else PdfService.text ex)
                        (if scanned then base64 else None)],
       Normal st')
    /\ isScannedMode st' = scanned
    /\ pdfBase64 st' = base64
    /\ (error st' = [] ->
        exists session,
          sessions st' = session :: sessions st
          /\ activeSessionId st' = Some (id session)
          /\ sessionIsScannedMode session = scanned).
Proof.
  intros Hc He scanned. unfold handleFileSelect, processFile.
  rewrite Hc, He. rewrite decideScanned_spec. fold scanned.
  destruct (identify_issues (if scanned then [] else PdfService.text ex)
                            (if scanned then base64 else None))
    as (done & Hi & Hd).
  rewrite Hi. destruct done as [identified|e|]; [| |congruence].
  - destruct identified as [|ch rest].
    + cbn [length Nat.eqb]. eexists. split; [reflexivity|].
      split; [reflexivity|]. split; [reflexivity|]. cbn. discriminate.
    + cbn [length Nat.eqb]. eexists. split; [reflexivity|].
      split; [reflexivity|]. split; [reflexivity|].
      intros _. eexists. repeat split; reflexivity.
  - eexists. split; [reflexivity|]. split; [reflexivity|].
    split; [reflexivity|].
    cbn. unfold orElse. destruct (messageOf e); discriminate.
Qed.



End Remote.
End HandlerFacts.

Module Base64Facts.
Import Base64.

(** Induction three octets at a time. *)
Lemma octet_triples (P : list nat -> Prop) :
  P [] -> (forall a, P [a]) -> (forall a b, P [a; b]) ->
  (forall a b c r, P r -> P (a :: b :: c :: r)) ->
  forall l, P l.
Proof.
  intros H0 H1 H2 H3.
  assert (H : forall n l, length l <= n -> P l).
  { induction n as [|n IH]; intros l Hl.
    - destruct l; [exact H0|simpl in Hl; lia].
    - destruct l as [|a [|b [|c r]]]; auto.
      apply H3, IH. simpl in Hl. lia. }
  intros l. apply (H (length l)). lia.
Qed.

Lemma encode_groups (l : list nat) : encode l = map digit (groups l) ++ padOf l.
Proof.
  induction l as [| | |a b c r IH] using octet_triples; try reflexivity.
  cbn [encode groups padOf map app]. now rewrite IH.
Qed.

Lemma groups_small (l : list nat) :
  Forall (fun a => a < 256) l -> Forall (fun v => v < 64) (groups l).
Proof.
  induction l as [|a|a b|a b c r IH] using octet_triples; intros H; cbn [groups].
  - constructor.
  - inversion H; subst. repeat (apply Forall_cons; [lia|]). apply Forall_nil.
  - inversion H as [|? ? Ha H']; subst. inversion H'; subst.
    repeat (apply Forall_cons; [lia|]). apply Forall_nil.
  - inversion H as [|? ? Ha H']; subst. inversion H' as [|? ? Hb H'']; subst.
    inversion H'' as [|? ? Hc Hr]; subst.
    repeat (apply Forall_cons; [lia|]). now apply IH.
Qed.

Lemma groups_octets (l : list nat) :
  Forall (fun a => a < 256) l -> octets (groups l) = l.
Proof.
  induction l as [|a|a b|a b c r IH] using octet_triples; intros H;
    cbn [groups octets].
  - reflexivity.
  - inversion H; subst. f_equal. lia.
  - inversion H as [|? ? Ha H']; subst. inversion H'; subst.
    f_equal; [lia|]. f_equal. lia.
  - inversion H as [|? ? Ha H']; subst. inversion H' as [|? ? Hb H'']; subst.
    inversion H'' as [|? ? Hc Hr]; subst.
    rewrite (IH Hr). f_equal; [lia|]. f_equal; [lia|]. f_equal. lia.
Qed.

Lemma groups_length (l : list nat) :
  (length (groups l) + length (padOf l)) mod 4 = 0
  /\ length (groups l) mod 4 <> 1.
Proof.
  induction l as [|a|a b|a b c r IH] using octet_triples;
    cbn [groups padOf length]; try (split; [reflexivity|discriminate]).
  lia.
Qed.

(** A digit of the alphabet stands for its own index, and is neither white
    space nor the padding sign. *)
Lemma digit_good (v : nat) :
  v < 64 ->
  sextet (digit v) = Some v
  /\ isAsciiWhitespace (digit v) = false
  /\ Ascii.eqb (digit v) padding = false.
Proof.
  intros H.
  assert (A : forallb goodDigit (seq 0 64) = true) by (vm_compute; reflexivity).
  rewrite forallb_forall in A.
  assert (G : goodDigit v = true) by (apply A, in_seq; lia).
  unfold goodDigit in G. apply andb_true_iff in G. destruct G as [G G3].
  apply andb_true_iff in G. destruct G as [G1 G2].
  apply negb_true_iff in G2. apply negb_true_iff in G3.
  destruct (sextet (digit v)) as [w|]; [|discriminate].
  apply Nat.eqb_eq in G1. subst. auto.
Qed.

Lemma sextets_digits (gs : list nat) :
  Forall (fun v => v < 64) gs -> sextets (map digit gs) = Some gs.
Proof.
  induction 1 as [|v gs Hv _ IH]; [reflexivity|].
  cbn [map sextets]. destruct (digit_good Hv) as (-> & _). now rewrite IH.
Qed.

Lemma filter_all {A : Type} (f : A -> bool) (l : list A) :
  Forall (fun x => f x = true) l -> filter f l = l.
Proof.
  induction 1 as [|x l Hx _ IH]; [reflexivity|].
  cbn [filter]. now rewrite Hx, IH.
Qed.

Lemma padOf_cases (l : list nat) :
  padOf l = [] \/ padOf l = [padding] \/ padOf l = [padding; padding].
Proof.
  induction l as [| | |a b c r IH] using octet_triples; cbn [padOf]; auto.
Qed.

Lemma encode_no_space (l : list nat) :
  Forall (fun a => a < 256) l ->
  filter (fun c => negb (isAsciiWhitespace c)) (encode l) = encode l.
Proof.
  intros H. apply filter_all. rewrite encode_groups. apply Forall_app. split.
  - apply Forall_map. apply groups_small in H.
    eapply Forall_impl; [|exact H]. intros v Hv. cbn beta.
    destruct (digit_good Hv) as (_ & -> & _). reflexivity.
  - destruct (padOf_cases l) as [->|[->| ->]]; repeat constructor.
Qed.

Lemma stripPadding_encode (l : list nat) :
  Forall (fun a => a < 256) l ->
  stripPadding (encode l) = map digit (groups l).
Proof.
  intros H. unfold stripPadding. rewrite encode_groups, length_app, length_map.
  destruct (groups_length l) as [-> _]. cbn [Nat.eqb].
  rewrite rev_app_distr, <- map_rev.
  assert (S : Forall (fun v => v < 64) (rev (groups l)))
    by (apply Forall_rev, groups_small, H).
  assert (R : rev (map digit (rev (groups l))) = map digit (groups l))
    by (now rewrite <- map_rev, rev_involutive).
  destruct (padOf_cases l) as [E|[E|E]]; rewrite E; cbn [rev app].
  - rewrite app_nil_r.
    destruct (rev (groups l)) as [|p [|q r]] eqn:G; cbn [map];
      try reflexivity.
    inversion S as [|? ? Hp _]; subst.
    destruct (digit_good Hp) as (_ & _ & ->). reflexivity.
  - destruct (rev (groups l)) as [|q r] eqn:G.
    + exfalso. destruct (groups_length l) as [M _]. rewrite E in M.
      assert (groups l = []) as Z
        by (rewrite <- (rev_involutive (groups l)), G; reflexivity).
      rewrite Z in M. discriminate.
    + cbn [map]. rewrite Ascii.eqb_refl.
      inversion S as [|? ? Hq _]; subst.
      destruct (digit_good Hq) as (_ & _ & ->). exact R.
  - destruct (rev (groups l)) as [|q r] eqn:G; cbn [map app].
    + rewrite !Ascii.eqb_refl. cbn [rev].
      rewrite <- (rev_involutive (groups l)), G. reflexivity.
    + rewrite !Ascii.eqb_refl. exact R.
Qed.

(** Every binary string decodes from its encoding. *)
Lemma atob_btoa (binary : str) : atob (btoa binary) = Normal binary.
Proof.
  unfold atob, btoa.
  assert (H : Forall (fun a => a < 256) (map JS.charCode binary)).
  { apply Forall_map, Forall_forall. intros c _. apply nat_ascii_bounded. }
  rewrite (encode_no_space H), (stripPadding_encode H), length_map.
  destruct (groups_length (map JS.charCode binary)) as [_ M].
  apply Nat.eqb_neq in M. rewrite M.
  rewrite sextets_digits by (apply groups_small, H).
  rewrite (groups_octets H), map_map. apply (f_equal Normal).
  rewrite <- (map_id binary) at 2. apply map_ext. intros c.
  apply ascii_nat_embedding.
Qed.

End Base64Facts.

Module AudioFacts.
Import AnalysisView.

Lemma map_nth_seq {A B : Type} (f : A -> B) (d : A) (l : list A) (n : nat) :
  n <= length l ->
  map (fun i => f (nth i l d)) (seq 0 n) = map f (firstn n l).
Proof.
  revert n. induction l as [|x l IH]; intros n Hn.
  - simpl in Hn. assert (n = 0) by lia. subst. reflexivity.
  - destruct n as [|n]; [reflexivity|]. simpl in Hn.
    cbn [seq map firstn nth]. f_equal.
    rewrite <- seq_shift, map_map. cbn [nth]. apply IH. lia.
Qed.

Lemma setAt_app {A : Type} (pre : list A) (x v : A) (post : list A) :
  setAt (length pre) v (pre ++ x :: post) = pre ++ v :: post.
Proof. induction pre as [|y pre IH]; simpl; [reflexivity|now rewrite IH]. Qed.

(** A loop that stores [g i] at every index of an array leaves the array
    of the [g i]. *)
Lemma fill_loop {A : Type} (g : nat -> A) :
  forall (k a : nat) (pre post : list A),
    length pre = a -> length post = k ->
    fold_left (fun cd i => setAt i (g i) cd) (seq a k) (pre ++ post)
    = pre ++ map g (seq a k).
Proof.
  induction k as [|k IH]; intros a pre post Ha Hk.
  - destruct post; [reflexivity|discriminate].
  - destruct post as [|x post]; [discriminate|]. subst a.
    cbn [seq fold_left map]. rewrite setAt_app.
    change (pre ++ g (length pre) :: post)
      with (pre ++ [g (length pre)] ++ post).
    rewrite app_assoc. rewrite IH.
    + now rewrite <- app_assoc.
    + rewrite length_app. simpl. lia.
    + simpl in Hk. lia.
Qed.

Lemma fillChannel_mono (dataInt16 : list Z) :
  fillChannel dataInt16 1 0 (length dataInt16) (repeat 0%Q (length dataInt16))
  = map normalize dataInt16.
Proof.
  unfold fillChannel.
  change (repeat 0%Q (length dataInt16))
    with ([] ++ repeat 0%Q (length dataInt16)).
  rewrite fill_loop by (reflexivity || apply repeat_length).
  cbn [app].
  rewrite (map_ext (fun i => normalize (nth (i * 1 + 0) dataInt16 0%Z))
                   (fun i => normalize (nth i dataInt16 0%Z))).
  - rewrite map_nth_seq by lia. now rewrite firstn_all.
  - intros i. now rewrite Nat.mul_1_r, Nat.add_0_r.
Qed.

Lemma int16s_length (bytes : list Byte.byte) :
  length (int16s bytes) = length bytes / 2.
Proof.
  assert (H : forall n (l : list Byte.byte), length l <= n ->
                                              length (int16s l) = length l / 2).
  { induction n as [|n IH]; intros l Hl.
    - destruct l; [reflexivity|simpl in Hl; lia].
    - destruct l as [|lo [|hi r]]; try reflexivity.
      cbn [int16s length]. rewrite IH by (simpl in Hl; lia).
      replace (S (S (length r))) with (length r + 1 * 2) by lia.
      rewrite Nat.div_add by lia. lia. }
  apply (H (length bytes)). lia.
Qed.

Lemma int16s_nth (bytes : list Byte.byte) :
  forall i, i < length bytes / 2 ->
    nth_error (int16s bytes) i
    = Some (int16 (nth (2 * i) bytes Byte.x00) (nth (2 * i + 1) bytes Byte.x00)).
Proof.
  assert (H : forall n (l : list Byte.byte) i, length l <= n -> i < length l / 2 ->
    nth_error (int16s l) i
    = Some (int16 (nth (2 * i) l Byte.x00) (nth (2 * i + 1) l Byte.x00))).
  { induction n as [|n IH]; intros l i Hl Hi.
    - destruct l; simpl in *; lia.
    - destruct l as [|lo [|hi r]]; try (simpl in Hi; lia).
      destruct i as [|i]; [reflexivity|].
      cbn [int16s nth_error].
      replace (2 * S i) with (S (S (2 * i))) by lia.
      replace (S (S (2 * i)) + 1) with (S (S (2 * i + 1))) by lia.
      cbn [nth]. apply IH; [simpl in Hl; lia|].
      cbn [length] in Hi.
      replace (S (S (length r))) with (length r + 1 * 2) in Hi by lia.
      rewrite Nat.div_add in Hi by lia. lia. }
  intros i Hi. apply (H (length bytes)); [lia|exact Hi].
Qed.

(** Two bytes, low byte first, read as a two's complement number. *)
Lemma int16_range (lo hi : Byte.byte) :
  (-32768 <= int16 lo hi <= 32767)%Z
  /\ (int16 lo hi mod 65536
      = Z.of_N (Byte.to_N lo) + 256 * Z.of_N (Byte.to_N hi))%Z.
Proof.
  unfold int16.
  pose proof (Byte.to_N_bounded lo). pose proof (Byte.to_N_bounded hi).
  set (u := (Z.of_N (Byte.to_N lo) + 256 * Z.of_N (Byte.to_N hi))%Z).
  assert (0 <= u < 65536)%Z by (subst u; lia).
  destruct (u <? 32768)%Z eqn:E.
  - apply Z.ltb_lt in E. split; [lia|]. apply Z.mod_small. lia.
  - apply Z.ltb_ge in E. split; [lia|].
    replace (u - 65536)%Z with (u + (-1) * 65536)%Z by lia.
    rewrite Z.mod_add by lia. apply Z.mod_small. lia.
Qed.

Lemma normalize_range (s : Z) :
  (-32768 <= s <= 32767)%Z -> (-1 <= normalize s)%Q /\ (normalize s <= 1)%Q.
Proof. intros H. unfold normalize, Qle. simpl. lia. Qed.

Lemma even_half (n : nat) : Nat.even n = true -> n = 2 * (n / 2).
Proof.
  intros H. apply Nat.even_spec in H. destruct H as [k ->].
  rewrite Nat.mul_comm, Nat.div_mul by lia. lia.
Qed.

Lemma decodeAudioData_even (data : Uint8Array) :
  data <> [] -> Nat.even (length data) = true ->
  decodeAudioData data
  = Normal {| numberOfChannels := 1; sampleRate := 24000%N;
              channelData := [map normalize (int16s data)] |}.
Proof.
  intros Hne Hev. unfold decodeAudioData, newInt16Array. rewrite Hev.
  cbn [bindC]. rewrite Nat.div_1_r. unfold createBuffer.
  assert (Hlen : length (int16s data) <> 0).
  { rewrite int16s_length. apply even_half in Hev.
    destruct data as [|b data]; [congruence|]. simpl in *. lia. }
  apply Nat.eqb_neq in Hlen. rewrite Hlen. cbn [Nat.eqb orb N.eqb sampleRate24k].
  cbn [bindC numberOfChannels sampleRate channelData seq fold_left repeat nth setAt].
  now rewrite fillChannel_mono.
Qed.

(** C8.  The bytes are read two by two, low byte first, as 16-bit signed
    samples of one channel at 24000 Hz; the sample at index [i] of the
    channel is the [i]-th of them divided by 32768, and lies between -1 and
    1. *)
Theorem decodeAudioData_normalizes :
  forall (data : Uint8Array),
    data <> [] -> Nat.even (length data) = true ->
    exists (buffer : AudioBuffer) (samples : list Q),
      decodeAudioData data = Normal buffer
      /\ numberOfChannels buffer = 1
      /\ sampleRate buffer = 24000%N
      /\ channelData buffer = [samples]
      /\ length samples = length data / 2
      /\ forall i, i < length data / 2 ->
           let lo := nth (2 * i) data Byte.x00 in
           let hi := nth (2 * i + 1) data Byte.x00 in
           let s := int16 lo hi in
           nth_error samples i = Some (Qmake s 32768)
           /\ (s mod 65536 = Z.of_N (Byte.to_N lo) + 256 * Z.of_N (Byte.to_N hi))%Z
           /\ (-32768 <= s <= 32767)%Z
           /\ (-1 <= Qmake s 32768)%Q /\ (Qmake s 32768 <= 1)%Q.
Proof.
  intros data Hne Hev. eexists. exists (map normalize (int16s data)).
  split; [apply decodeAudioData_even; assumption|].
  repeat split; try reflexivity.
  - now rewrite length_map, int16s_length.
  - rewrite nth_error_map, int16s_nth by assumption. reflexivity.
  - apply int16_range.
  - apply int16_range.
  - apply int16_range.
  - apply (normalize_range (proj1 (int16_range _ _))).
  - apply (normalize_range (proj1 (int16_range _ _))).
Qed.

Lemma decodeBase64_spec (base64 : str) :
  decodeBase64 base64
  = match Base64.atob base64 with
    | Normal binary =>
        Normal (map byte_of_ascii
                    (firstn (length binary - length binary mod 2) binary))
    | Throw e => Throw e
    | OutOfFuel => OutOfFuel
    end.
Proof.
  unfold decodeBase64. destruct (Base64.atob base64) as [binary| |];
    try reflexivity.
  cbn [bindC]. rewrite map_nth_seq; [reflexivity|]. lia.
Qed.

Lemma atob_settles (base64 : str) : Base64.atob base64 <> OutOfFuel.
Proof.
  unfold Base64.atob. destruct (_ =? 1); [discriminate|].
  destruct (Base64.sextets _); discriminate.
Qed.

(** C10, as the code has it.  [decodeBase64] returns whenever [atob]
    does.  The bytes it returns are those of the decoded string but an odd
    last one, so their number is even, the 16-bit view on them is well
    formed and holds every whole sample of the payload; the decoding then
    succeeds on every payload of two bytes or more, of an odd number of
    bytes or not. *)
Theorem decodeBase64_even_length :
  forall (base64 binary : str),
    Base64.atob base64 = Normal binary ->
    exists bytes : Uint8Array,
      decodeBase64 base64 = Normal bytes
      /\ bytes = map byte_of_ascii
                     (firstn (length binary - length binary mod 2) binary)
      /\ Nat.even (length bytes) = true
      /\ length bytes = 2 * (length binary / 2)
      /\ (exists samples,
             newInt16Array bytes = Normal samples
             /\ length samples = length binary / 2)
      /\ (2 <= length binary ->
          exists buffer, decodeAudioData bytes = Normal buffer).
Proof.
  intros base64 binary H. eexists. rewrite decodeBase64_spec, H.
  split; [reflexivity|]. split; [reflexivity|].
  set (bytes := map byte_of_ascii
                    (firstn (length binary - length binary mod 2) binary)).
  assert (Hlen : length bytes = 2 * (length binary / 2)).
  { subst bytes. rewrite length_map, length_firstn.
    pose proof (Nat.div_mod_eq (length binary) 2).
    pose proof (Nat.mod_upper_bound (length binary) 2). lia. }
  assert (Hev : Nat.even (length bytes) = true).
  { rewrite Hlen. apply Nat.even_spec. now exists (length binary / 2). }
  split; [exact Hev|]. split; [exact Hlen|]. split.
  - exists (int16s bytes). unfold newInt16Array. rewrite Hev.
    split; [reflexivity|]. rewrite int16s_length, Hlen.
    rewrite Nat.mul_comm, Nat.div_mul by lia. reflexivity.
  - intros H2. eexists. apply decodeAudioData_even; [|exact Hev].
    intros E. rewrite E in Hlen. cbn [length] in Hlen.
    pose proof (Nat.div_le_lower_bound (length binary) 2 1). lia.
Qed.

(** C10, the claim as stated fails: a payload of one byte is of an odd
    number of bytes; without its odd last byte no sample is left, and the
    decoding fails on the buffer of no frame. *)
Lemma one_byte_payload_not_decoded :
  Base64.atob (lit "AA==") = Normal [zero]
  /\ Nat.odd (length [zero]) = true
  /\ decodeBase64 (lit "AA==") = Normal []
  /\ bindC (decodeBase64 (lit "AA==")) decodeAudioData = Throw NotSupportedError.
Proof. repeat split. Qed.

(** Whatever the payload, an odd number of bytes or not, its base64 text
    decodes to its bytes but an odd last one. *)
Theorem decodeBase64_of_payload :
  forall (payload : str),
    decodeBase64 (Base64.btoa payload)
    = Normal (map byte_of_ascii
                  (firstn (length payload - length payload mod 2) payload)).
Proof.
  intros payload. now rewrite decodeBase64_spec, Base64Facts.atob_btoa.
Qed.

Lemma decodeBase64_throws (base64 : str) (e : exn) :
  decodeBase64 base64 = Throw e <-> Base64.atob base64 = Throw e.
Proof.
  rewrite decodeBase64_spec. destruct (Base64.atob base64); split; congruence.
Qed.

End AudioFacts.

Module SentenceFacts.
Import RegExp GeminiService Sentences RegExpFacts.

(** A greedy quantifier on a run of its class that ends the input or is
    followed by a code unit outside the class: the continuation is tried
    first after the whole run. *)
Lemma rep_run (A : Type) (f : ascii -> bool) (taken : str) :
  forall (min : nat) (prev : option ascii) (rest : str)
         (k : option ascii -> str -> option A) (res : A),
    Forall (fun c => f c = true) taken ->
    min <= length taken ->
    match rest with c :: _ => f c = false | [] => True end ->
    (forall p, k p rest = Some res) ->
    rep f min None prev (taken ++ rest) k = Some res.
Proof.
  induction taken as [|c taken IH]; intros min prev rest k res Hf Hmin Hrest Hk.
  - cbn [app length] in *. assert (min = 0) by lia. subst min.
    destruct rest as [|d rest]; cbn [rep]; [apply Hk|].
    rewrite Hrest. cbn [andb]. apply Hk.
  - inversion Hf as [|? ? Hc Hf']; subst. cbn [app rep]. rewrite Hc.
    cbn [andb mayTake dec option_map].
    rewrite (IH (pred min) (Some c) rest k res); auto.
    cbn [length] in Hmin. lia.
Qed.

(** A quantifier fails when its continuation fails wherever it may stop. *)
Lemma rep_none (A : Type) (f : ascii -> bool) (s : str) :
  forall (min : nat) (max : option nat) (prev : option ascii)
         (k : option ascii -> str -> option A),
    (forall p pre suf, s = pre ++ suf -> min <= length pre ->
                       Forall (fun c => f c = true) pre -> k p suf = None) ->
    rep f min max prev s k = None.
Proof.
  induction s as [|c s IH]; intros min max prev k H.
  - cbn [rep]. destruct min; [|reflexivity]. apply (H prev [] []); auto.
  - cbn [rep].
    assert (Hstop : match min with 0 => k prev (c :: s) | S _ => None end = None).
    { destruct min; [|reflexivity]. apply (H prev [] (c :: s)); auto. }
    destruct (f c && mayTake max) eqn:E; [|exact Hstop].
    apply andb_true_iff in E. destruct E as [Hc _].
    rewrite IH; [exact Hstop|].
    intros p pre suf -> Hmin Hpre. apply (H p (c :: pre) suf); auto.
    cbn [length]. lia.
Qed.

Lemma anyOf_marks (c : ascii) : anyOf ".!?" c = isSentenceEnd c.
Proof.
  unfold anyOf, isSentenceEnd.
  change (lit ".!?") with ["."%char; "!"%char; "?"%char]. cbn [existsb].
  now rewrite orb_false_r, orb_assoc.
Qed.

Lemma space_no_mark (c : ascii) :
  JS.isWhiteSpace c = true -> isSentenceEnd c = false.
Proof.
  intros H. unfold isSentenceEnd.
  destruct (Ascii.eqb c ".") eqn:E1;
    [apply Ascii.eqb_eq in E1; subst; discriminate|].
  destruct (Ascii.eqb c "!") eqn:E2;
    [apply Ascii.eqb_eq in E2; subst; discriminate|].
  destruct (Ascii.eqb c "?") eqn:E3;
    [apply Ascii.eqb_eq in E3; subst; discriminate|].
  reflexivity.
Qed.

(** What [isSentence] tests. *)
Lemma isSentence_split (s : str) :
  isSentence s = true ->
  exists body marks,
    s = body ++ marks /\ body <> [] /\ marks <> []
    /\ Forall (fun c => isSentenceEnd c = false) body
    /\ Forall (fun c => isSentenceEnd c = true) marks.
Proof.
  assert (Hsplit : forall s, exists body,
             s = body ++ afterBody s
             /\ Forall (fun c => isSentenceEnd c = false) body).
  { clear s. induction s as [|c s IH]; [exists []; auto|].
    cbn [afterBody]. destruct (isSentenceEnd c) eqn:E; [exists []; auto|].
    destruct IH as (body & Hb & Hf). exists (c :: body). cbn [app].
    split; [now rewrite <- Hb|auto]. }
  intros H. destruct s as [|c s]; [discriminate|]. cbn [isSentence] in H.
  apply andb_true_iff in H. destruct H as [Hc Hm]. apply negb_true_iff in Hc.
  destruct (Hsplit (c :: s)) as (body & Hb & Hf).
  destruct (afterBody (c :: s)) as [|m marks] eqn:E; [discriminate|].
  exists body, (m :: marks). split; [exact Hb|]. split.
  - intros ->. cbn [app] in Hb. inversion Hb; subst m.
    cbn [forallb] in Hm. apply andb_true_iff in Hm. destruct Hm. congruence.
  - split; [discriminate|]. split; [exact Hf|].
    apply Forall_forall. now apply forallb_forall.
Qed.

(** At a sentence the pattern matches the sentence, when what follows is
    no sentence punctuation. *)
Lemma matchAt_sentence (prev : option ascii) (s rest : str) :
  isSentence s = true ->
  match rest with c :: _ => isSentenceEnd c = false | [] => True end ->
  matchAt noFlags sentencePattern prev (s ++ rest) = Some (length s, None).
Proof.
  intros Hs Hrest. destruct (isSentence_split Hs) as (body & marks & -> & Hb & Hm & Hfb & Hfm).
  unfold matchAt, sentencePattern, plus. cbn [run].
  rewrite <- app_assoc.
  rewrite (@rep_run _ (noneOf ".!?") body 1 prev (marks ++ rest) _
             (length (body ++ marks), None)).
  - reflexivity.
  - eapply Forall_impl; [|exact Hfb]. intros c Hc. unfold noneOf.
    now rewrite anyOf_marks, Hc.
  - destruct body; [congruence|cbn [length]; lia].
  - destruct marks as [|m marks]; [congruence|]. cbn [app].
    inversion Hfm; subst. unfold noneOf. rewrite anyOf_marks.
    now apply negb_false_iff.
  - intros p.
    rewrite (@rep_run _ (anyOf ".!?") marks 1 p rest _
               (length (body ++ marks), None)).
    + reflexivity.
    + eapply Forall_impl; [|exact Hfm]. intros c Hc. now rewrite anyOf_marks.
    + destruct marks; [congruence|cbn [length]; lia].
    + destruct rest as [|c rest]; [exact I|]. now rewrite anyOf_marks.
    + intros _. f_equal. f_equal. rewrite !length_app. lia.
Qed.

(** At white space that ends the text the pattern matches that white
    space, by its second alternative. *)
Lemma matchAt_trailing (prev : option ascii) (ws : str) :
  Forall (fun c => JS.isWhiteSpace c = true) ws ->
  matchAt noFlags sentencePattern prev ws = Some (length ws, None).
Proof.
  intros Hw. unfold matchAt, sentencePattern, plus, star. cbn [run].
  rewrite rep_none.
  - rewrite <- (app_nil_r ws) at 1.
    rewrite (@rep_run _ JS.isWhiteSpace ws 0 prev [] _ (length ws, None)); auto.
    + lia.
    + intros _. cbn [atLineEnd length]. now rewrite Nat.sub_0_r.
  - intros p pre suf E _ _.
    assert (Hsuf : Forall (fun c => JS.isWhiteSpace c = true) suf).
    { rewrite E in Hw. now apply Forall_app in Hw. }
    destruct suf as [|c suf]; [reflexivity|]. cbn [rep].
    inversion Hsuf; subst. rewrite anyOf_marks, space_no_mark by assumption.
    reflexivity.
Qed.

Lemma matchFrom_skip (fl : flags) (r : re) (pre : str) :
  forall (prev : option ascii) (s : str),
    exists prev',
      matchFrom fl r prev (pre ++ s) (length pre) = matchFrom fl r prev' s 0.
Proof.
  induction pre as [|c pre IH]; intros prev s; [now exists prev|].
  cbn [app length matchFrom]. apply IH.
Qed.

Lemma matchFrom_sentences (sentences : list str) (ws : str) :
  Forall (fun s => isSentence s = true) sentences ->
  Forall (fun c => JS.isWhiteSpace c = true) ws ->
  forall prev,
    matchFrom noFlags sentencePattern prev (concat sentences ++ ws) 0
    = sentences ++ match ws with [] => [[]] | _ => [ws; []] end.
Proof.
  intros Hs Hw. induction Hs as [|s sentences Hsent Hs IH]; intros prev.
  - cbn [concat app]. destruct ws as [|c ws].
    + cbn [matchFrom]. rewrite matchAt_trailing by constructor. reflexivity.
    + cbn [matchFrom]. rewrite matchAt_trailing by exact Hw.
      cbn [length Nat.pred firstn]. rewrite firstn_all. f_equal.
      destruct (@matchFrom_skip noFlags sentencePattern ws (Some c) []) as [p Hp].
      rewrite app_nil_r in Hp. rewrite Hp. cbn [matchFrom].
      rewrite matchAt_trailing by constructor. reflexivity.
  - cbn [concat]. rewrite <- app_assoc.
    assert (Hrest : match concat sentences ++ ws with
                    | c :: _ => isSentenceEnd c = false
                    | [] => True
                    end).
    { destruct sentences as [|s' sentences'].
      - cbn [concat app]. destruct ws as [|c ws]; [exact I|].
        inversion Hw; subst. now apply space_no_mark.
      - inversion Hs as [|? ? Hs' _]; subst. cbn [concat].
        destruct s' as [|c s']; [discriminate|]. cbn [app].
        cbn [isSentence] in Hs'. apply andb_true_iff in Hs'.
        destruct Hs' as [Hc _]. now apply negb_true_iff in Hc. }
    pose proof (@matchAt_sentence prev s (concat sentences ++ ws) Hsent Hrest) as Hm.
    destruct s as [|c s]; [discriminate|]. cbn [app] in *. cbn [matchFrom].
    rewrite Hm. cbn [length Nat.pred firstn]. rewrite firstn_app, firstn_all.
    rewrite Nat.sub_diag. cbn [firstn]. rewrite app_nil_r.
    destruct (@matchFrom_skip noFlags sentencePattern s (Some c)
                (concat sentences ++ ws)) as [p Hp].
    rewrite Hp, IH. reflexivity.
Qed.

(** The sentences of a text made of whole sentences. *)
Lemma sentencesOf_whole (sentences : list str) (ws : str) :
  Forall (fun s => isSentence s = true) sentences ->
  Forall (fun c => JS.isWhiteSpace c = true) ws ->
  sentencesOf (concat sentences ++ ws) = sentences ++ match ws with [] => [[]] | _ => [ws; []] end.
Proof.
  intros Hs Hw. unfold sentencesOf, matchAll.
  rewrite matchFrom_sentences by assumption.
  destruct sentences; [destruct ws|]; reflexivity.
Qed.

Lemma trimStart_mid (pre : str) (d : ascii) (post : str) :
  JS.isWhiteSpace d = false ->
  exists t, JS.trimStart (pre ++ d :: post) = t ++ d :: post.
Proof.
  intros H. induction pre as [|c pre IH]; cbn [app JS.trimStart].
  - rewrite H. now exists [].
  - destruct (JS.isWhiteSpace c); [exact IH|]. now exists (c :: pre).
Qed.

Lemma not_blank (pre : str) (d : ascii) (post : str) :
  JS.isWhiteSpace d = false -> isBlank (pre ++ d :: post) = false.
Proof.
  intros H. unfold isBlank, JS.trim, JS.trimEnd.
  destruct (trimStart_mid pre post H) as [t ->].
  rewrite rev_app_distr. cbn [rev]. rewrite <- !app_assoc. cbn [app].
  destruct (trimStart_mid (rev post) (rev t) H) as [u ->].
  rewrite rev_app_distr. cbn [rev]. rewrite <- app_assoc. cbn [app].
  destruct (rev (rev t)); reflexivity.
Qed.

Lemma blank_spaces (ws : str) :
  Forall (fun c => JS.isWhiteSpace c = true) ws -> isBlank ws = true.
Proof.
  intros H. unfold isBlank, JS.trim, JS.trimEnd.
  assert (E : JS.trimStart ws = []).
  { induction H as [|c ws Hc _ IH]; [reflexivity|]. cbn [JS.trimStart]. now rewrite Hc. }
  rewrite E. reflexivity.
Qed.

(** Text that holds a sentence is not blank. *)
Lemma sentence_not_blank (pre s post : str) :
  isSentence s = true -> isBlank (pre ++ s ++ post) = false.
Proof.
  intros H. destruct (isSentence_split H) as (body & marks & -> & _ & Hm & _ & Hf).
  destruct marks as [|m marks]; [congruence|]. inversion Hf; subst.
  rewrite <- !app_assoc, app_assoc. cbn [app]. apply not_blank.
  destruct (JS.isWhiteSpace m) eqn:E; [|reflexivity].
  apply space_no_mark in E. congruence.
Qed.

Lemma group_not_blank (g : list str) (post : str) :
  g <> [] -> Forall (fun s => isSentence s = true) g ->
  isBlank (concat g ++ post) = false.
Proof.
  intros Hg Hf. destruct g as [|s g]; [congruence|]. inversion Hf; subst.
  cbn [concat]. rewrite <- app_assoc. now apply (@sentence_not_blank []).
Qed.

Lemma packSentences_app (a b : list str) :
  forall (chunks : list str) (currentChunk : str),
    packSentences (a ++ b) chunks currentChunk
    = packSentences b (fst (packSentences a chunks currentChunk))
                    (snd (packSentences a chunks currentChunk)).
Proof.
  induction a as [|s a IH]; intros chunks cur; [reflexivity|].
  cbn [app packSentences].
  destruct (MAX_CHUNK_LENGTH <? length cur + length s); apply IH.
Qed.

(** The packing loop on sentences: the chunks are groups of whole
    sentences, in order, each within the ceiling or one sentence alone. *)
Lemma packSentences_whole (sentences : list str) :
  Forall (fun s => isSentence s = true) sentences ->
  forall (groups : list (list str)) (g : list str),
    Forall (fun s => isSentence s = true) g -> fits g ->
    exists groups' g',
      packSentences sentences (map (@concat ascii) groups) (concat g)
      = (map (@concat ascii) (groups ++ groups'), concat g')
      /\ concat groups' ++ g' = g ++ sentences
      /\ Forall (fun g => g <> [] /\ Forall (fun s => isSentence s = true) g /\ fits g)
                groups'
      /\ Forall (fun s => isSentence s = true) g' /\ fits g'
      /\ (g <> [] \/ sentences <> [] -> g' <> []).
Proof.
  intros Hs. induction Hs as [|s sentences Hsent Hs IH]; intros groups g Hg Hfit.
  - exists [], g. cbn [packSentences concat app]. rewrite !app_nil_r.
    repeat split; auto. intros [H|H]; [exact H|now contradiction H].
  - cbn [packSentences].
    destruct (MAX_CHUNK_LENGTH <? length (concat g) + length s) eqn:E.
    + destruct g as [|s0 g0].
      * cbn [concat]. change (isBlank []) with true. cbv iota.
        destruct (IH groups [s]) as (groups' & g' & Hp & Hc & Hf & Hg' & Hfit' & Hne).
        { auto. }
        { right. eauto. }
        exists groups', g'. cbn [concat] in Hp. rewrite app_nil_r in Hp.
        split; [exact Hp|]. split; [exact Hc|]. split; [exact Hf|].
        split; [exact Hg'|]. split; [exact Hfit'|].
        intros _. apply Hne. left. discriminate.
      * pose proof (@group_not_blank (s0 :: g0) [] ltac:(discriminate) Hg) as Hb.
        rewrite app_nil_r in Hb. rewrite Hb.
        destruct (IH (groups ++ [s0 :: g0]) [s])
          as (groups' & g' & Hp & Hc & Hf & Hg' & Hfit' & Hne).
        { auto. }
        { right. eauto. }
        exists ((s0 :: g0) :: groups'), g'.
        rewrite map_app in Hp. change (map (@concat ascii) [s0 :: g0])
          with [concat (s0 :: g0)] in Hp.
        change (concat [s]) with (s ++ []) in Hp. rewrite app_nil_r in Hp.
        rewrite <- app_assoc in Hp. cbn [app] in Hp.
        split; [exact Hp|].
        split; [cbn [concat]; rewrite <- app_assoc, Hc; reflexivity|].
        split; [constructor; [|exact Hf]; split; [discriminate|auto]|].
        split; [exact Hg'|]. split; [exact Hfit'|].
        intros _. apply Hne. left. discriminate.
    + apply Nat.ltb_ge in E.
      destruct (IH groups (g ++ [s])) as (groups' & g' & Hp & Hc & Hf & Hg' & Hfit' & Hne).
      { apply Forall_app. auto. }
      { left. rewrite concat_app, length_app. cbn [concat]. rewrite app_nil_r. exact E. }
      exists groups', g'. rewrite concat_app in Hp. cbn [concat] in Hp.
      rewrite app_nil_r in Hp.
      split; [exact Hp|]. split; [rewrite Hc, <- app_assoc; reflexivity|].
      split; [exact Hf|]. split; [exact Hg'|]. split; [exact Hfit'|].
      intros _. apply Hne. left. destruct g; discriminate.
Qed.

Lemma sized_group (g : list str) :
  Forall (fun s => isSentence s = true) g -> fits g ->
  length (concat g) <= MAX_CHUNK_LENGTH \/ isSentence (concat g) = true.
Proof.
  intros Hg [H|[s ->]]; [now left|right].
  inversion Hg; subst. cbn [concat]. now rewrite app_nil_r.
Qed.

(** The chunks of a text over the ceiling that is made of whole
    sentences, with white space at most after the last: groups of these
    sentences, in order, the white space going with the last chunk where
    it fits. *)
Lemma chunksOf_whole (sentences : list str) (ws : str) :
  sentences <> [] ->
  Forall (fun s => isSentence s = true) sentences ->
  Forall (fun c => JS.isWhiteSpace c = true) ws ->
  MAX_CHUNK_LENGTH < length (concat sentences ++ ws) ->
  exists (groups : list (list str)) (final : list str) (tail : str),
    concat groups ++ final = sentences
    /\ Forall (fun g => g <> []) groups /\ final <> []
    /\ (tail = [] \/ tail = ws)
    /\ chunksOf (concat sentences ++ ws)
       = map (@concat ascii) groups ++ [concat final ++ tail]
    /\ Forall (fun c => length c <= MAX_CHUNK_LENGTH \/ isSentence c = true)
              (map (@concat ascii) groups ++ [concat final ++ tail]).
Proof.
  intros Hne Hs Hw Hlen.
  assert (E : (length (concat sentences ++ ws) <=? MAX_CHUNK_LENGTH) = false)
    by (apply Nat.leb_gt; exact Hlen).
  destruct (@packSentences_whole sentences Hs [] [])
    as (groups & final & Hp & Hc & Hf & Hg & Hfit & Hfin).
  { constructor. }
  { left. cbn. lia. }
  cbn [map app concat] in Hp, Hc.
  assert (Hfinal : final <> []) by (apply Hfin; now right).
  pose proof (@group_not_blank final [] Hfinal Hg) as Hb. rewrite app_nil_r in Hb.
  assert (Hk0 : chunksOf (concat sentences ++ ws)
                = let '(chunks, currentChunk) :=
                    packSentences match ws with [] => [[]] | _ => [ws; []] end
                                  (map (@concat ascii) groups) (concat final) in
                  if isBlank currentChunk then chunks else chunks ++ [currentChunk]).
  { unfold chunksOf. rewrite E, sentencesOf_whole by assumption.
    rewrite packSentences_app.
    set (packed := packSentences sentences _ _).
    assert (Hpacked : packed = (map (@concat ascii) groups, concat final))
      by exact Hp.
    rewrite Hpacked. reflexivity. }
  assert (Hchunks : exists tail,
             (tail = [] \/ tail = ws)
             /\ (tail <> [] ->
                 length (concat final) + length tail <= MAX_CHUNK_LENGTH)
             /\ chunksOf (concat sentences ++ ws)
                = map (@concat ascii) groups ++ [concat final ++ tail]).
  { destruct ws as [|c w].
    - exists []. split; [now left|]. split; [congruence|].
      rewrite Hk0. cbn [packSentences length]. rewrite Nat.add_0_r, !app_nil_r.
      destruct (MAX_CHUNK_LENGTH <? length (concat final)).
      + rewrite Hb. reflexivity.
      + rewrite Hb. reflexivity.
    - destruct (MAX_CHUNK_LENGTH <? length (concat final) + length (c :: w)) eqn:E1.
      + exists []. split; [now left|]. split; [congruence|].
        rewrite Hk0. cbn [packSentences]. rewrite E1.
        rewrite Hb. change (length (@nil ascii)) with 0. rewrite Nat.add_0_r.
        pose proof (blank_spaces Hw) as Hbw. rewrite !app_nil_r.
        destruct (MAX_CHUNK_LENGTH <? length (c :: w)).
        * rewrite Hbw. reflexivity.
        * rewrite Hbw. reflexivity.
      + exists (c :: w). split; [now right|].
        rewrite Hk0. cbn [packSentences]. rewrite E1.
        apply Nat.ltb_ge in E1. split; [intros _; exact E1|].
        change (length (@nil ascii)) with 0.
        rewrite Nat.add_0_r, length_app.
        assert (E2 : (MAX_CHUNK_LENGTH <? length (concat final) + length (c :: w))
                     = false) by (apply Nat.ltb_ge; exact E1).
        rewrite E2, app_nil_r, (@group_not_blank final (c :: w) Hfinal Hg).
        reflexivity. }
  destruct Hchunks as (tail & Ht & Hsize & Hk).
  exists groups, final, tail.
  split; [exact Hc|]. split.
  { eapply Forall_impl; [|exact Hf]. now intros g (H & _). }
  split; [exact Hfinal|]. split; [exact Ht|]. split; [exact Hk|].
  apply Forall_app. split.
  - apply Forall_map. eapply Forall_impl; [|exact Hf].
    intros g (_ & H1 & H2). now apply sized_group.
  - constructor; [|constructor].
    destruct tail as [|c tail].
    + rewrite app_nil_r. now apply sized_group.
    + left. rewrite length_app. now apply Hsize.
Qed.
End SentenceFacts.

Module SpeechFacts.
Import GeminiService Sentences HandlerFacts SentenceFacts.

Lemma flush_group (groups : list (list str)) (g : list str) :
  (if isBlank (concat g)
   then filter spoken (map (@concat ascii) groups)
   else filter spoken (map (@concat ascii) groups) ++ [concat g])
  = filter spoken (map (@concat ascii) (groups ++ [g])).
Proof.
  rewrite map_app, filter_app. cbn [map filter].
  change (spoken (concat g)) with (negb (isBlank (concat g))).
  destruct (isBlank (concat g)); cbn [negb]; [now rewrite app_nil_r|reflexivity].
Qed.

(** The packing loop keeps the sentences whole and in order: its chunks
    are the groups flushed so far that are not blank, and the chunk being
    filled is the last group. *)
Lemma packSentences_groups (sentences : list str) :
  forall (groups : list (list str)) (g : list str),
    Forall fits groups -> fits g ->
    exists groups' g',
      packSentences sentences (filter spoken (map (@concat ascii) groups)) (concat g)
      = (filter spoken (map (@concat ascii) groups'), concat g')
      /\ concat (groups' ++ [g']) = concat (groups ++ [g]) ++ sentences
      /\ Forall fits groups' /\ fits g'.
Proof.
  induction sentences as [|s rest IH]; intros groups g Hgs Hg.
  - exists groups, g. cbn [packSentences]. rewrite app_nil_r. auto.
  - cbn [packSentences].
    destruct (MAX_CHUNK_LENGTH <? length (concat g) + length s) eqn:E.
    + rewrite flush_group.
      destruct (IH (groups ++ [g]) [s]) as (groups' & g' & Hp & Hc & Hf & Hf').
      { apply Forall_app. auto. }
      { right. eauto. }
      exists groups', g'. replace (concat [s]) with s in Hp
        by (cbn [concat]; now rewrite app_nil_r).
      split; [exact Hp|]. split; [|auto].
      rewrite Hc. rewrite !concat_app. cbn [concat].
      rewrite !app_nil_r, <- !app_assoc. reflexivity.
    + apply Nat.ltb_ge in E.
      destruct (IH groups (g ++ [s])) as (groups' & g' & Hp & Hc & Hf & Hf').
      { exact Hgs. }
      { left. rewrite concat_app, length_app. cbn [concat].
        rewrite app_nil_r. exact E. }
      exists groups', g'.
      replace (concat (g ++ [s])) with (concat g ++ s) in Hp
        by (rewrite concat_app; cbn [concat]; now rewrite app_nil_r).
      split; [exact Hp|]. split; [|auto].
      rewrite Hc. rewrite !concat_app. cbn [concat].
      rewrite !app_nil_r, <- !app_assoc. reflexivity.
Qed.

Lemma filter_spoken_not_blank (l : list str) :
  Forall (fun c => isBlank c = false) (filter spoken l).
Proof.
  apply Forall_forall. intros c H. apply filter_In in H. destruct H as [_ H].
  unfold spoken in H. now apply negb_true_iff in H.
Qed.

Lemma chunksOf_long (safeText : str) :
  MAX_CHUNK_LENGTH < length safeText ->
  exists groups : list (list str),
    concat groups = sentencesOf safeText
    /\ chunksOf safeText = filter spoken (map (@concat ascii) groups)
    /\ Forall fits groups.
Proof.
  intros H. unfold chunksOf.
  assert (E : (length safeText <=? MAX_CHUNK_LENGTH) = false)
    by (apply Nat.leb_gt; exact H).
  rewrite E.
  destruct (@packSentences_groups (sentencesOf safeText) [] [])
    as (groups' & g' & Hp & Hc & Hf & Hf').
  { constructor. }
  { left. cbn. lia. }
  cbn [map filter concat] in Hp. rewrite Hp.
  exists (groups' ++ [g']). split; [exact Hc|]. split.
  - apply flush_group.
  - apply Forall_app. auto.
Qed.

Lemma firstn_add {A : Type} (a b : nat) (l : list A) :
  firstn (a + b) l = firstn a l ++ firstn b (skipn a l).
Proof.
  revert l. induction a as [|a IH]; intros l; [reflexivity|].
  destruct l as [|x l]; cbn [Nat.add firstn skipn app].
  - now rewrite firstn_nil.
  - now rewrite IH.
Qed.

(** The loop of [uint8ArrayToBase64] writes the code units of the bytes,
    one subarray after the other. *)
Lemma binaryOf_spec (bytes : Uint8Array) :
  forall (turns i : nat) (binary : str),
    binaryOf turns bytes i binary
    = binary ++ map ascii_of_byte (firstn (turns * CHUNK_SIZE) (skipn i bytes)).
Proof.
  induction turns as [|turns IH]; intros i binary.
  - cbn. now rewrite app_nil_r.
  - cbn [binaryOf]. destruct (i <? length bytes) eqn:E.
    + rewrite IH, <- app_assoc, <- map_app. f_equal. f_equal.
      rewrite Nat.mul_succ_l, (Nat.add_comm (turns * CHUNK_SIZE)), firstn_add.
      now rewrite skipn_skipn, (Nat.add_comm CHUNK_SIZE).
    + apply Nat.ltb_ge in E. rewrite skipn_all2 by exact E.
      rewrite firstn_nil. cbn. now rewrite app_nil_r.
Qed.

Lemma uint8ArrayToBase64_spec (bytes : Uint8Array) :
  uint8ArrayToBase64 bytes = Base64.btoa (map ascii_of_byte bytes).
Proof.
  unfold uint8ArrayToBase64. rewrite binaryOf_spec. cbn [app skipn].
  rewrite firstn_all2; [reflexivity|].
  assert (H : 1 <= CHUNK_SIZE) by (apply Nat.leb_le; vm_compute; reflexivity).
  nia.
Qed.

(** The base64 text [uint8ArrayToBase64] writes decodes to the bytes it
    was given. *)
Lemma base64_of_bytes_decodes (bytes : Uint8Array) :
  base64ToUint8Array (uint8ArrayToBase64 bytes) = Normal bytes.
Proof.
  unfold base64ToUint8Array.
  rewrite uint8ArrayToBase64_spec, Base64Facts.atob_btoa. cbn [bindC].
  rewrite AudioFacts.map_nth_seq by lia. rewrite firstn_all, map_map.
  apply (f_equal Normal). rewrite <- (map_id bytes) at 2. apply map_ext.
  intros b. apply byte_of_ascii_of_byte.
Qed.

Section Remote.
Variable generateContent : request -> settled response.

Lemma speakChunks_step (chunk : str) (rest : list str) (acc : list Uint8Array) :
  speakChunks generateContent (chunk :: rest) acc
  = if isBlank chunk then speakChunks generateContent rest acc
    else
      match generateContent (speechRequest chunk) with
      | Fulfilled r =>
          match inlineData r with
          | Some (c :: b64) =>
              match base64ToUint8Array (c :: b64) with
              | Normal segment =>
                  let (issued, done) :=
                    speakChunks generateContent rest (acc ++ [segment]) in
                  (speechRequest chunk :: issued, done)
              | Throw e => ([speechRequest chunk], Throw e)
              | OutOfFuel => ([speechRequest chunk], OutOfFuel)
              end
          | _ =>
              let (issued, done) := speakChunks generateContent rest acc in
              (speechRequest chunk :: issued, done)
          end
      | Failed e => ([speechRequest chunk], Throw e)
      end.
Proof.
  cbn [speakChunks]. destruct (isBlank chunk); [reflexivity|].
  unfold bind at 1. unfold call.
  destruct (generateContent (speechRequest chunk)) as [r|e]; cbn [await];
    [|reflexivity].
  destruct (inlineData r) as [[|c b64]|]; cbn [JS.truthy].
  - destruct (speakChunks generateContent rest acc); reflexivity.
  - unfold lift, bind. destruct (base64ToUint8Array (c :: b64)); try reflexivity.
    destruct (speakChunks generateContent rest (acc ++ [a])); reflexivity.
  - destruct (speakChunks generateContent rest acc); reflexivity.
Qed.

Lemma base64ToUint8Array_settles (base64 : str) :
  base64ToUint8Array base64 <> OutOfFuel.
Proof.
  unfold base64ToUint8Array. pose proof (@AudioFacts.atob_settles base64).
  destruct (Base64.atob base64); cbn; congruence.
Qed.

(** The loop over the chunks: the requests issued are those of the
    chunks that are not blank, in order, up to the first failure; when
    the loop ends normally every such chunk was asked for and the
    segments are the audio of each in the same order. *)
Lemma speakChunks_order (chunks : list str) :
  forall acc : list Uint8Array,
    let run := speakChunks generateContent chunks acc in
    (exists n, fst run = map speechRequest (firstn n (filter spoken chunks)))
    /\ (forall segments,
           snd run = Normal segments ->
           fst run = map speechRequest (filter spoken chunks)
           /\ segments
              = acc ++ flat_map (audioOf generateContent) (filter spoken chunks))
    /\ snd run <> OutOfFuel.
Proof.
  induction chunks as [|chunk rest IH]; intros acc run; subst run.
  - cbn. split; [exists 0; reflexivity|]. split; [|discriminate].
    intros segments H. inversion H; subst. now rewrite app_nil_r.
  - rewrite speakChunks_step. cbn [filter].
    change (spoken chunk) with (negb (isBlank chunk)).
    destruct (isBlank chunk) eqn:B; cbn [negb]; [apply IH|].
    cbn [flat_map]. unfold audioOf at 1.
    destruct (generateContent (speechRequest chunk)) as [r|e].
    + destruct (inlineData r) as [[|c b64]|].
      * destruct (IH acc) as ((n & Hn) & Hdone & Ht).
        destruct (speakChunks generateContent rest acc) as [issued done].
        cbn [fst snd app] in *. split; [|split; [|exact Ht]].
        -- exists (S n). cbn [firstn map]. now rewrite Hn.
        -- intros segments H. destruct (Hdone _ H) as [-> ->].
           split; reflexivity.
      * pose proof (@base64ToUint8Array_settles (c :: b64)) as Hs.
        destruct (base64ToUint8Array (c :: b64)) as [segment|e|];
          [| |congruence].
        -- destruct (IH (acc ++ [segment])) as ((n & Hn) & Hdone & Ht).
           destruct (speakChunks generateContent rest (acc ++ [segment]))
             as [issued done].
           cbn [fst snd app] in *. split; [|split; [|exact Ht]].
           ++ exists (S n). cbn [firstn map]. now rewrite Hn.
           ++ intros segments H. destruct (Hdone _ H) as [-> ->].
              split; [reflexivity|]. now rewrite <- app_assoc.
        -- cbn [fst snd app]. split; [exists 1; reflexivity|].
           split; discriminate.
      * destruct (IH acc) as ((n & Hn) & Hdone & Ht).
        destruct (speakChunks generateContent rest acc) as [issued done].
        cbn [fst snd app] in *. split; [|split; [|exact Ht]].
        -- exists (S n). cbn [firstn map]. now rewrite Hn.
        -- intros segments H. destruct (Hdone _ H) as [-> ->].
           split; reflexivity.
    + cbn [fst snd]. split; [exists 1; reflexivity|]. split; discriminate.
Qed.

(** C7, as the code has it.  The text is cleaned; cleaned text within
    the ceiling is the one chunk.  Cleaned text over the ceiling that is
    made of whole sentences, with white space at most after the last, is
    cut at sentence punctuation: each chunk is a group of whole
    sentences, the chunks in order make up the text (the white space at
    its end apart), and a chunk goes over the ceiling only when it is one
    sentence alone.  One request is issued for each chunk that is not
    blank, in order, and the result is the base64 text of the decoded
    audio of the answers, concatenated in that order. *)
Theorem generateSpeech_chunks_in_order :
  forall (text : str),
    let safeText := prepareTextForSpeech text in
    let chunks := chunksOf safeText in
    let run := generateSpeech generateContent text in
    (length safeText <= MAX_CHUNK_LENGTH -> chunks = [safeText])
    /\ (MAX_CHUNK_LENGTH < length safeText ->
        Forall (fun c => isBlank c = false) chunks
        /\ forall (sentences : list str) (ws : str),
            safeText = concat sentences ++ ws ->
            sentences <> [] ->
            Forall (fun s => isSentence s = true) sentences ->
            Forall (fun c => JS.isWhiteSpace c = true) ws ->
            exists (groups : list (list str)) (final : list str) (tail rest : str),
              concat groups ++ final = sentences
              /\ Forall (fun g => g <> []) groups /\ final <> []
              /\ chunks = map (@concat ascii) groups ++ [concat final ++ tail]
              /\ ws = tail ++ rest
              /\ safeText = concat chunks ++ rest
              /\ Forall (fun c => length c <= MAX_CHUNK_LENGTH
                                  \/ isSentence c = true) chunks)
    /\ (exists n, fst run = map speechRequest (firstn n (filter spoken chunks)))
    /\ (forall out,
           snd run = Normal out ->
           fst run = map speechRequest (filter spoken chunks)
           /\ out = uint8ArrayToBase64
                      (concat (flat_map (audioOf generateContent)
                                        (filter spoken chunks)))
           /\ base64ToUint8Array out
              = Normal (concat (flat_map (audioOf generateContent)
                                         (filter spoken chunks))))
    /\ snd run <> OutOfFuel.
Proof.
  intros text safeText chunks run. split; [|split].
  - intros H. subst chunks. unfold chunksOf.
    apply Nat.leb_le in H. now rewrite H.
  - intros H. split.
    + destruct (chunksOf_long H) as (groups & Hc & Hk & Hf).
      subst chunks. rewrite Hk. apply filter_spoken_not_blank.
    + intros sentences ws E Hne Hs Hw. subst chunks. rewrite E in H |- *.
      destruct (chunksOf_whole Hne Hs Hw H)
        as (groups & final & tail & Hc & Hg & Hfin & Ht & Hk & Hsize).
      assert (Hrest : exists rest, ws = tail ++ rest).
      { destruct Ht as [->| ->]; [now exists ws|].
        exists []. now rewrite app_nil_r. }
      destruct Hrest as [rest Hws].
      exists groups, final, tail, rest.
      split; [exact Hc|]. split; [exact Hg|]. split; [exact Hfin|].
      split; [exact Hk|]. split; [exact Hws|]. split; [|now rewrite Hk].
      rewrite Hk, concat_app. cbn [concat].
      rewrite app_nil_r, <- !app_assoc, <- Hws, <- Hc, concat_app, <- app_assoc.
      f_equal. clear. induction groups as [|g groups IH]; [reflexivity|].
      cbn [concat map]. now rewrite concat_app, IH.
  - subst run. unfold generateSpeech. fold safeText. fold chunks.
    destruct (speakChunks_order chunks []) as ((n & Hn) & Hdone & Ht).
    unfold bind.
    destruct (speakChunks generateContent chunks []) as [issued done].
    cbn [fst snd] in *.
    destruct done as [segments|e|]; [| |congruence].
    + destruct (Hdone segments eq_refl) as [Hi Hs]. cbn [app] in Hs.
      destruct segments as [|seg segs].
      * cbn [throw fst snd]. rewrite app_nil_r. repeat split; try discriminate.
        eauto.
      * cbn [ret fst snd]. rewrite app_nil_r. repeat split; try discriminate.
        -- eauto.
        -- exact Hi.
        -- inversion H; subst. rewrite <- Hs. reflexivity.
        -- inversion H; subst. rewrite <- Hs. apply base64_of_bytes_decodes.
    + cbn [fst snd]. repeat split; try discriminate. eauto.
Qed.

End Remote.

(** C7, the claim as stated fails: a sentence of 3002 code units is one
    chunk, longer than the ceiling. *)
Lemma chunk_longer_than_ceiling :
  chunksOf (prepareTextForSpeech (repeat "a"%char 3001 ++ lit "."))
  = [repeat "a"%char 3001 ++ lit "."]
  /\ MAX_CHUNK_LENGTH < length (repeat "a"%char 3001 ++ lit ".").
Proof.
  split; [vm_compute; reflexivity|apply Nat.ltb_lt; vm_compute; reflexivity].
Qed.

(** Cleaned text over the ceiling whose end has no sentence punctuation:
    the pattern finds the sentence and the empty match at the end, and the
    words after the full stop are in no chunk. *)
Example chunks_leave_out_unpunctuated_tail :
  sentencesOf (repeat "a"%char 3001 ++ lit ". tail")
  = [repeat "a"%char 3001 ++ lit "."; []]
  /\ chunksOf (repeat "a"%char 3001 ++ lit ". tail")
     = [repeat "a"%char 3001 ++ lit "."].
Proof. split; vm_compute; reflexivity. Qed.

End SpeechFacts.

Module Witnesses.
Import RegExp PdfService GeminiService Sentences App AnalysisView.
Import ChapterLocator AnalysisFacts HandlerFacts AudioFacts SpeechFacts Fixtures.

Lemma findChapterText_start_witness :
  JS.trim (lit "One") <> []
  /\ length book < 60
  /\ exec flag_i (flexibleRegex (lit "One")) book 0 = Some (0, 3)
  /\ findChapterText 60 book (lit "One") None
     = Normal (Some (lit "One: it begins here and goes on. Two: it ends.")).
Proof.
  assert (H1 : JS.trim (lit "One") <> []) by discriminate.
  assert (H2 : length book < 60) by (vm_compute; lia).
  assert (H3 : exec flag_i (flexibleRegex (lit "One")) book 0 = Some (0, 3))
    by reflexivity.
  split; [exact H1|]. split; [exact H2|]. split; [exact H3|].
  destruct (@findChapterText_start 60 book (lit "One") None 0 3 H1 H2 H3)
    as (_ & e & d & rest & He & _ & Hr & _).
  vm_compute in He. inversion He; subst e. exact Hr.
Defined.

Lemma findChapterText_returns_witness :
  JS.trim (lit "Two") <> []
  /\ length book < 60
  /\ exists result, findChapterText 60 book (lit "Two") None = Normal result.
Proof.
  assert (H1 : JS.trim (lit "Two") <> []) by discriminate.
  assert (H2 : length book < 60) by (vm_compute; lia).
  split; [exact H1|]. split; [exact H2|].
  exact (@findChapterText_returns 60 book (lit "Two") None H1 H2).
Defined.

Lemma findChapterText_end_boundary_witness :
  findStartIndex 60 book (lit "One") = Normal (Some 9)
  /\ lit "Two" <> []
  /\ findChapterText 60 book (lit "One") (Some (lit "Two"))
     = Normal (Some (lit "One: it begins here and goes on.")).
Proof.
  assert (H1 : findStartIndex 60 book (lit "One") = Normal (Some 9))
    by reflexivity.
  assert (H2 : lit "Two" <> []) by discriminate.
  split; [exact H1|]. split; [exact H2|].
  exact (proj1 (@findChapterText_end_boundary 60 book (lit "One") (lit "Two")
                  9 H1 H2)).
Defined.



Lemma decodeAudioData_normalizes_witness :
  [Byte.x00; Byte.x80; Byte.xff; Byte.x7f] <> []
  /\ Nat.even (length [Byte.x00; Byte.x80; Byte.xff; Byte.x7f]) = true
  /\ exists buffer samples,
       decodeAudioData [Byte.x00; Byte.x80; Byte.xff; Byte.x7f] = Normal buffer
       /\ channelData buffer = [samples]
       /\ nth_error samples 0 = Some (Qmake (-32768) 32768)
       /\ nth_error samples 1 = Some (Qmake 32767 32768).
Proof.
  assert (H1 : [Byte.x00; Byte.x80; Byte.xff; Byte.x7f] <> []) by discriminate.
  assert (H2 : Nat.even (length [Byte.x00; Byte.x80; Byte.xff; Byte.x7f]) = true)
    by reflexivity.
  split; [exact H1|]. split; [exact H2|].
  destruct (@decodeAudioData_normalizes _ H1 H2)
    as (buffer & samples & Hd & _ & _ & Hc & _ & Hs).
  exists buffer, samples. split; [exact Hd|]. split; [exact Hc|].
  split.
  - exact (proj1 (Hs 0 ltac:(vm_compute; lia))).
  - exact (proj1 (Hs 1 ltac:(vm_compute; lia))).
Defined.

(** A payload of three bytes: the third is left out. *)
Lemma decodeBase64_even_length_witness :
  Base64.atob (lit "AAEC") = Normal (map ascii_of_nat [0; 1; 2])
  /\ decodeBase64 (lit "AAEC") = Normal [Byte.x00; Byte.x01].
Proof.
  assert (H : Base64.atob (lit "AAEC") = Normal (map ascii_of_nat [0; 1; 2]))
    by reflexivity.
  split; [exact H|].
  destruct (@decodeBase64_even_length _ _ H) as (bytes & Hd & Hb & _).
  rewrite Hd, Hb. reflexivity.
Defined.

Lemma generateSpeech_chunks_in_order_witness :
  let sentence := repeat "a"%char 99 ++ lit "." in
  let text := concat (repeat sentence 31) in
  MAX_CHUNK_LENGTH < length (prepareTextForSpeech text)
  /\ prepareTextForSpeech text = concat (repeat sentence 31) ++ []
  /\ Forall (fun s => isSentence s = true) (repeat sentence 31)
  /\ chunksOf (prepareTextForSpeech text) = [concat (repeat sentence 30); sentence]
  /\ length (concat (repeat sentence 30)) = 3000
  /\ exists (groups : list (list str)) (final : list str) (tail rest : str),
       concat groups ++ final = repeat sentence 31
       /\ chunksOf (prepareTextForSpeech text)
          = map (@concat ascii) groups ++ [concat final ++ tail]
       /\ prepareTextForSpeech text
          = concat (chunksOf (prepareTextForSpeech text)) ++ rest.
Proof.
  intros sentence text.
  assert (H1 : MAX_CHUNK_LENGTH < length (prepareTextForSpeech text))
    by (apply Nat.ltb_lt; vm_compute; reflexivity).
  assert (H2 : prepareTextForSpeech text = concat (repeat sentence 31) ++ [])
    by (vm_compute; reflexivity).
  assert (H3 : repeat sentence 31 <> []) by discriminate.
  assert (H4 : Forall (fun s => isSentence s = true) (repeat sentence 31)).
  { apply Forall_forall. intros s Hs. apply repeat_spec in Hs. subst s.
    vm_compute. reflexivity. }
  split; [exact H1|]. split; [exact H2|]. split; [exact H4|].
  split; [vm_compute; reflexivity|]. split; [vm_compute; reflexivity|].
  destruct (proj2 (proj1 (proj2 (@generateSpeech_chunks_in_order answering text)) H1)
                  (repeat sentence 31) [] H2 H3 H4 (Forall_nil _))
    as (groups & final & tail & rest & Hc & _ & _ & Hk & _ & Hs & _).
  exists groups, final, tail, rest. split; [exact Hc|]. split; [exact Hk|exact Hs].
Defined.

End Witnesses.

(* ------------------------------------------------------------------ *)
(** ** The tolerance of the title pattern *)

Module ToleranceFacts.
Import RegExp PdfService RegExpFacts PatternFacts PdfServiceFacts SpanStart Spelling.

(** Where the text left is empty or begins a word, a greedy run of white
    space takes the whole gap before it. *)
Lemma rep_gap (A : Type) (gap : str) :
  forall (min : nat) (prev : option ascii) (rest : str)
         (k : option ascii -> str -> option A) (res : A),
    Forall (fun c => JS.isWhiteSpace c = true) gap ->
    min <= length gap ->
    match rest with c :: _ => JS.isWhiteSpace c = false | [] => True end ->
    k (lastOr prev gap) rest = Some res ->
    rep JS.isWhiteSpace min None prev (gap ++ rest) k = Some res.
Proof.
  induction gap as [|c gap IH]; intros min prev rest k res Hw Hmin Hrest Hk.
  - cbn [app length] in *. assert (min = 0) by lia. subst min.
    destruct rest as [|x rest]; cbn [rep]; [exact Hk|].
    rewrite Hrest. cbn [andb]. exact Hk.
  - inversion Hw as [|? ? Hc Hw']; subst. cbn [app rep]. rewrite Hc.
    cbn [andb mayTake dec option_map].
    rewrite (IH (pred min) (Some c) rest k res); auto.
    cbn [length] in Hmin. lia.
Qed.

Lemma lastOr_app (prev : option ascii) (a b : str) :
  lastOr prev (a ++ b) = lastOr (lastOr prev a) b.
Proof. apply fold_left_app. Qed.

(** [replace] passes over the code units of a match it has replaced. *)
Lemma replaceFrom_skip (fl : flags) (r : re) (f : str -> option str -> str)
      (w : str) :
  forall (prev : option ascii) (t : str),
    replaceFrom fl r f prev (w ++ t) (length w)
    = replaceFrom fl r f (lastOr prev w) t 0.
Proof.
  induction w as [|c w IH]; intros prev t; [reflexivity|].
  cbn [app length replaceFrom]. apply IH.
Qed.

Lemma matchAt_gap (prev : option ascii) (gap rest : str) :
  gap <> [] ->
  Forall (fun c => JS.isWhiteSpace c = true) gap ->
  match rest with c :: _ => JS.isWhiteSpace c = false | [] => True end ->
  matchAt noFlags (plus JS.isWhiteSpace) prev (gap ++ rest)
  = Some (length gap, None).
Proof.
  intros Hne Hw Hrest. unfold matchAt, plus. cbn [run].
  apply rep_gap; auto.
  - destruct gap; [congruence|cbn; lia].
  - rewrite length_app. f_equal. f_equal. lia.
Qed.

Lemma matchAt_word (prev : option ascii) (c : ascii) (s : str) :
  JS.isWhiteSpace c = false ->
  matchAt noFlags (plus JS.isWhiteSpace) prev (c :: s) = None.
Proof. intros H. unfold matchAt, plus. cbn [run rep]. now rewrite H. Qed.

(** What [cleanText] makes of a text: a word's code unit stays, a gap
    becomes one space. *)
Lemma clean_unit (prev : option ascii) (c : ascii) (t : str) :
  JS.isWhiteSpace c = false ->
  replaceFrom noFlags (plus JS.isWhiteSpace) (fun _ _ => lit " ") prev (c :: t) 0
  = c :: replaceFrom noFlags (plus JS.isWhiteSpace) (fun _ _ => lit " ")
                     (Some c) t 0.
Proof. intros H. cbn [replaceFrom]. now rewrite matchAt_word. Qed.

Lemma clean_gap (prev : option ascii) (gap t : str) :
  gap <> [] ->
  Forall (fun c => JS.isWhiteSpace c = true) gap ->
  match t with c :: _ => JS.isWhiteSpace c = false | [] => True end ->
  replaceFrom noFlags (plus JS.isWhiteSpace) (fun _ _ => lit " ") prev (gap ++ t) 0
  = " "%char :: replaceFrom noFlags (plus JS.isWhiteSpace) (fun _ _ => lit " ")
                            (lastOr prev gap) t 0.
Proof.
  intros Hne Hw Ht. destruct gap as [|c gap]; [congruence|].
  pose proof (@matchAt_gap prev (c :: gap) t Hne Hw Ht) as Hm.
  cbn [app] in *. cbn [replaceFrom]. rewrite Hm. cbn [length].
  cbn [lit list_ascii_of_string app]. f_equal.
  apply (replaceFrom_skip noFlags (plus JS.isWhiteSpace) (fun _ _ => lit " ")
                          gap (Some c) t).
Qed.

Lemma startsWord_head (s rest : str) :
  startsWord s ->
  match s ++ rest with c :: _ => JS.isWhiteSpace c = false | [] => True end.
Proof. destruct s; [contradiction|exact (fun H => H)]. Qed.

Lemma atomOf_unit (c : ascii) : JS.isWhiteSpace c = false -> atomOf c = Lit c.
Proof.
  intros H. unfold atomOf. destruct (Ascii.eqb c " ") eqn:E; [|reflexivity].
  apply Ascii.eqb_eq in E. subst c. discriminate.
Qed.

(** The pattern of a text runs through each of its spellings. *)
Lemma spelling_runs (A : Type) (t u : str) :
  spells t u ->
  forall (p prev : option ascii) (rest : str) (cap : option str)
         (k : cont A) (res : A),
    k (lastOr prev u) rest cap = Some res ->
    run flag_i
        (seqOf (map atomOf
                    (replaceFrom noFlags (plus JS.isWhiteSpace)
                                 (fun _ _ => lit " ") p t 0)))
        prev (u ++ rest) cap k
    = Some res.
Proof.
  induction 1 as [|c d t u Hc Hs _ IH|gap gap' t u Hg Hg' Hw Hw' Ht Hu _ IH];
    intros p prev rest cap k res Hk.
  - exact Hk.
  - rewrite clean_unit by exact Hc. cbn [map seqOf fold_right].
    rewrite atomOf_unit by exact Hc. cbn [app run]. rewrite Hs.
    apply IH. exact Hk.
  - rewrite clean_gap; auto; [|now apply (startsWord_head [])  in Ht; rewrite app_nil_r in Ht].
    cbn [map seqOf fold_right]. change (atomOf " ") with (plus JS.isWhiteSpace).
    unfold plus. cbn [run]. rewrite <- app_assoc.
    apply rep_gap; auto.
    + destruct gap'; [congruence|cbn; lia].
    + now apply startsWord_head.
    + apply IH. now rewrite <- lastOr_app.
Qed.

Lemma matchAt_spelling (chapterTitle u rest : str) (prev : option ascii) :
  spells (JS.trim chapterTitle) u ->
  matchAt flag_i (flexibleRegex chapterTitle) prev (u ++ rest)
  = Some (length u, None).
Proof.
  intros H. unfold matchAt, flexibleRegex, cleanText, replaceAll.
  apply (spelling_runs H). rewrite length_app. f_equal. f_equal. lia.
Qed.

(** A spelling of the title in the text is an occurrence of the pattern:
    the first occurrence is there or before. *)
Lemma exec_spelling (chapterTitle pre u post : str) :
  spells (JS.trim chapterTitle) u ->
  exists m0 n0,
    exec flag_i (flexibleRegex chapterTitle) (pre ++ u ++ post) 0 = Some (m0, n0)
    /\ m0 <= length pre.
Proof.
  intros H.
  assert (Hm : matchesAt flag_i (flexibleRegex chapterTitle) (pre ++ u ++ post)
                         (length pre) = true).
  { unfold matchesAt. rewrite skipn_app, skipn_all, Nat.sub_diag. cbn [app skipn].
    now rewrite matchAt_spelling. }
  destruct (exec flag_i (flexibleRegex chapterTitle) (pre ++ u ++ post) 0)
    as [[m0 n0]|] eqn:E.
  - exists m0, n0. split; [reflexivity|].
    destruct (Nat.le_gt_cases m0 (length pre)) as [Hle|Hgt]; [exact Hle|].
    apply exec_first in E. destruct E as [_ E].
    rewrite E in Hm by lia. discriminate.
  - rewrite (exec_none E) in Hm; [discriminate|].
    rewrite length_app. lia.
Qed.

(** A text splits into the gap it begins with and what follows. *)
Lemma gap_split (s : str) :
  exists gap t,
    s = gap ++ t
    /\ Forall (fun c => JS.isWhiteSpace c = true) gap
    /\ match t with c :: _ => JS.isWhiteSpace c = false | [] => True end.
Proof.
  induction s as [|c s (gap & t & -> & Hw & Ht)].
  - exists [], []. repeat split. constructor.
  - destruct (JS.isWhiteSpace c) eqn:E.
    + exists (c :: gap), t. repeat split; auto.
    + exists [], (c :: gap ++ t). repeat split; auto.
Qed.

(** A text that does not end on white space spells itself. *)
Lemma spells_self (n : nat) :
  forall s : str,
    length s <= n ->
    (forall l d, s = l ++ [d] -> JS.isWhiteSpace d = false) ->
    spells s s.
Proof.
  induction n as [|n IH]; intros s Hlen Hlast.
  - destruct s; [constructor|cbn in Hlen; lia].
  - destruct s as [|c s]; [constructor|].
    destruct (JS.isWhiteSpace c) eqn:E.
    + destruct (gap_split (c :: s)) as (gap & t & Hs & Hw & Ht).
      destruct t as [|x t].
      * exfalso. rewrite app_nil_r in Hs. subst gap.
        destruct (exists_last (l := c :: s)) as (l & d & Hl); [discriminate|].
        pose proof (Hlast l d Hl) as Hd. rewrite Hl in Hw.
        apply Forall_app in Hw. destruct Hw as [_ Hw].
        inversion Hw; subst. congruence.
      * destruct gap as [|g gap]; [cbn in Hs; inversion Hs; subst; congruence|].
        rewrite Hs. apply spells_gap; auto; try discriminate.
        apply IH.
        -- apply (f_equal (@length ascii)) in Hs. rewrite length_app in Hs.
           cbn [length] in *. lia.
        -- intros l d Hl. apply (Hlast ((g :: gap) ++ l) d).
           rewrite Hs, Hl. now rewrite app_assoc.
    + apply spells_unit; auto.
      * unfold sameChar. cbn. apply Ascii.eqb_refl.
      * apply IH; [cbn in Hlen; lia|].
        intros l d Hl. apply (Hlast (c :: l) d). now rewrite Hl.
Qed.

Lemma trimEnd_last (s l : str) (d : ascii) :
  JS.trimEnd s = l ++ [d] -> JS.isWhiteSpace d = false.
Proof.
  unfold JS.trimEnd. intros H. apply (f_equal (@rev ascii)) in H.
  rewrite rev_involutive, rev_app_distr in H. cbn in H.
  exact (trimStart_head H).
Qed.

Lemma spells_trimmed (s : str) : spells (JS.trim s) (JS.trim s).
Proof.
  apply (@spells_self (length (JS.trim s))); [lia|].
  intros l d H. exact (trimEnd_last H).
Qed.

(** When the pattern of a title that is not blank occurs, the locator
    returns a text, and not an empty one. *)
Lemma occurrence_is_located (fuel : nat) (fullText chapterTitle : str)
      (next : option str) (m0 n0 : nat) :
  JS.trim chapterTitle <> [] ->
  length fullText < fuel ->
  exec flag_i (flexibleRegex chapterTitle) fullText 0 = Some (m0, n0) ->
  exists d rest,
    findChapterText fuel fullText chapterTitle next = Normal (Some (d :: rest)).
Proof.
  intros Hb Hfuel E0.
  assert (Hs : exists startIndex d s',
             selectOccurrence (flexibleRegex chapterTitle) fullText = Some startIndex
             /\ skipn startIndex fullText = d :: s'
             /\ JS.isWhiteSpace d = false).
  { unfold selectOccurrence. rewrite E0.
    destruct (flexible_match_head Hb E0) as (d0 & s0 & H0 & Hd0).
    destruct (exec flag_i (flexibleRegex chapterTitle) fullText (m0 + n0))
      as [[m1 n1]|] eqn:E1; [|eauto 6].
    destruct (flexible_match_head Hb E1) as (d1 & s1 & H1 & Hd1).
    destruct (inFirstFivePercent m0 (length fullText)); eauto 6. }
  destruct Hs as (startIndex & d & s' & Hsel & Hk & Hd).
  pose proof (findStartIndex_tier1 Hb Hfuel Hsel) as Hs.
  destruct (findEndIndex_total fullText chapterTitle next startIndex) as [e He].
  assert (Hlen : startIndex < length fullText).
  { destruct (Nat.lt_ge_cases startIndex (length fullText)) as [H|H]; [exact H|].
    rewrite skipn_all2 in Hk by exact H. discriminate. }
  assert (Ht : chapterTitle <> []) by (intros ->; apply Hb; reflexivity).
  pose proof (findEndIndex_after_start Ht Hlen He) as Hlt.
  destruct (returned_text_head Hk Hd Hlt) as (rest & Hr & _).
  exists d, rest. unfold findChapterText. rewrite Hs. cbn [bindC]. rewrite He.
  cbn [bindC]. now rewrite Hr.
Qed.

(** The locator finds a title however the text spells it: for a title that
    is not blank and a text that holds a spelling of it (the trimmed title
    with any letter case and any white space between its words), the
    title's pattern occurs, first at the spelling or before it, and the
    locator returns a text that is not empty, never [null].  The trimmed
    title is one of its spellings. *)
Theorem findChapterText_finds_spelling :
  forall (fuel : nat) (pre u post chapterTitle : str) (next : option str),
    JS.trim chapterTitle <> [] ->
    spells (JS.trim chapterTitle) u ->
    length (pre ++ u ++ post) < fuel ->
    (exists m0 n0 d rest,
        exec flag_i (flexibleRegex chapterTitle) (pre ++ u ++ post) 0
        = Some (m0, n0)
        /\ m0 <= length pre
        /\ findChapterText fuel (pre ++ u ++ post) chapterTitle next
           = Normal (Some (d :: rest)))
    /\ spells (JS.trim chapterTitle) (JS.trim chapterTitle).
Proof.
  intros fuel pre u post chapterTitle next Hb Hsp Hfuel.
  split; [|apply spells_trimmed].
  destruct (exec_spelling (chapterTitle := chapterTitle) pre post Hsp)
    as (m0 & n0 & E0 & Hle).
  destruct (occurrence_is_located next Hb Hfuel E0) as (d & rest & Hr).
  exists m0, n0, d, rest. split; [exact E0|]. split; [exact Hle|exact Hr].
Qed.

End ToleranceFacts.

(* ------------------------------------------------------------------ *)
(** ** What the locator returns *)

Module ResultFacts.
Import RegExp PdfService RegExpFacts PatternFacts PdfServiceFacts SpanStart.
Import ToleranceFacts.

Lemma trimStart_split (s : str) : exists a, s = a ++ JS.trimStart s.
Proof.
  induction s as [|c s [a IH]]; [now exists []|].
  cbn [JS.trimStart]. destruct (JS.isWhiteSpace c).
  - exists (c :: a). cbn. now rewrite <- IH.
  - now exists [].
Qed.

Lemma trimEnd_split (s : str) : exists b, s = JS.trimEnd s ++ b.
Proof.
  unfold JS.trimEnd. destruct (trimStart_split (rev s)) as [a H].
  exists (rev a). rewrite <- rev_app_distr, <- H. now rewrite rev_involutive.
Qed.

(** Trimming leaves a part of the text, between what it strips. *)
Lemma trim_split (s : str) : exists a b, s = a ++ JS.trim s ++ b.
Proof.
  unfold JS.trim. destruct (trimStart_split s) as [a Ha].
  destruct (trimEnd_split (JS.trimStart s)) as [b Hb].
  exists a, b. now rewrite <- Hb.
Qed.

Lemma trimStart_fix (s : str) :
  match s with c :: _ => JS.isWhiteSpace c = false | [] => True end ->
  JS.trimStart s = s.
Proof. destruct s as [|c s]; [reflexivity|]. cbn. now intros ->. Qed.

(** A trimmed text is not trimmed further. *)
Lemma trim_trim (s : str) : JS.trim (JS.trim s) = JS.trim s.
Proof.
  destruct (JS.trim s) as [|c r] eqn:E; [reflexivity|].
  pose proof (trim_head E) as Hc.
  assert (Hl : forall l d, c :: r = l ++ [d] -> JS.isWhiteSpace d = false).
  { intros l d H. rewrite <- E in H. exact (trimEnd_last H). }
  unfold JS.trim. rewrite (trimStart_fix (s := c :: r)) by exact Hc.
  unfold JS.trimEnd.
  destruct (exists_last (l := c :: r)) as (l & d & H); [discriminate|].
  rewrite H, rev_app_distr. cbn [rev app].
  rewrite (trimStart_fix (s := d :: rev l)) by exact (Hl l d H).
  cbn [rev]. now rewrite rev_involutive.
Qed.

Lemma capExtracted_length (x : str) :
  (N.of_nat (length (capExtracted x)) <= CHAR_LIMIT + 20)%N.
Proof.
  unfold capExtracted. destruct (_ <? _)%N eqn:E.
  - rewrite length_app. unfold JS.slice. rewrite length_firstn.
    change (length truncationMarker) with 20. unfold CHAR_LIMIT in *. lia.
  - apply N.ltb_ge in E. lia.
Qed.

Lemma capExtracted_short (x : str) :
  (N.of_nat (length x) <= CHAR_LIMIT)%N -> capExtracted x = x.
Proof.
  intros H. unfold capExtracted. apply N.ltb_ge in H. now rewrite H.
Qed.

(** What the locator returns is made from a slice of the text. *)
Lemma findChapterText_slice (fuel : nat) (fullText chapterTitle : str)
      (next : option str) (text : str) :
  findChapterText fuel fullText chapterTitle next = Normal (Some text) ->
  exists startIndex endIndex,
    text = JS.trim (capExtracted (JS.slice fullText startIndex endIndex)).
Proof.
  unfold findChapterText.
  destruct (findStartIndex fuel fullText chapterTitle) as [[startIndex|]|e|];
    cbn [bindC]; try discriminate.
  destruct (findEndIndex fullText chapterTitle next startIndex) as [e| |];
    cbn [bindC]; try discriminate.
  intros H. inversion H. eauto.
Qed.

Lemma slice_split (s : str) (from to : nat) :
  exists a b, s = a ++ JS.slice s from to ++ b.
Proof.
  exists (firstn from s), (skipn (to - from) (skipn from s)).
  unfold JS.slice. now rewrite firstn_skipn, firstn_skipn.
Qed.

(** Whatever the locator returns is trimmed text of at most 1,000,020 code
    units (the cap and its marker), and, for a full text within the cap, a
    part of the full text as it stands there. *)
Theorem findChapterText_result_bounds :
  forall (fuel : nat) (fullText chapterTitle : str) (next : option str)
         (text : str),
    findChapterText fuel fullText chapterTitle next = Normal (Some text) ->
    (N.of_nat (length text) <= 1000020)%N
    /\ JS.trim text = text
    /\ ((N.of_nat (length fullText) <= 1000000)%N ->
        exists before after, fullText = before ++ text ++ after).
Proof.
  intros fuel fullText chapterTitle next text H.
  apply findChapterText_slice in H. destruct H as (s & e & ->).
  split; [|split].
  - pose proof (@capExtracted_length (JS.slice fullText s e)) as Hc.
    destruct (trim_split (capExtracted (JS.slice fullText s e))) as (a & b & Hs).
    apply (f_equal (@length ascii)) in Hs. rewrite !length_app in Hs.
    unfold CHAR_LIMIT in Hc. lia.
  - apply trim_trim.
  - intros Hlen.
    destruct (slice_split fullText s e) as (a & b & Hs).
    assert (Hshort : (N.of_nat (length (JS.slice fullText s e)) <= CHAR_LIMIT)%N).
    { apply (f_equal (@length ascii)) in Hs. rewrite !length_app in Hs.
      unfold CHAR_LIMIT. lia. }
    rewrite (capExtracted_short Hshort).
    destruct (trim_split (JS.slice fullText s e)) as (a' & b' & Ht).
    exists (a ++ a'), (b' ++ b). rewrite Hs at 1. rewrite Ht at 1.
    now rewrite <- !app_assoc.
Qed.
End ResultFacts.

(* ------------------------------------------------------------------ *)
(** ** The text of an extraction *)

Module ExtractionFacts.
Import PdfService SpanStart ToleranceFacts ResultFacts.

Lemma trimStart_app (x y : str) :
  JS.trimStart x <> [] -> JS.trimStart (x ++ y) = JS.trimStart x ++ y.
Proof.
  induction x as [|c x IH]; cbn [JS.trimStart app]; [congruence|].
  destruct (JS.isWhiteSpace c); [exact IH|reflexivity].
Qed.

(** Trimming the end of a text leaves what comes before its last word. *)
Lemma trimEnd_app (a b : str) :
  JS.trimEnd b <> [] -> JS.trimEnd (a ++ b) = a ++ JS.trimEnd b.
Proof.
  unfold JS.trimEnd. intros H. rewrite rev_app_distr, trimStart_app.
  - now rewrite rev_app_distr, rev_involutive.
  - intros E. apply H. now rewrite E.
Qed.

Lemma trimEnd_newlines (p : str) :
  JS.trimEnd (p ++ [newline; newline]) = JS.trimEnd p.
Proof. unfold JS.trimEnd. now rewrite rev_app_distr. Qed.

Lemma trimEnd_length (s : str) : length (JS.trimEnd s) <= length s.
Proof.
  destruct (trimEnd_split s) as [b H]. apply (f_equal (@length ascii)) in H.
  rewrite length_app in H. lia.
Qed.

Lemma trim_within_trimEnd (p : str) :
  JS.trim p <> [] ->
  JS.trimEnd p <> [] /\ length (JS.trim p) <= length (JS.trimEnd p).
Proof.
  intros H. destruct (trimStart_split p) as [a Ha]. unfold JS.trim in *.
  rewrite Ha at 1 3. rewrite trimEnd_app by exact H. split.
  - destruct a; cbn; [exact H|discriminate].
  - rewrite length_app. lia.
Qed.

(** The loop over the pages keeps the text free of leading white space
    and, once its end is trimmed, at least as long as the content
    counted. *)
Lemma readPages_counts (pages : list page) :
  forall (i : nat) (fullText : str) (total : nat) (fullText' : str) (total' : nat),
    match fullText with c :: _ => JS.isWhiteSpace c = false | [] => True end ->
    total <= length (JS.trimEnd fullText) ->
    readPages pages i fullText total = (fullText', total') ->
    match fullText' with c :: _ => JS.isWhiteSpace c = false | [] => True end
    /\ total' <= length (JS.trimEnd fullText').
Proof.
  induction pages as [|p pages IH]; intros i fullText total fullText' total' Hh Hl.
  - cbn. intros H. inversion H; subst. auto.
  - cbn [readPages]. destruct p as [items|]; [|now apply IH].
    destruct (0 <? length (JS.trim (JS.join items (lit " ")))) eqn:E;
      [|now apply IH].
    apply Nat.ltb_lt in E. apply IH.
    + destruct fullText; [reflexivity|exact Hh].
    + set (pageText := JS.join items (lit " ")) in *.
      assert (Hne : JS.trim pageText <> [])
        by (destruct (JS.trim pageText); [cbn in E; lia|discriminate]).
      destruct (trim_within_trimEnd Hne) as [Hne' Hle].
      replace (fullText ++ pageHeader i ++ [newline] ++ pageText ++ [newline; newline])
        with ((fullText ++ pageHeader i ++ [newline]) ++ (pageText ++ [newline; newline]))
        by now rewrite <- !app_assoc.
      rewrite trimEnd_app by now rewrite trimEnd_newlines.
      rewrite trimEnd_newlines, !length_app.
      pose proof (trimEnd_length fullText). lia.
Qed.

(** With the library loaded and the document read, the extraction
    returns; a document it does not flag has on average at least 50 code
    units of text a page, so that from ten pages on the length test of the
    upload handler does not change its verdict; a document of no page is
    not flagged and has no text, and it is that length test which sends it
    to scanned mode. *)
Theorem extraction_text_length :
  forall (pages : list page),
    exists ex : extraction,
      extractTextFromPDF true (Fulfilled pages) = Normal ex
      /\ (isScanned ex = false -> 50 * length pages <= length (text ex))
      /\ (10 <= length pages ->
          App.decideScanned (text ex) (isScanned ex) = isScanned ex)
      /\ (pages = [] ->
          isScanned ex = false /\ text ex = []
          /\ App.decideScanned (text ex) (isScanned ex) = true).
Proof.
  intros pages. unfold extractTextFromPDF. cbn [await bindC].
  destruct (readPages pages 1 [] 0) as [fullText total] eqn:E.
  eexists. split; [reflexivity|]. cbn [text isScanned].
  destruct (@readPages_counts pages 1 [] 0 fullText total I (Nat.le_0_l _) E)
    as [Hh Hl].
  assert (Ht : JS.trim fullText = JS.trimEnd fullText)
    by (unfold JS.trim; now rewrite trimStart_fix).
  assert (Hlow : ((0 <? length pages) && (total <? 50 * length pages)) = false ->
                 50 * length pages <= length (JS.trim fullText)).
  { intros H. rewrite Ht. apply andb_false_iff in H. destruct H as [H|H].
    - apply Nat.ltb_ge in H. lia.
    - apply Nat.ltb_ge in H. lia. }
  split; [exact Hlow|]. split.
  - intros Hten. rewrite HandlerFacts.decideScanned_spec.
    destruct ((0 <? length pages) && (total <? 50 * length pages)) eqn:Es;
      [reflexivity|].
    specialize (Hlow eq_refl). cbn [orb]. apply Nat.ltb_ge. lia.
  - intros ->. cbn in E. inversion E; subst. repeat split; reflexivity.
Qed.

End ExtractionFacts.

(* ------------------------------------------------------------------ *)
(** ** The data URL of a file *)

Module DataUrlFacts.
Import PdfService Base64 Base64Facts.

Lemma splitOn_plain (s : str) :
  forall cur, Forall (fun c => Ascii.eqb c ","%char = false) s ->
              JS.splitOn ","%char cur s = [cur ++ s].
Proof.
  induction s as [|c s IH]; intros cur H; cbn [JS.splitOn].
  - now rewrite app_nil_r.
  - inversion H as [|? ? Hc Hs]; subst. rewrite Hc, IH by exact Hs.
    now rewrite <- app_assoc.
Qed.

Lemma splitOn_first (prefix rest : str) :
  forall cur, Forall (fun c => Ascii.eqb c ","%char = false) prefix ->
              JS.splitOn ","%char cur (prefix ++ ","%char :: rest)
              = (cur ++ prefix) :: JS.splitOn ","%char [] rest.
Proof.
  induction prefix as [|c p IH]; intros cur H; cbn [JS.splitOn app].
  - now rewrite app_nil_r.
  - inversion H as [|? ? Hc Hs]; subst. rewrite Hc, IH by exact Hs.
    now rewrite <- app_assoc.
Qed.

Lemma digit_plain (v : nat) : Ascii.eqb (digit v) ","%char = false.
Proof.
  unfold digit.
  assert (H : Forall (fun c => Ascii.eqb c ","%char = false) alphabet)
    by (vm_compute; repeat constructor).
  destruct (Nat.lt_ge_cases v (length alphabet)) as [Hlt|Hge].
  - rewrite Forall_forall in H. apply H. now apply nth_In.
  - now rewrite nth_overflow.
Qed.

(** No comma in the base64 text of a payload. *)
Lemma encode_plain (l : list nat) :
  Forall (fun c => Ascii.eqb c ","%char = false) (encode l).
Proof.
  induction l as [| a | a b | a b c r IH] using octet_triples; cbn [encode];
    repeat (apply Forall_cons; [first [apply digit_plain | reflexivity]|]);
    first [exact IH | apply Forall_nil].
Qed.

(** Of the data URL of a file, [convertFileToBase64] returns the base64
    text after the comma, which [atob] decodes to the bytes of the file;
    of a text without a comma it returns [undefined], and it rejects when
    the reader fails. *)
Theorem convertFileToBase64_payload :
  forall (mediaType binary : str),
    Forall (fun c => Ascii.eqb c ","%char = false) mediaType ->
    convertFileToBase64 (Fulfilled (mediaType ++ ","%char :: btoa binary))
    = Normal (Some (btoa binary))
    /\ atob (btoa binary) = Normal binary
    /\ convertFileToBase64 (Fulfilled mediaType) = Normal None
    /\ forall e, convertFileToBase64 (Failed e) = Throw e.
Proof.
  intros mediaType binary H. unfold convertFileToBase64. cbn [await bindC].
  unfold JS.split. rewrite splitOn_first by exact H.
  rewrite (splitOn_plain (s := btoa binary)) by apply encode_plain.
  rewrite (splitOn_plain (s := mediaType)) by exact H.
  repeat split. apply atob_btoa.
Qed.

End DataUrlFacts.

(* ------------------------------------------------------------------ *)
(** ** What the requests carry and return *)

Module RequestFacts.
Import GeminiService.

Section Remote.
Variable generateContent : request -> settled response.
Variable parseChapters : str -> settled (list Chapter).

(** [identifyChapters] issues one request whatever happens.  With
    document bytes the request carries them and nothing of the text;
    without, it carries the first 60000 code units of the text at most.
    It returns what [JSON.parse] makes of the answer's text, rejects as
    the request or the parsing does, and rejects with "No data returned
        from AI" when the answer has no text or an empty one. *)
Theorem identifyChapters_outcome :
  forall (pdfText : str) (pdfBase64 : option str),
    let run := identifyChapters generateContent parseChapters pdfText pdfBase64 in
    let req := identifyRequest pdfText pdfBase64 in
    fst run = [req]
    /\ snd run
       = match generateContent req with
         | Fulfilled answer =>
             match responseText answer with
             | Some (c :: json) => await (parseChapters (c :: json))
             | _ => Throw (Error "No data returned from AI")
             end
         | Failed e => Throw e
         end
    /\ parts req
       = match pdfBase64 with
         | Some (c :: data) =>
             [InlineData pdfMime (c :: data); TextPart visualIdentifyPrompt;
              TextPart listInstruction]
         | _ =>
             [TextPart (textIdentifyPrompt (firstn 60000 pdfText));
              TextPart listInstruction]
         end
    /\ length (firstn 60000 pdfText) <= 60000.
Proof.
  intros pdfText pdfBase64 run req. subst run req.
  unfold identifyChapters, identifyRequest, call, bind. cbn [fst snd].
  split; [|split; [|split]].
  - destruct (generateContent _) as [answer|e]; cbn [await]; [|reflexivity].
    destruct (responseText answer) as [[|c json]|]; cbn [JS.truthy];
      unfold lift, throw; reflexivity.
  - destruct (generateContent _) as [answer|e]; cbn [await]; [|reflexivity].
    destruct (responseText answer) as [[|c json]|]; cbn [JS.truthy];
      unfold lift, throw; reflexivity.
  - cbn [parts]. unfold identifyParts, JS.substring0.
    destruct pdfBase64 as [[|c data]|]; reflexivity.
  - apply firstn_le_length.
Qed.

(** [analyzeChapterContent] never returns an empty text: an answer
    without text, or with an empty one, is replaced by "Could not
        generate summary."; it rejects as its request does, and never issues
    more than one request. *)
Theorem analyzeChapterContent_outcome :
  forall (chapterTitle : str) (chapterText : option str) (type : AnalysisType)
         (pdfBase64 : option str),
    let run :=
      analyzeChapterContent generateContent chapterTitle chapterText type
                            pdfBase64 in
    length (fst run) <= 1
    /\ (forall result, snd run = Normal result -> result <> [])
    /\ (forall req, fst run = [req] ->
        snd run
        = match generateContent req with
          | Fulfilled answer =>
              Normal match responseText answer with
                     | Some (c :: t) => c :: t
                     | _ => lit "Could not generate summary."
                     end
          | Failed e => Throw e
          end)
    /\ (fst run = [] -> snd run = Throw insufficientContent)
    /\ snd run <> OutOfFuel.
Proof.
  intros chapterTitle chapterText type pdfBase64 run. subst run.
  unfold analyzeChapterContent.
  destruct (analysisParts chapterTitle chapterText type pdfBase64)
    as [ps|e|] eqn:E.
  - unfold lift, bind, call. cbn [fst snd].
    destruct (generateContent _) as [answer|e] eqn:G; cbn [await].
    + destruct (responseText answer) as [[|c t]|] eqn:R; cbn [JS.truthy ret];
        cbn [fst snd app length];
        (split; [lia|]); (split; [intros ? H; inversion H; discriminate|]);
        (split; [intros ? H; inversion H; subst; rewrite G, R; reflexivity|]);
        (split; [discriminate|discriminate]).
    + cbn [fst snd app length]. split; [lia|]. split; [discriminate|].
      split; [intros ? H; inversion H; subst; now rewrite G|].
      split; discriminate.
  - unfold lift, bind. cbn [fst snd length]. split; [lia|].
    split; [discriminate|]. split; [discriminate|].
    split; [|discriminate]. intros _.
    unfold analysisParts, documentParts in E.
    destruct chapterText as [t|];
      [destruct (JS.truthy (Some t) && (100 <? length t)); [discriminate|]|];
      destruct pdfBase64 as [[|c d]|]; cbn in E; congruence.
  - exfalso. unfold analysisParts, documentParts in E.
    destruct chapterText as [t|];
      [destruct (JS.truthy (Some t) && (100 <? length t)); [discriminate|]|];
      destruct pdfBase64 as [[|c d]|]; cbn in E; congruence.
Qed.

End Remote.
End RequestFacts.

(* ------------------------------------------------------------------ *)
(** ** What the cleaning for speech leaves *)

Module ReplaceFacts.
Import RegExp RegExpFacts.

Section Reads.
Variable fl : flags.
Variable A : Type.

(** A quantifier hands over a suffix of its input. *)
Lemma rep_reads (f : ascii -> bool) (s : str) :
  forall (min : nat) (max : option nat) (prev : option ascii)
         (k : option ascii -> str -> option A) (res : A),
    rep f min max prev s k = Some res ->
    exists p pre s', s = pre ++ s' /\ k p s' = Some res.
Proof.
  induction s as [|c s IH]; intros min max prev k res H.
  - cbn [rep] in H. destruct min; [|discriminate]. now exists prev, [], [].
  - cbn [rep] in H.
    assert (Hstop : match min with 0 => k prev (c :: s) | S _ => None end = Some res ->
                    exists p pre s', c :: s = pre ++ s' /\ k p s' = Some res).
    { destruct min; [|discriminate]. intros E. now exists prev, [], (c :: s). }
    destruct (f c && mayTake max); [|auto].
    destruct (rep f (pred min) (dec max) (Some c) s k) as [res'|] eqn:E; [|auto].
    inversion H; subst res'.
    destruct (IH _ _ _ _ _ E) as (p & pre & s' & -> & Hk).
    now exists p, (c :: pre), s'.
Qed.

(** A term hands over a suffix of its input, and a capture that is the
    one it was given or is made of code units of the input. *)
Lemma run_reads (r : re) :
  forall (prev : option ascii) (s : str) (cap : option str)
         (k : cont A) (res : A),
    run fl r prev s cap k = Some res ->
    exists p pre s' cap',
      s = pre ++ s' /\ k p s' cap' = Some res
      /\ (cap' = cap \/ exists t, cap' = Some t /\ incl t s).
Proof.
  induction r as [|c|f|f min max|a IHa b IHb|a IHa b IHb| | |a IHa];
    intros prev s cap k res H; cbn [run] in H.
  - exists prev, [], s, cap. auto.
  - destruct s as [|d s]; [discriminate|].
    destruct (sameChar fl c d); [|discriminate].
    exists (Some d), [d], s, cap. auto.
  - destruct s as [|d s]; [discriminate|].
    destruct (f d); [|discriminate].
    exists (Some d), [d], s, cap. auto.
  - apply rep_reads in H. destruct H as (p & pre & s' & -> & Hk).
    exists p, pre, s', cap. auto.
  - apply IHa in H. destruct H as (p & pre & s1 & cap1 & -> & H & Hc).
    apply IHb in H. destruct H as (p' & pre' & s2 & cap2 & -> & H & Hc').
    exists p', (pre ++ pre'), s2, cap2. rewrite <- app_assoc.
    split; [reflexivity|]. split; [exact H|].
    destruct Hc' as [->|(t & -> & Hin)].
    + destruct Hc as [->|(t & -> & Hin)]; [now left|].
      right. now exists t.
    + right. exists t. split; [reflexivity|].
      intros x Hx. apply in_or_app. right. now apply Hin.
  - destruct (run fl a prev s cap k) as [res'|] eqn:E.
    + inversion H; subst res'. now apply IHa in E.
    + now apply IHb in H.
  - destruct (atLineStart fl prev); [|discriminate].
    exists prev, [], s, cap. auto.
  - destruct (atLineEnd fl s); [|discriminate].
    exists prev, [], s, cap. auto.
  - apply IHa in H. destruct H as (p & pre & s' & cap' & Hs & H & _).
    exists p, pre, s', (Some (firstn (length s - length s') s)).
    split; [exact Hs|]. split; [exact H|]. right. eexists. split; [reflexivity|].
    intros x Hx. rewrite <- (firstn_skipn (length s - length s') s).
    apply in_or_app. now left.
Qed.
End Reads.

Lemma matchAt_capture (fl : flags) (r : re) (prev : option ascii) (s : str)
      (n : nat) (cap : option str) :
  matchAt fl r prev s = Some (n, cap) ->
  cap = None \/ exists t, cap = Some t /\ incl t s.
Proof.
  unfold matchAt. intros H. apply run_reads in H.
  destruct H as (p & pre & s' & cap' & _ & H & Hc). inversion H; subst. exact Hc.
Qed.

(** Where a code unit of the result of [replace] comes from: it is a code
    unit of the text at which the pattern does not match, or matches the
    empty string only, or it was written for a match. *)
Lemma replaceFrom_origin (fl : flags) (r : re) (f : str -> option str -> str)
      (x : ascii) (s : str) :
  forall (prev : option ascii) (skip : nat),
    In x (replaceFrom fl r f prev s skip) ->
    (exists pre p s',
        s = pre ++ x :: s'
        /\ (matchAt fl r p (x :: s') = None
            \/ exists cap, matchAt fl r p (x :: s') = Some (0, cap)))
    \/ (exists pre p s' n cap,
           s = pre ++ s' /\ matchAt fl r p s' = Some (n, cap)
           /\ In x (f (firstn n s') cap)).
Proof.
  assert (Hlift : forall c s0,
    ((exists pre p s', s0 = pre ++ x :: s'
        /\ (matchAt fl r p (x :: s') = None
            \/ exists cap, matchAt fl r p (x :: s') = Some (0, cap)))
     \/ (exists pre p s' n cap,
           s0 = pre ++ s' /\ matchAt fl r p s' = Some (n, cap)
           /\ In x (f (firstn n s') cap))) ->
    ((exists pre p s', c :: s0 = pre ++ x :: s'
        /\ (matchAt fl r p (x :: s') = None
            \/ exists cap, matchAt fl r p (x :: s') = Some (0, cap)))
     \/ (exists pre p s' n cap,
           c :: s0 = pre ++ s' /\ matchAt fl r p s' = Some (n, cap)
           /\ In x (f (firstn n s') cap)))).
  { intros c s0 [(pre & p & s' & -> & H)|(pre & p & s' & n & cap & -> & H)].
    - left. now exists (c :: pre), p, s'.
    - right. now exists (c :: pre), p, s', n, cap. }
  induction s as [|c s IH]; intros prev skip H.
  - destruct skip; cbn [replaceFrom] in H; [|contradiction].
    destruct (matchAt fl r prev []) as [[n cap]|] eqn:E; [|contradiction].
    rewrite app_nil_r in H. right. now exists [], prev, [], n, cap.
  - destruct skip as [|k]; cbn [replaceFrom] in H.
    + destruct (matchAt fl r prev (c :: s)) as [[n cap]|] eqn:E.
      * apply in_app_or in H. destruct H as [H|H].
        -- right. now exists [], prev, (c :: s), n, cap.
        -- destruct n as [|n'].
           ++ destruct H as [->|H]; [|now apply Hlift, (IH _ _ H)].
              left. exists [], prev, s. split; [reflexivity|]. right. now exists cap.
           ++ now apply Hlift, (IH _ _ H).
      * destruct H as [->|H]; [|now apply Hlift, (IH _ _ H)].
        left. exists [], prev, s. auto.
    + now apply Hlift, (IH _ _ H).
Qed.

(** [replace] that writes nothing leaves code units of the text only. *)
Lemma replaceAll_drop (fl : flags) (r : re) (f : str -> option str -> str)
      (x : ascii) (s : str) :
  (forall m cap, f m cap = []) ->
  In x (replaceAll fl r f s) ->
  In x s
  /\ exists p s', matchAt fl r p (x :: s') = None
                  \/ exists cap, matchAt fl r p (x :: s') = Some (0, cap).
Proof.
  intros Hf H. apply replaceFrom_origin in H.
  destruct H as [(pre & p & s' & -> & H)|(pre & p & s' & n & cap & _ & _ & H)].
  - split; [apply in_or_app; right; now left|]. now exists p, s'.
  - rewrite Hf in H. contradiction.
Qed.

End ReplaceFacts.

Module CleaningFacts.
Import RegExp RegExpFacts GeminiService ReplaceFacts.

(** A quantifier whose continuation always succeeds succeeds, from no code
    unit on when it needs none, and on a code unit of its class when it
    needs one. *)
Lemma rep_accepts (A : Type) (f : ascii -> bool)
      (k : option ascii -> str -> option A) :
  (forall p s, k p s <> None) ->
  forall (s : str) (max : option nat) (prev : option ascii),
    rep f 0 max prev s k <> None.
Proof.
  intros Hk. induction s as [|c s IH]; intros max prev; cbn [rep]; [apply Hk|].
  destruct (f c && mayTake max); [|apply Hk].
  destruct (rep f (pred 0) (dec max) (Some c) s k); [discriminate|apply Hk].
Qed.

Lemma rep_accepts_one (A : Type) (f : ascii -> bool)
      (k : option ascii -> str -> option A) (c : ascii) (s : str)
      (max : option nat) (prev : option ascii) :
  (forall p s, k p s <> None) ->
  f c = true -> mayTake max = true ->
  rep f 1 max prev (c :: s) k <> None.
Proof.
  intros Hk Hc Hm. cbn [rep]. rewrite Hc, Hm. cbn [andb pred].
  destruct (rep f 0 (dec max) (Some c) s k) eqn:E; [discriminate|].
  now apply rep_accepts in E.
Qed.

Ltac no_empty_match H :=
  destruct H as [H|[cap H]];
  [ | apply matchAt_bounds in H; destruct H as [_ H];
      specialize (H eq_refl); lia ].

Lemma star_removed (p : option ascii) (s' : str) :
  ~ (matchAt noFlags (Lit "*") p ("*"%char :: s') = None
     \/ exists cap, matchAt noFlags (Lit "*") p ("*"%char :: s') = Some (0, cap)).
Proof. intros H. no_empty_match H. discriminate. Qed.

Lemma backquote_removed (p : option ascii) (s' : str) :
  ~ (matchAt noFlags (Lit "`") p ("`"%char :: s') = None
     \/ exists cap, matchAt noFlags (Lit "`") p ("`"%char :: s') = Some (0, cap)).
Proof. intros H. no_empty_match H. discriminate. Qed.

Lemma hash_removed (p : option ascii) (s' : str) :
  let r := Cat (Rep (oneOf "#") 1 (Some 6)) (opt JS.isWhiteSpace) in
  ~ (matchAt noFlags r p ("#"%char :: s') = None
     \/ exists cap, matchAt noFlags r p ("#"%char :: s') = Some (0, cap)).
Proof.
  intros r H. no_empty_match H. revert H. unfold matchAt. cbn [run].
  apply rep_accepts_one; [|reflexivity|reflexivity].
  intros q s. unfold opt. cbn [run]. apply rep_accepts. discriminate.
Qed.

Lemma newline_removed (p : option ascii) (s' : str) :
  let r := plus (oneOf (ascii_of_nat 10)) in
  ~ (matchAt noFlags r p (ascii_of_nat 10 :: s') = None
     \/ exists cap, matchAt noFlags r p (ascii_of_nat 10 :: s') = Some (0, cap)).
Proof.
  intros r H. no_empty_match H. revert H. unfold matchAt. cbn [run].
  apply rep_accepts_one; [|reflexivity|reflexivity]. discriminate.
Qed.

(** The link pattern writes the text of the link, which the text held. *)
Lemma link_text_kept (x : ascii) (s : str) :
  In x (replaceAll noFlags linkPattern capture1 s) -> In x s.
Proof.
  intros H. apply replaceFrom_origin in H.
  destruct H as [(pre & p & s' & -> & _)|(pre & p & s' & n & cap & -> & Hm & H)].
  - apply in_or_app. right. now left.
  - apply matchAt_capture in Hm. destruct Hm as [->|(t & -> & Hin)];
      [contradiction|].
    apply in_or_app. right. now apply Hin.
Qed.

Lemma put_written (fl : flags) (r : re) (w : string) (x : ascii) (s : str) :
  In x (replaceAll fl r (put w) s) ->
  (exists pre p s',
      s = pre ++ x :: s'
      /\ (matchAt fl r p (x :: s') = None
          \/ exists cap, matchAt fl r p (x :: s') = Some (0, cap)))
  \/ In x (lit w).
Proof.
  intros H. apply replaceFrom_origin in H.
  destruct H as [H|(pre & p & s' & n & cap & _ & _ & H)]; [now left|now right].
Qed.

(** What [prepareTextForSpeech] returns holds no asterisk, no hash sign, no
    backquote and no line feed, and it holds no code unit that the text did
    not hold but the comma, the full stop and the space it writes for
    bullets and line ends. *)
Theorem prepareTextForSpeech_clean :
  forall (text : str),
    Forall (fun x : ascii =>
              (x <> "*"%char /\ x <> "#"%char /\ x <> "`"%char
               /\ x <> ascii_of_nat 10)
              /\ (In x text \/ x = ","%char \/ x = " "%char \/ x = "."%char))
           (prepareTextForSpeech text).
Proof.
  intros text. apply Forall_forall. intros x H. unfold prepareTextForSpeech in H.
  cbv zeta in H.
  apply put_written in H. destruct H as [(pre & p & s' & Hs & Hnl)|H].
  2:{ cbn in H. destruct H as [<-|[<-|[]]];
        (split; [repeat split; discriminate|auto]). }
  assert (Hx : x <> ascii_of_nat 10)
    by (intros ->; exact (newline_removed Hnl)).
  assert (H6 : In x (replaceAll flag_m bulletPattern (put ", ")
     (replaceAll noFlags linkPattern capture1
        (replaceAll noFlags (Lit "`") drop
           (replaceAll noFlags
              (Cat (Rep (oneOf "#") 1 (Some 6)) (opt JS.isWhiteSpace)) drop
              (replaceAll noFlags (Lit "*") drop
                 (replaceAll noFlags (word "**") drop text)))))))
    by (rewrite Hs; apply in_or_app; right; now left).
  clear Hs Hnl. apply put_written in H6.
  destruct H6 as [(pre6 & p6 & s6 & Hs & _)|H].
  2:{ cbn in H. destruct H as [<-|[<-|[]]];
        (split; [repeat split; discriminate|auto]). }
  assert (H5 : In x (replaceAll noFlags linkPattern capture1
        (replaceAll noFlags (Lit "`") drop
           (replaceAll noFlags
              (Cat (Rep (oneOf "#") 1 (Some 6)) (opt JS.isWhiteSpace)) drop
              (replaceAll noFlags (Lit "*") drop
                 (replaceAll noFlags (word "**") drop text))))))
    by (rewrite Hs; apply in_or_app; right; now left).
  clear Hs. apply link_text_kept in H5.
  apply replaceAll_drop in H5; [|reflexivity].
  destruct H5 as (H4 & p4 & s4 & Hq).
  assert (Hbq : x <> "`"%char) by (intros ->; exact (backquote_removed Hq)).
  apply replaceAll_drop in H4; [|reflexivity].
  destruct H4 as (H3 & p3 & s3 & Hh).
  assert (Hhash : x <> "#"%char) by (intros ->; exact (hash_removed Hh)).
  apply replaceAll_drop in H3; [|reflexivity].
  destruct H3 as (H2 & p2 & s2 & Hst).
  assert (Hstar : x <> "*"%char) by (intros ->; exact (star_removed Hst)).
  apply replaceAll_drop in H2; [|reflexivity].
  destruct H2 as (H1 & _). auto.
Qed.

End CleaningFacts.

(* ------------------------------------------------------------------ *)
(** ** How the chunked speech fails *)

Module SpeechFailureFacts.
Import GeminiService SpeechFacts SpeechOutcome.

Section Remote.
Variable generateContent : request -> settled response.

(** The loop passes over blank chunks. *)
Lemma speakChunks_spoken (chunks : list str) :
  forall acc,
    speakChunks generateContent chunks acc
    = speakChunks generateContent (filter spoken chunks) acc.
Proof.
  induction chunks as [|chunk rest IH]; intros acc; [reflexivity|].
  cbn [filter]. unfold spoken at 1. destruct (isBlank chunk) eqn:B; cbn [negb].
  - rewrite speakChunks_step, B. apply IH.
  - rewrite !speakChunks_step, B.
    destruct (generateContent (speechRequest chunk)) as [r|e]; [|reflexivity].
    destruct (inlineData r) as [[|c b64]|]; try now rewrite IH.
    destruct (base64ToUint8Array (c :: b64)); try reflexivity. now rewrite IH.
Qed.

Lemma speakChunks_stops (before : list str) (c : str) (after : list str)
      (e : exn) :
  Forall (fun b => isBlank b = false) (before ++ [c]) ->
  Forall (answered generateContent) before -> failing generateContent c e ->
  forall acc,
    speakChunks generateContent (before ++ c :: after) acc
    = (map speechRequest (before ++ [c]), Throw e).
Proof.
  intros Hb Ha Hf. induction before as [|b before IH]; intros acc.
  - cbn [app] in *. inversion Hb as [|? ? Bc _]; subst.
    rewrite speakChunks_step, Bc.
    destruct Hf as [->|(r & x & b64 & -> & -> & ->)]; reflexivity.
  - inversion Hb as [|? ? Bb Hb']; subst. inversion Ha as [|? ? Hab Ha']; subst.
    cbn [app]. rewrite speakChunks_step, Bb.
    destruct Hab as (r & -> & Hr).
    destruct (inlineData r) as [[|x b64]|].
    + rewrite (IH Hb' Ha'). reflexivity.
    + destruct (Hr x b64 eq_refl) as [segment ->].
      rewrite (IH Hb' Ha'). reflexivity.
    + rewrite (IH Hb' Ha'). reflexivity.
Qed.

Lemma speakChunks_silent (chunks : list str) :
  Forall (fun c => isBlank c = false) chunks ->
  Forall (silent generateContent) chunks ->
  forall acc,
    speakChunks generateContent chunks acc
    = (map speechRequest chunks, Normal acc).
Proof.
  induction chunks as [|c chunks IH]; intros Hb Hs acc; [reflexivity|].
  inversion Hb as [|? ? Bc Hb']; subst. inversion Hs as [|? ? Hc Hs']; subst.
  rewrite speakChunks_step, Bc. destruct Hc as (r & -> & [->| ->]);
    rewrite (IH Hb' Hs'); reflexivity.
Qed.

(** The chunked [generateSpeech] stops at the first chunk whose request
    fails or whose audio is not base64 text: it rejects with that error
    and has asked for no later chunk.  When no answer carries audio it
    rejects with "No audio generated" after asking for every chunk, and
    for a blank text within the ceiling it does so without a request. *)
Theorem generateSpeech_failures :
  forall (text : str),
    let chunks := filter spoken (chunksOf (prepareTextForSpeech text)) in
    let run := generateSpeech generateContent text in
    (forall before c after e,
        chunks = before ++ c :: after ->
        Forall (answered generateContent) before -> failing generateContent c e ->
        run = (map speechRequest (before ++ [c]), Throw e))
    /\ (Forall (silent generateContent) chunks ->
        run = (map speechRequest chunks, Throw (Error "No audio generated")))
    /\ (length (prepareTextForSpeech text) <= MAX_CHUNK_LENGTH ->
        isBlank (prepareTextForSpeech text) = true ->
        run = ([], Throw (Error "No audio generated"))).
Proof.
  intros text chunks run.
  assert (Hnb : Forall (fun c => isBlank c = false) chunks)
    by apply filter_spoken_not_blank.
  subst run. unfold generateSpeech. rewrite speakChunks_spoken. fold chunks.
  split; [|split].
  - intros before c after e Hc Ha Hf. rewrite Hc in *.
    rewrite (@speakChunks_stops before c after e); auto.
    rewrite Forall_app in *. destruct Hnb as [H1 H2]. split; [exact H1|].
    inversion H2; subst. auto.
  - intros Hs. rewrite (speakChunks_silent Hnb Hs). cbn. now rewrite app_nil_r.
  - intros Hlen Hbl. subst chunks. unfold chunksOf.
    apply Nat.leb_le in Hlen. rewrite Hlen. cbn [filter]. unfold spoken.
    rewrite Hbl. reflexivity.
Qed.

End Remote.
End SpeechFailureFacts.

(* ------------------------------------------------------------------ *)
(** ** The speech of one request *)

Module SingleRequestFacts.
Import GeminiService SpeechFacts SpeechOutcome CleaningFacts.

Section Remote.
Variable generateContent : request -> settled response.

(** The speech of one request sends the first 2000 code units of the
    cleaned text at most, in exactly one request, and returns the audio
    of the answer as it stands there; it rejects as the request does,
    and with "No audio data returned" when the answer carries no audio
    or an empty one. *)
Theorem generateSpeech_single_request :
  forall (text : str),
    let safeText := SingleRequestSpeech.prepareTextForSpeech text in
    let run := SingleRequestSpeech.generateSpeech generateContent text in
    length safeText <= 2000
    /\ safeText = firstn 2000 (prepareTextForSpeech text)
    /\ fst run = [speechRequest safeText]
    /\ snd run
       = match generateContent (speechRequest safeText) with
         | Fulfilled answer =>
             match inlineData answer with
             | Some (c :: base64Audio) => Normal (c :: base64Audio)
             | _ => Throw (Error "No audio data returned")
             end
         | Failed e => Throw e
         end.
Proof.
  intros text safeText run. subst safeText run.
  unfold SingleRequestSpeech.generateSpeech,
    SingleRequestSpeech.prepareTextForSpeech, JS.substring0.
  split; [apply firstn_le_length|]. split; [reflexivity|].
  unfold bind, call.
  destruct (generateContent _) as [answer|e]; cbn [await fst snd];
    [|split; reflexivity].
  destruct (inlineData answer) as [[|c b]|]; cbn; split; reflexivity.
Qed.

(** On a text whose cleaned form is not blank and has at most 2000 code
    units, the speech of one request and the chunked speech issue the
    same single request; where the first returns audio that is base64
    text, the second returns the base64 text of the same bytes. *)
Theorem speech_variants_agree :
  forall (text : str),
    length (prepareTextForSpeech text) <= 2000 ->
    isBlank (prepareTextForSpeech text) = false ->
    let one := SingleRequestSpeech.generateSpeech generateContent text in
    let chunked := generateSpeech generateContent text in
    fst one = [speechRequest (prepareTextForSpeech text)]
    /\ fst chunked = fst one
    /\ forall base64Audio bytes,
         snd one = Normal base64Audio ->
         base64ToUint8Array base64Audio = Normal bytes ->
         snd chunked = Normal (uint8ArrayToBase64 bytes)
         /\ base64ToUint8Array (uint8ArrayToBase64 bytes) = Normal bytes.
Proof.
  intros text Hlen Hb one chunked. subst one chunked.
  unfold SingleRequestSpeech.generateSpeech,
    SingleRequestSpeech.prepareTextForSpeech, JS.substring0.
  rewrite firstn_all2 by exact Hlen.
  unfold generateSpeech, chunksOf.
  assert (H3 : (length (prepareTextForSpeech text) <=? MAX_CHUNK_LENGTH) = true)
    by (apply Nat.leb_le; unfold MAX_CHUNK_LENGTH; lia).
  rewrite H3, speakChunks_step, Hb. cbn [speakChunks].
  unfold bind, call, ret.
  destruct (generateContent _) as [answer|e]; cbn [await fst snd].
  - destruct (inlineData answer) as [[|c b]|]; cbn [JS.truthy negb throw ret fst snd].
    + repeat split; discriminate.
    + destruct (base64ToUint8Array (c :: b)) as [segment|e|] eqn:E;
        cbn [fst snd app]; (split; [reflexivity|]); (split; [reflexivity|]);
        intros b64 bytes H1 H2; inversion H1; subst b64;
        rewrite E in H2; inversion H2; subst.
      cbn [concat]. rewrite app_nil_r.
      split; [reflexivity|apply base64_of_bytes_decodes].
    + repeat split; discriminate.
  - repeat split; discriminate.
Qed.

End Remote.
End SingleRequestFacts.

(* ------------------------------------------------------------------ *)
(** ** The slide of a chapter *)

Module SlideFacts.
Import GeminiService SlideService.

Lemma dataOf_some (p : part) (data : str) :
  dataOf p = Some data <-> exists mime, p = InlineData mime data /\ data <> [].
Proof.
  split.
  - destruct p as [t|mime [|c d]]; cbn; try discriminate.
    intros H. inversion H; subst. exists mime. split; [reflexivity|discriminate].
  - intros (mime & -> & H). destruct data; [congruence|reflexivity].
Qed.

(** The inner loop returns the data of the first part that carries
    some. *)
Lemma imageOfParts_first (ps : list part) (data : str) :
  imageOfParts ps = Some data <->
  exists pre mime post,
    ps = pre ++ InlineData mime data :: post /\ data <> []
    /\ Forall (fun p => dataOf p = None) pre.
Proof.
  induction ps as [|p ps IH]; cbn [imageOfParts].
  - split; [discriminate|]. intros (pre & mime & post & H & _).
    destruct pre; discriminate.
  - destruct (dataOf p) as [d|] eqn:E.
    + split.
      * intros H. inversion H; subst d. apply dataOf_some in E.
        destruct E as (mime & -> & Hd). exists [], mime, ps. auto.
      * intros (pre & mime & post & H & Hd & Hpre). destruct pre as [|q pre].
        -- cbn in H. inversion H; subst. cbn in E. destruct data; congruence.
        -- cbn in H. inversion H; subst. inversion Hpre; congruence.
    + rewrite IH. split.
      * intros (pre & mime & post & -> & Hd & Hpre).
        exists (p :: pre), mime, post. auto.
      * intros (pre & mime & post & H & Hd & Hpre). destruct pre as [|q pre].
        -- cbn in H. inversion H; subst. cbn in E. destruct data; congruence.
        -- cbn in H. inversion H; subst. inversion Hpre; subst.
           exists pre, mime, post. auto.
Qed.

Lemma imageOfParts_app (a b : list part) :
  imageOfParts (a ++ b)
  = match imageOfParts a with
    | Some data => Some data
    | None => imageOfParts b
    end.
Proof.
  induction a as [|p a IH]; [reflexivity|]. cbn [app imageOfParts].
  destruct (dataOf p); [reflexivity|exact IH].
Qed.

(** The two loops together go through the parts of all candidates in
    order. *)
Lemma imageOfCandidates_flat (cs : list candidate) :
  imageOfCandidates cs = imageOfParts (concat (map partsOf cs)).
Proof.
  induction cs as [|c cs IH]; [reflexivity|].
  cbn [imageOfCandidates map concat]. now rewrite imageOfParts_app, IH.
Qed.

Section Remote.
Variable generateContent : imageRequest -> settled imageResponse.

(** The request of [generateSlide], and its data, never empty. *)
Lemma generateSlide_run (chapterTitle analysisText : str) :
  let run := generateSlide generateContent chapterTitle analysisText in
  fst run = [slideRequest chapterTitle analysisText]
  /\ forall data, snd run = Normal data -> data <> [].
Proof.
  cbv zeta. unfold generateSlide. cbn [fst snd]. split; [reflexivity|].
  intros data.
  destruct (generateContent (slideRequest chapterTitle analysisText))
    as [answer|e]; cbn [await]; [|discriminate].
  rewrite imageOfCandidates_flat.
  destruct (imageOfParts (concat (map partsOf (candidatesOf answer))))
    as [d|] eqn:E; [|discriminate].
  intros H. inversion H; subst d. apply imageOfParts_first in E.
  now destruct E as (pre & mime & post & _ & Hne & _).
Qed.

(** [generateSlide] issues one request, whose prompt holds the title and
    the first 500 code units of the analysis at most.  It returns data
    exactly when the answer is there and, of the parts of its candidates
    taken in order, the first that carries data carries that data, which
    is never empty; with no such part it rejects with "No image
        generated", and it rejects as the request does. *)
Theorem generateSlide_outcome :
  forall (chapterTitle analysisText : str),
    let request := slideRequest chapterTitle analysisText in
    let run := generateSlide generateContent chapterTitle analysisText in
    fst run = [request]
    /\ imagePrompt request
       = slidePromptOpening ++ dquote ++ chapterTitle ++ dquote
         ++ slidePromptThemes ++ firstn 500 analysisText ++ slidePromptStyle
    /\ (forall data,
           snd run = Normal data <->
           exists answer pre mime post,
             generateContent request = Fulfilled answer
             /\ concat (map partsOf (candidatesOf answer))
                = pre ++ InlineData mime data :: post
             /\ data <> []
             /\ Forall (fun p => dataOf p = None) pre)
    /\ (forall answer,
           generateContent request = Fulfilled answer ->
           Forall (fun p => dataOf p = None)
                  (concat (map partsOf (candidatesOf answer))) ->
           snd run = Throw (Error "No image generated"))
    /\ (forall e, generateContent request = Failed e -> snd run = Throw e).
Proof.
  intros chapterTitle analysisText request run. subst run.
  unfold generateSlide. fold request. cbn [fst snd].
  split; [reflexivity|]. split.
  { reflexivity. }
  split; [|split].
  - intros data. destruct (generateContent request) as [answer|e]; cbn [await].
    + rewrite imageOfCandidates_flat.
      destruct (imageOfParts (concat (map partsOf (candidatesOf answer))))
        as [d|] eqn:E.
      * split.
        -- intros H. inversion H; subst d. apply imageOfParts_first in E.
           destruct E as (pre & mime & post & H1 & H2 & H3).
           exists answer, pre, mime, post. auto.
        -- intros (answer' & pre & mime & post & Ha & H1 & H2 & H3).
           inversion Ha; subst answer'.
           assert (E' : imageOfParts (concat (map partsOf (candidatesOf answer)))
                        = Some data)
             by (apply imageOfParts_first; exists pre, mime, post; auto).
           congruence.
      * split; [discriminate|].
        intros (answer' & pre & mime & post & Ha & H1 & H2 & H3).
        inversion Ha; subst answer'.
        assert (E' : imageOfParts (concat (map partsOf (candidatesOf answer)))
                     = Some data)
          by (apply imageOfParts_first; exists pre, mime, post; auto).
        congruence.
    + split; [discriminate|]. intros (answer & ? & ? & ? & H & _). discriminate.
  - intros answer -> Hnone. cbn [await]. rewrite imageOfCandidates_flat.
    destruct (imageOfParts (concat (map partsOf (candidatesOf answer))))
      as [d|] eqn:E; [|reflexivity].
    apply imageOfParts_first in E. destruct E as (pre & mime & post & H1 & H2 & _).
    rewrite H1 in Hnone. apply Forall_app in Hnone. destruct Hnone as [_ Hn].
    inversion Hn as [|? ? Hd _]; subst. cbn in Hd. destruct d; congruence.
  - intros e ->. reflexivity.
Qed.

(** [handleGenerateSlide] asks for a slide only when none is shown: with
    a slide there it issues no request and changes nothing.  Otherwise it
    issues the one request of [generateSlide]; it ends with the flag of
    generation down, and either a slide that is not empty and no alert,
    or the slide state it had and one alert. *)
Theorem handleGenerateSlide_outcome :
  forall (chapter : Chapter) (analysis : str) (st : slideState),
    let out := handleGenerateSlide generateContent chapter analysis st in
    match slideImage st with
    | Some (c :: image) =>
        issued out = [] /\ alerts out = [] /\ after out = st
    | _ =>
        issued out = [slideRequest (title chapter) analysis]
        /\ isGeneratingSlide (after out) = false
        /\ ((exists c image,
                slideImage (after out) = Some (c :: image) /\ alerts out = []
                /\ snd (generateSlide generateContent (title chapter) analysis)
                   = Normal (c :: image))
            \/ (slideImage (after out) = slideImage st
                /\ alerts out = [lit "Failed to generate slide. Please try again."]))
    end.
Proof.
  intros chapter analysis st out. subst out. unfold handleGenerateSlide.
  assert (Hrun : forall img,
    slideImage st = img -> JS.truthy img = false ->
    let out :=
      (let (requests, done) := generateSlide generateContent (title chapter) analysis in
       match done with
       | Normal base64 =>
           {| issued := requests; alerts := [];
              after := {| slideImage := Some base64; isGeneratingSlide := false |} |}
       | _ =>
           {| issued := requests;
              alerts := [lit "Failed to generate slide. Please try again."];
              after := {| slideImage := slideImage st; isGeneratingSlide := false |} |}
       end) in
    issued out = [slideRequest (title chapter) analysis]
    /\ isGeneratingSlide (after out) = false
    /\ ((exists c image,
            slideImage (after out) = Some (c :: image) /\ alerts out = []
            /\ snd (generateSlide generateContent (title chapter) analysis)
               = Normal (c :: image))
        \/ (slideImage (after out) = slideImage st
            /\ alerts out = [lit "Failed to generate slide. Please try again."]))).
  { intros img _ _.
    destruct (generateSlide_run (title chapter) analysis) as (Hreq & Hdata).
    destruct (generateSlide generateContent (title chapter) analysis)
      as [requests done]. cbn [fst snd] in *. subst requests.
    destruct done as [base64|e|]; cbn [issued alerts after slideImage isGeneratingSlide];
      (split; [reflexivity|]);
      (split; [reflexivity|]); [left|right; auto|right; auto].
    pose proof (Hdata base64 eq_refl) as Hne.
    destruct base64 as [|c image]; [congruence|]. exists c, image. auto. }
  destruct (slideImage st) as [[|c image]|] eqn:E; cbn [JS.truthy].
  - exact (Hrun _ eq_refl eq_refl).
  - auto.
  - exact (Hrun _ eq_refl eq_refl).
Qed.

End Remote.
End SlideFacts.

(* ------------------------------------------------------------------ *)
(** ** Decoding the speech for playback *)

Module PlaybackFacts.
Import GeminiService AnalysisView AudioFacts SpeechFacts Base64Facts.

Lemma bytes_of_binary (bytes : Uint8Array) :
  map byte_of_ascii (map ascii_of_byte bytes) = bytes.
Proof.
  rewrite map_map. rewrite <- (map_id bytes) at 2. apply map_ext.
  intros b. apply byte_of_ascii_of_byte.
Qed.

Lemma earlier_decodeBase64_spec (binary : str) :
  EarlierView.decodeBase64 (Base64.btoa binary) = Normal (map byte_of_ascii binary).
Proof.
  unfold EarlierView.decodeBase64. rewrite atob_btoa. cbn [bindC].
  rewrite map_nth_seq by lia. now rewrite firstn_all.
Qed.

Lemma earlier_decodeAudioData_mono (data : Uint8Array) :
  EarlierView.decodeAudioData data 24000 1 = decodeAudioData data.
Proof. reflexivity. Qed.

Lemma pairs_ind {A : Type} (P : list A -> Prop) :
  P [] -> (forall a, P [a]) -> (forall a b r, P r -> P (a :: b :: r)) ->
  forall l, P l.
Proof.
  intros H0 H1 H2. fix IH 1.
  intros [|a [|b r]]; [exact H0|exact (H1 a)|exact (H2 a b r (IH r))].
Qed.

(** Bytes in pairs make the same samples with or without a last byte
    alone. *)
Lemma int16s_whole (bytes : list Byte.byte) :
  int16s (firstn (length bytes - length bytes mod 2) bytes) = int16s bytes.
Proof.
  induction bytes as [| a | a b l IH] using pairs_ind; [reflexivity|reflexivity|].
  assert (E : length (a :: b :: l) - length (a :: b :: l) mod 2
              = S (S (length l - length l mod 2))).
  { cbn [length]. pose proof (Nat.mod_upper_bound (length l) 2).
    replace (S (S (length l))) with (length l + 1 * 2) by lia.
    rewrite Nat.Div0.mod_add. lia. }
  rewrite E. cbn [firstn int16s]. now rewrite IH.
Qed.

Lemma even_trim_length (n : nat) :
  Nat.even (n - n mod 2) = true /\ (2 <= n -> n - n mod 2 <> 0).
Proof.
  pose proof (Nat.mod_upper_bound n 2). split; [|lia].
  apply Nat.even_spec. exists (n / 2).
  pose proof (Nat.div_mod_eq n 2). lia.
Qed.

(** Decoding the text, then the samples, as the view does: of a payload of
    two bytes or more the buffer holds the samples of its pairs of bytes;
    a shorter payload is refused. *)
Lemma decode_payload (payload : Uint8Array) :
  bindC (decodeBase64 (Base64.btoa (map ascii_of_byte payload))) decodeAudioData
  = if 2 <=? length payload
    then Normal {| numberOfChannels := 1; sampleRate := 24000%N;
                   channelData := [map normalize (int16s payload)] |}
    else Throw NotSupportedError.
Proof.
  rewrite decodeBase64_spec, atob_btoa. cbn [bindC].
  rewrite <- firstn_map, bytes_of_binary, length_map.
  destruct (even_trim_length (length payload)) as [He Hn].
  destruct (2 <=? length payload) eqn:E.
  - apply Nat.leb_le in E. rewrite decodeAudioData_even.
    + now rewrite int16s_whole.
    + intros H. apply (f_equal (@length Byte.byte)) in H.
      rewrite length_firstn in H. cbn [length] in H. lia.
    + rewrite length_firstn. now replace (Nat.min _ _) with
          (length payload - length payload mod 2) by lia.
  - apply Nat.leb_gt in E.
    assert (H0 : length payload - length payload mod 2 = 0).
    { destruct payload as [|a [|b l]]; cbn [length] in *; try reflexivity. lia. }
    rewrite H0. reflexivity.
Qed.

(** The view as it was first keeps every byte of the audio, and so cannot
    play a payload of an odd number of bytes: the view of 16-bit samples
    is refused with a [RangeError].  A payload of an even number of bytes,
    not empty, gives the samples of its pairs of bytes.  The later view,
    which leaves out an odd last byte, decodes every payload of two bytes
    or more. *)
Theorem earlier_view_odd_payload :
  forall (payload : Uint8Array),
    let base64Audio := Base64.btoa (map ascii_of_byte payload) in
    EarlierView.decodeBase64 base64Audio = Normal payload
    /\ (Nat.even (length payload) = false ->
        EarlierView.decodeSpeech base64Audio = Throw RangeError)
    /\ (Nat.even (length payload) = true -> payload <> [] ->
        EarlierView.decodeSpeech base64Audio
        = Normal {| numberOfChannels := 1; sampleRate := 24000%N;
                    channelData := [map normalize (int16s payload)] |})
    /\ (2 <= length payload ->
        bindC (decodeBase64 base64Audio) decodeAudioData
        = Normal {| numberOfChannels := 1; sampleRate := 24000%N;
                    channelData := [map normalize (int16s payload)] |}).
Proof.
  intros payload base64Audio. subst base64Audio.
  assert (Hd : EarlierView.decodeBase64 (Base64.btoa (map ascii_of_byte payload))
               = Normal payload)
    by (now rewrite earlier_decodeBase64_spec, bytes_of_binary).
  split; [exact Hd|]. unfold EarlierView.decodeSpeech. rewrite Hd. cbn [bindC].
  rewrite earlier_decodeAudioData_mono. split; [|split].
  - intros H. unfold decodeAudioData, newInt16Array. now rewrite H.
  - intros He Hn. now apply decodeAudioData_even.
  - intros H. rewrite decode_payload. apply Nat.leb_le in H. now rewrite H.
Qed.

Section Remote.
Variable generateContent : request -> settled response.

(** What the chunked [generateSpeech] returns: the base64 text of the
    audio of its chunks. *)
Lemma generateSpeech_output (text : str) :
  (forall out,
      snd (generateSpeech generateContent text) = Normal out ->
      out = uint8ArrayToBase64
              (concat (flat_map (audioOf generateContent)
                         (filter spoken (chunksOf (prepareTextForSpeech text))))))
  /\ snd (generateSpeech generateContent text) <> OutOfFuel.
Proof.
  unfold generateSpeech.
  destruct (speakChunks_order generateContent
              (chunksOf (prepareTextForSpeech text)) [])
    as (_ & Hdone & Ht).
  unfold bind.
  destruct (speakChunks generateContent (chunksOf (prepareTextForSpeech text)) [])
    as [issued done].
  cbn [fst snd] in *. destruct done as [segments|e|]; [| |congruence].
  - destruct (Hdone segments eq_refl) as [_ Hs]. cbn [app] in Hs.
    destruct segments as [|seg segs]; cbn [throw ret fst snd].
    + split; discriminate.
    + split; [|discriminate]. intros out H. inversion H. rewrite <- Hs. reflexivity.
  - cbn [fst snd]. split; discriminate.
Qed.

(** [prepareAudio] with the chunked [generateSpeech].  With a buffer in
    the state it issues no request and returns that buffer.  Without, it
    issues the requests of [generateSpeech]; when that returns, the
    buffer holds one sample for each pair of bytes of the audio of the
    chunks in order (a last byte alone is left out), at 24000 Hz on one
    channel, and it is stored with its duration; when that rejects, or
    the audio has fewer than two bytes, it returns [null] with one
    alert and leaves the buffer of the state as it was.  It never
    rejects, and it ends with the flag of generation down. *)
Theorem prepareAudio_outcome :
  forall (analysis : str) (st : Player.audioState),
    let speech := generateSpeech generateContent analysis in
    let run := Player.prepareAudio (generateSpeech generateContent) analysis st in
    let bytes :=
      concat (flat_map (audioOf generateContent)
                       (filter spoken (chunksOf (prepareTextForSpeech analysis)))) in
    let samples := map normalize (int16s bytes) in
    let buffer := {| numberOfChannels := 1; sampleRate := 24000%N;
                     channelData := [samples] |} in
    match Player.audioBuffer st with
    | Some cached =>
        run = ([], Normal {| Player.returned := Some cached; Player.alerts := [];
                             Player.after :=
                               {| Player.audioBuffer := Some cached;
                                  Player.duration := Player.duration st;
                                  Player.isGeneratingAudio := false |} |})
    | None =>
        fst run = fst speech
        /\ exists out,
            snd run = Normal out
            /\ Player.isGeneratingAudio (Player.after out) = false
            /\ match snd speech with
               | Normal _ =>
                   if 2 <=? length bytes then
                     Player.returned out = Some buffer
                     /\ Player.alerts out = []
                     /\ Player.audioBuffer (Player.after out) = Some buffer
                     /\ Player.duration (Player.after out)
                        = (inject_Z (Z.of_nat (length bytes / 2)) / 24000)%Q
                     /\ length samples = length bytes / 2
                   else
                     Player.returned out = None
                     /\ Player.alerts out
                        = [lit "Could not generate audio. Please try again."]
                     /\ Player.audioBuffer (Player.after out) = None
               | _ =>
                   Player.returned out = None
                   /\ Player.alerts out
                      = [lit "Could not generate audio. Please try again."]
                   /\ Player.audioBuffer (Player.after out) = None
               end
    end.
Proof.
  intros analysis st speech run bytes samples buffer.
  subst run. unfold Player.prepareAudio.
  destruct (Player.audioBuffer st) as [cached|] eqn:Hc; [reflexivity|].
  destruct (generateSpeech_output analysis) as (Hout & Ht).
  fold speech in Hout, Ht |- *.
  destruct speech as [issued done]. cbn [fst snd] in *. unfold bind.
  destruct done as [base64Audio|e|]; [| |congruence].
  - rewrite (Hout base64Audio eq_refl). fold bytes.
    rewrite uint8ArrayToBase64_spec. unfold lift.
    rewrite decode_payload. rewrite app_nil_r. fold samples. fold buffer.
    destruct (2 <=? length bytes) eqn:E; cbn [fst snd].
    + split; [reflexivity|]. eexists. split; [reflexivity|].
      cbn [Player.after Player.returned Player.alerts Player.audioBuffer
           Player.duration Player.isGeneratingAudio].
      split; [reflexivity|]. split; [reflexivity|]. split; [reflexivity|].
      split; [reflexivity|].
      assert (Hl : length samples = length bytes / 2)
        by (subst samples; now rewrite length_map, int16s_length).
      split; [|exact Hl].
      unfold Player.durationOf. subst buffer. cbn [channelData nth sampleRate].
      now rewrite Hl.
    + split; [reflexivity|]. eexists. split; [reflexivity|].
      cbn [Player.after Player.returned Player.alerts Player.audioBuffer
           Player.isGeneratingAudio].
      repeat split.
  - cbn [fst snd]. split; [reflexivity|]. eexists. split; [reflexivity|].
    cbn [Player.after Player.returned Player.alerts Player.audioBuffer
         Player.isGeneratingAudio].
    repeat split.
Qed.

End Remote.
End PlaybackFacts.

(* ------------------------------------------------------------------ *)
(** ** The blocks of an analysis *)

Module BlockFacts.
Import RegExp RegExpFacts GeminiService Player CleaningFacts.

Lemma blankLines_not_nullable : nullable blankLines = false.
Proof. reflexivity. Qed.

(** The pieces of [split], put together, are the text without what the
    pattern matched. *)
Lemma splitFrom_concat (fl : flags) (r : re) (s : str) :
  nullable r = false ->
  forall (prev : option ascii) (cur : str) (skip : nat),
    concat (splitFrom fl r prev s cur skip)
    = cur ++ replaceFrom fl r drop prev s skip.
Proof.
  intros Hn. induction s as [|c s IH]; intros prev cur skip.
  - cbn [splitFrom concat]. f_equal.
    destruct skip; cbn [replaceFrom]; [|reflexivity].
    destruct (matchAt fl r prev []) as [[n cap]|]; reflexivity.
  - destruct skip as [|k]; cbn [splitFrom replaceFrom]; [|apply IH].
    destruct (matchAt fl r prev (c :: s)) as [[[|n] cap]|] eqn:E.
    + apply matchAt_bounds in E. destruct E as [_ E]. specialize (E Hn). lia.
    + cbn [concat drop app]. now rewrite IH.
    + rewrite IH, <- app_assoc. reflexivity.
Qed.

Lemma split_concat (fl : flags) (r : re) (s : str) :
  nullable r = false ->
  concat (RegExp.split fl r s) = replaceAll fl r drop s.
Proof.
  intros Hn. unfold RegExp.split, replaceAll. destruct s as [|c s].
  - cbn [replaceFrom]. destruct (matchAt fl r None []) as [[n cap]|]; reflexivity.
  - now rewrite splitFrom_concat.
Qed.

Lemma concat_truthy (l : list str) :
  concat (filter (fun block => JS.truthy (Some block)) l) = concat l.
Proof.
  induction l as [|b l IH]; [reflexivity|].
  destruct b as [|c b]; simpl; [exact IH|]. do 2 f_equal. exact IH.
Qed.

Lemma replaceFrom_drop_length (fl : flags) (r : re) (s : str) :
  forall prev skip, length (replaceFrom fl r drop prev s skip) <= length s.
Proof.
  induction s as [|c s IH]; intros prev skip.
  - destruct skip; cbn [replaceFrom]; [|cbn; lia].
    destruct (matchAt fl r prev []) as [[n cap]|]; cbn; lia.
  - destruct skip as [|k]; cbn [replaceFrom].
    + destruct (matchAt fl r prev (c :: s)) as [[[|n] cap]|]; cbn [drop app length].
      * specialize (IH (Some c) 0). lia.
      * specialize (IH (Some c) n). lia.
      * specialize (IH (Some c) 0). lia.
    + specialize (IH (Some c) k). cbn [length]. lia.
Qed.

Lemma hasBlankLine_snoc (cur : str) (c : ascii) :
  hasBlankLine cur = false ->
  (forall l, cur = l ++ [ascii_of_nat 10] -> c <> ascii_of_nat 10) ->
  hasBlankLine (cur ++ [c]) = false.
Proof.
  induction cur as [|a cur IH]; intros H Hl; [reflexivity|].
  destruct cur as [|b cur].
  - cbn. rewrite orb_false_r. apply andb_false_iff.
    destruct (Ascii.eqb a (ascii_of_nat 10)) eqn:Ea; [|now left]. right.
    apply Ascii.eqb_eq in Ea. subst a. apply Ascii.eqb_neq. now apply (Hl []).
  - change (hasBlankLine ((a :: b :: cur) ++ [c]))
      with ((Ascii.eqb a (ascii_of_nat 10) && Ascii.eqb b (ascii_of_nat 10))
            || hasBlankLine ((b :: cur) ++ [c])).
    change (hasBlankLine (a :: b :: cur))
      with ((Ascii.eqb a (ascii_of_nat 10) && Ascii.eqb b (ascii_of_nat 10))
            || hasBlankLine (b :: cur)) in H.
    apply orb_false_iff in H. destruct H as [H1 H2]. rewrite H1. cbn [orb].
    apply IH; [exact H2|]. intros l E. apply (Hl (a :: l)). now rewrite E.
Qed.

(** Two line feeds in a row are a match of the pattern. *)
Lemma blankLines_match (prev : option ascii) (s : str) :
  matchAt noFlags blankLines prev (ascii_of_nat 10 :: ascii_of_nat 10 :: s) <> None.
Proof.
  unfold matchAt, blankLines. cbn [run]. cbn [sameChar ignoreCase noFlags].
  rewrite Ascii.eqb_refl. unfold plus.
  apply rep_accepts_one; [discriminate|reflexivity|reflexivity].
Qed.

(** No piece of the split holds a blank line. *)
Lemma splitFrom_blocks (s : str) :
  forall (prev : option ascii) (cur : str) (skip : nat),
    hasBlankLine cur = false ->
    (skip = 0 -> forall l t, cur = l ++ [ascii_of_nat 10] ->
                             s <> ascii_of_nat 10 :: t) ->
    (skip <> 0 -> cur = []) ->
    Forall (fun b => hasBlankLine b = false)
           (splitFrom noFlags blankLines prev s cur skip).
Proof.
  induction s as [|c s IH]; intros prev cur skip Hc Hend Hskip.
  - cbn. auto.
  - destruct skip as [|k]; cbn [splitFrom].
    + destruct (matchAt noFlags blankLines prev (c :: s)) as [[[|n] cap]|] eqn:E.
      * apply matchAt_bounds in E. destruct E as [_ E].
        specialize (E blankLines_not_nullable). lia.
      * apply Forall_cons; [exact Hc|]. apply IH; [reflexivity| |reflexivity].
        intros _ l t H. destruct l; discriminate.
      * apply IH.
        -- apply hasBlankLine_snoc; [exact Hc|].
           intros l Hl ->. now apply (Hend eq_refl l s).
        -- intros _ l t Hl Hs. subst s. apply app_inj_tail in Hl.
           destruct Hl as [_ ->]. now apply blankLines_match in E.
        -- congruence.
    + rewrite (Hskip (Nat.neq_succ_0 k)). apply IH; [reflexivity| |reflexivity].
      intros _ l t H. destruct l; discriminate.
Qed.

Lemma blockEntries_spec (blocks : list str) :
  forall (i : nat) (entries : list blockEntry) (total : nat),
    blockEntries blocks i entries total
    = (entries
         ++ map (fun k => {| endChar := total + length (concat (firstn (S k) blocks));
                             index := i + k |})
                (seq 0 (length blocks)),
       total + length (concat blocks)).
Proof.
  induction blocks as [|b blocks IH]; intros i entries total.
  - cbn. now rewrite app_nil_r, Nat.add_0_r.
  - cbn [blockEntries]. rewrite IH. cbn [length seq map concat firstn].
    rewrite <- app_assoc. cbn [app]. f_equal.
    + f_equal. rewrite Nat.add_0_r. f_equal.
      * now rewrite app_nil_r.
      * rewrite <- seq_shift, map_map. apply map_ext. intros k.
        cbn [firstn concat]. rewrite length_app. f_equal; lia.
    + rewrite length_app. lia.
Qed.

Lemma prefix_grows (blocks : list str) :
  Forall (fun b : str => b <> []) blocks ->
  forall m m',
    m < m' -> m' <= length blocks ->
    length (concat (firstn m blocks)) < length (concat (firstn m' blocks)).
Proof.
  induction 1 as [|b blocks Hb _ IH]; intros m m' Hlt Hle; [cbn in Hle; lia|].
  destruct m' as [|m1]; [lia|]. cbn [firstn concat]. rewrite length_app.
  assert (0 < length b) by (destruct b; [congruence|cbn; lia]).
  destruct m as [|m0]; [cbn; lia|]. cbn [firstn concat]. rewrite length_app.
  cbn [length] in Hle. specialize (IH m0 m1). lia.
Qed.

Lemma nth_error_map_seq {A : Type} (g : nat -> A) (n j : nat) (a : A) :
  nth_error (map g (seq 0 n)) j = Some a -> j < n /\ a = g j.
Proof.
  intros H. assert (Hj : j < n).
  { assert (Hs : nth_error (map g (seq 0 n)) j <> None) by congruence.
    apply nth_error_Some in Hs. now rewrite length_map, length_seq in Hs. }
  split; [exact Hj|].
  rewrite nth_error_map, nth_error_seq in H.
  assert (E : (j <? n) = true) by now apply Nat.ltb_lt.
  rewrite E in H. cbn in H. congruence.
Qed.

(** The blocks of an analysis are never empty and hold no blank line; in
    order they make up the analysis without its runs of two line feeds or
    more.  The map gives each block its position in the list and the
    number of code units up to its end, which grows from block to block,
    and the total is the number of code units of all blocks. *)
Theorem contentBlocks_cover :
  forall (analysis : str),
    let blocks := contentBlocks analysis in
    let entries := fst (blockMap blocks) in
    let totalChars := snd (blockMap blocks) in
    Forall (fun b => b <> [] /\ hasBlankLine b = false) blocks
    /\ concat blocks = replaceAll noFlags blankLines drop analysis
    /\ totalChars = length (concat blocks)
    /\ totalChars <= length analysis
    /\ map index entries = seq 0 (length blocks)
    /\ map endChar entries
       = map (fun k => length (concat (firstn (S k) blocks)))
             (seq 0 (length blocks))
    /\ forall j k a b,
         j < k ->
         nth_error (map endChar entries) j = Some a ->
         nth_error (map endChar entries) k = Some b ->
         a < b.
Proof.
  intros analysis blocks entries totalChars.
  assert (Hspec : blockMap blocks
                  = (map (fun k => {| endChar := length (concat (firstn (S k) blocks));
                                      index := k |})
                         (seq 0 (length blocks)),
                     length (concat blocks)))
    by (unfold blockMap; now rewrite blockEntries_spec).
  assert (Hblocks : Forall (fun b => b <> [] /\ hasBlankLine b = false) blocks
                    /\ concat blocks = replaceAll noFlags blankLines drop analysis).
  { subst blocks. unfold contentBlocks. destruct analysis as [|c a].
    - cbn [JS.truthy negb]. split; [constructor|]. unfold replaceAll.
      cbn [replaceFrom concat].
      destruct (matchAt noFlags blankLines None []) as [[n cap]|]; reflexivity.
    - cbn [JS.truthy negb]. split.
      + apply Forall_forall. intros b Hb. apply filter_In in Hb.
        destruct Hb as [Hin Ht]. split; [destruct b; [discriminate|congruence]|].
        clear Ht. revert b Hin. apply Forall_forall. unfold RegExp.split.
        apply splitFrom_blocks; [reflexivity| |congruence].
        intros _ l t H. destruct l; discriminate.
      + rewrite concat_truthy. apply split_concat. reflexivity. }
  destruct Hblocks as [Hall Hcat]. subst entries totalChars. rewrite Hspec.
  cbn [fst snd]. split; [exact Hall|]. split; [exact Hcat|].
  split; [reflexivity|]. split.
  { rewrite Hcat. apply replaceFrom_drop_length. }
  split.
  { rewrite map_map. cbn [index]. apply map_id. }
  split.
  { rewrite map_map. reflexivity. }
  intros j k a b Hjk Ha Hb. rewrite map_map in Ha, Hb. cbn [endChar] in Ha, Hb.
  apply nth_error_map_seq in Ha, Hb. destruct Ha as [_ ->], Hb as [Hk ->].
  apply prefix_grows; [|lia|lia].
  apply Forall_impl with (2 := Hall). now intros x [Hx _].
Qed.

End BlockFacts.

(* ------------------------------------------------------------------ *)
(** ** How the handlers end *)

Module OutcomeFacts.
Import GeminiService App HandlerFacts SessionFacts Ui.


Section Remote.
Variable generateContent : request -> settled response.
Variable parseChapters : str -> settled (list Chapter).
Variable pdfjsLib : bool.


End Remote.

Section Analysis.
Variable generateContent : request -> settled response.



End Analysis.
End OutcomeFacts.

(* ------------------------------------------------------------------ *)
(** ** How the handlers of the page end *)

Module HandlerOutcomes.
Import GeminiService App HandlerFacts SessionFacts Ui OutcomeFacts.

Section Analysis.
Variable generateContent : request -> settled response.



End Analysis.

Section Upload.
Variable generateContent : request -> settled response.
Variable parseChapters : str -> settled (list Chapter).
Variable pdfjsLib : bool.


End Upload.
End HandlerOutcomes.

(* ------------------------------------------------------------------ *)
(** ** The App of one book *)

Module SingleBookFacts.
Import GeminiService App HandlerFacts.

Section Remote.
Variable generateContent : request -> settled response.
Variable parseChapters : str -> settled (list Chapter).
Variable pdfjsLib : bool.

Lemma markScanned_spec (text : str) (isScanned : bool) (st : state) :
  isScannedMode st = false ->
  isScannedMode (SingleBook.markScanned text isScanned st)
  = isScanned || (length text <? 500).
Proof.
  intros H. unfold SingleBook.markScanned.
  destruct isScanned; [reflexivity|].
  destruct (length text <? 500); [reflexivity|exact H].
Qed.

(** The App of one book decides the scanned mode as the library does,
    by the extractor's flag or a text under 500 code units, but asks for
    the chapters by the flag alone: a document that is not flagged and
    has a short text is put in scanned mode and yet identified from its
    text, with no document bytes, where the library sends the bytes. *)
Theorem single_book_identifies_by_flag :
  forall (file : File) (now now' : nat) (st : state) (base64 : option str)
         (ex : PdfService.extraction),
    PdfService.convertFileToBase64 (dataUrl file) = Normal base64 ->
    PdfService.extractTextFromPDF pdfjsLib (pdf file) = Normal ex ->
    let text := PdfService.text ex in
    let flagged := PdfService.isScanned ex in
    let scanned := flagged || (length text <? 500) in
    (exists st',
        SingleBook.handleFileSelect generateContent parseChapters pdfjsLib file st
        = ([identifyRequest (if flagged then [] else text)
                            (if flagged then base64 else None)],
           Normal st')
        /\ isScannedMode st' = scanned
        /\ loading st' = false
        /\ (error st' = [] -> step st' = chaptersStep /\ chapters st' <> []))
    /\ fst (handleFileSelect generateContent parseChapters pdfjsLib file now now' st)
       = [identifyRequest (if scanned then [] else text)
                          (if scanned then base64 else None)]
    /\ (flagged = false -> length text < 500 ->
        scanned = true
        /\ parts (identifyRequest (if flagged then [] else text)
                                  (if flagged then base64 else None))
           = [TextPart (textIdentifyPrompt (firstn 60000 text));
              TextPart listInstruction]).
Proof.
  intros file now now' st base64 ex Hc He text flagged scanned.
  split; [|split].
  - unfold SingleBook.handleFileSelect, SingleBook.processFile.
    rewrite Hc, He. fold text. fold flagged.
    destruct (identify_issues generateContent parseChapters
                (if flagged then [] else text)
                (if flagged then base64 else None)) as (done & -> & Hd).
    assert (Hm : forall s, isScannedMode s = false ->
                           isScannedMode (SingleBook.markScanned text flagged s)
                           = scanned)
      by (intros s Hs; now apply markScanned_spec).
    assert (Hfb : lit "Failed to process the book." <> []) by discriminate.
    destruct done as [identified|e|]; [| |congruence].
    + destruct identified as [|c identified]; cbn [length Nat.eqb].
      * eexists. split; [reflexivity|]. cbn [apply fold_left].
        split; [apply Hm; reflexivity|]. split; [reflexivity|].
        intros E. exfalso. revert E. cbn. discriminate.
      * eexists. split; [reflexivity|]. cbn [apply fold_left].
        split; [apply Hm; reflexivity|]. split; [reflexivity|].
        intros _. split; [reflexivity|discriminate].
    + eexists. split; [reflexivity|]. cbn [apply fold_left].
      split; [apply Hm; reflexivity|]. split; [reflexivity|].
      intros E. exfalso. revert E.
      change (error _) with (orElse (messageOf e) (lit "Failed to process the book.")).
      destruct (messageOf e); discriminate.
  - destruct (@handleFileSelect_decides generateContent parseChapters pdfjsLib
                file now now' st base64 ex Hc He) as (st' & -> & _).
    reflexivity.
  - intros Hf Hlen. subst scanned. rewrite Hf. cbn [orb].
    split; [now apply Nat.ltb_lt|]. reflexivity.
Qed.

End Remote.
End SingleBookFacts.

(* ------------------------------------------------------------------ *)
(** ** The library and the list of chapters *)

Module LibraryFacts.
Import GeminiService App HandlerFacts SessionFacts.

Lemma filter_idem {A : Type} (f : A -> bool) (l : list A) :
  filter f (filter f l) = filter f l.
Proof.
  induction l as [|x l IH]; [reflexivity|]. cbn [filter].
  destruct (f x) eqn:E; [|exact IH]. cbn [filter]. now rewrite E, IH.
Qed.

(** After [removeSession] no session of the library has the id removed and
    the active id is not that id; removing the same id again changes
    nothing; and the sessions left are those of before, in their order. *)
Theorem removeSession_removes :
  forall (sessionId : str) (st : state),
    let st' := removeSession sessionId st in
    Forall (fun s => id s <> sessionId) (sessions st')
    /\ activeSessionId st' <> Some sessionId
    /\ removeSession sessionId st' = st'
    /\ sessions st' = filter (fun s => negb (JS.eqb (id s) sessionId)) (sessions st).
Proof.
  intros sessionId st st'.
  set (keep := fun s : BookSession => negb (JS.eqb (id s) sessionId)).
  assert (Hs : sessions st' = filter keep (sessions st)).
  { subst st'. unfold removeSession. fold keep.
    destruct (isActive sessionId (activeSessionId st)); [|reflexivity].
    destruct (filter keep (sessions st)); reflexivity. }
  assert (Hall : Forall (fun s => id s <> sessionId) (filter keep (sessions st))).
  { apply Forall_forall. intros s Hin. apply filter_In in Hin.
    destruct Hin as [_ Hk]. unfold keep in Hk. apply negb_true_iff in Hk.
    intros E. apply eqb_eq in E. congruence. }
  assert (Hact : activeSessionId st' <> Some sessionId).
  { subst st'. unfold removeSession. fold keep.
    destruct (isActive sessionId (activeSessionId st)) eqn:E.
    - destruct (filter keep (sessions st)) as [|first rest] eqn:Ef.
      + cbn. discriminate.
      + cbn. inversion Hall as [|? ? Hf _]; subst. congruence.
    - cbn. intros H. apply isActive_spec in H. congruence. }
  split; [now rewrite Hs|]. split; [exact Hact|]. split; [|exact Hs].
  unfold removeSession at 1. fold keep.
  assert (E : isActive sessionId (activeSessionId st') = false).
  { destruct (isActive sessionId (activeSessionId st')) eqn:E; [|reflexivity].
    apply isActive_spec in E. congruence. }
  rewrite E, Hs, filter_idem, <- Hs. now destruct st'.
Qed.

(** The chapter that ends a chapter's text is the entry after the first
    one of the list with its number and its title: the last entry has
    none, and neither has a chapter that is not in the list, so that their
    text runs to the end of the document. *)
Theorem nextChapterOf_first_entry :
  forall (chapter : Chapter) (before after : list Chapter) (entry : Chapter),
    number entry = number chapter -> title entry = title chapter ->
    Forall (fun c => number c <> number chapter \/ title c <> title chapter)
           before ->
    nextChapterOf chapter (before ++ entry :: after) = hd_error after
    /\ nextChapterOf chapter before = None.
Proof.
  intros chapter before after entry Hn Ht Hb.
  assert (Hfind : forall i rest,
             findIndex chapter (before ++ rest) i
             = match findIndex chapter rest (i + length before) with
               | Some k => Some k
               | None => None
               end).
  { induction Hb as [|c before Hc _ IH]; intros i rest.
    - cbn. rewrite Nat.add_0_r. now destruct (findIndex chapter rest i).
    - cbn [app findIndex length].
      assert (E : JS.eqb (number c) (number chapter)
                  && JS.eqb (title c) (title chapter) = false).
      { apply andb_false_iff. destruct Hc as [Hc|Hc]; [left|right];
          (destruct (JS.eqb _ _) eqn:E; [apply eqb_eq in E; congruence|reflexivity]). }
      rewrite E, IH. now replace (S i + length before) with (i + S (length before)) by lia. }
  unfold nextChapterOf. split.
  - rewrite Hfind. cbn [findIndex Nat.add]. rewrite Hn, Ht.
    assert (E : forall s, JS.eqb s s = true) by (intros s; now apply eqb_eq).
    rewrite !E. cbn [andb]. rewrite length_app. cbn [length].
    destruct after as [|next after]; cbn [length hd_error].
    + assert (L : (S (length before) <? length before + 1) = false)
        by (apply Nat.ltb_ge; lia).
      now rewrite L.
    + assert (L : (S (length before) <? length before + S (S (length after))) = true)
        by (apply Nat.ltb_lt; lia).
      rewrite L. replace (S (length before)) with (length (before ++ [entry]))
        by (rewrite length_app; cbn; lia).
      change (before ++ entry :: next :: after)
        with (before ++ [entry] ++ next :: after).
      rewrite app_assoc, nth_error_app2, Nat.sub_diag by lia. reflexivity.
  - specialize (Hfind 0 []). rewrite app_nil_r in Hfind. rewrite Hfind. reflexivity.
Qed.

End LibraryFacts.

(* ------------------------------------------------------------------ *)
(** ** Bytes, base64 text and the layout of an extraction *)

Module BytesFacts.
Import GeminiService Base64 Base64Facts SpeechFacts.

Lemma encode_length (l : list nat) : length (encode l) = 4 * ((length l + 2) / 3).
Proof.
  induction l as [| a | a b | a b c r IH] using octet_triples;
    try reflexivity.
  cbn [encode length]. rewrite IH.
  replace (S (S (S (length r))) + 2) with ((length r + 2) + 1 * 3) by lia.
  rewrite Nat.div_add by lia. lia.
Qed.

(** The two conversions between bytes and base64 text are inverse on
    bytes: whatever the number of bytes, and so whatever the number of
    slices of 0x8000 bytes the text is built from, decoding the text of
    some bytes gives the bytes back; the text is padded base64, four code
    units for every three bytes begun. *)
Theorem uint8Array_base64_round_trip :
  forall (bytes : Uint8Array),
    base64ToUint8Array (uint8ArrayToBase64 bytes) = Normal bytes
    /\ uint8ArrayToBase64 bytes = btoa (map ascii_of_byte bytes)
    /\ length (uint8ArrayToBase64 bytes) = 4 * ((length bytes + 2) / 3).
Proof.
  intros bytes. split; [apply base64_of_bytes_decodes|].
  split; [apply uint8ArrayToBase64_spec|].
  rewrite uint8ArrayToBase64_spec. unfold btoa.
  now rewrite encode_length, !length_map.
Qed.

End BytesFacts.

Module LayoutFacts.
Import PdfService Layout.

(** The text of a page, and the block the loop writes for it. *)
Lemma readPages_layout (pages : list page) :
  forall (i : nat) (fullText : str) (total : nat),
    readPages pages i fullText total
    = (fullText ++ concat (map pageBlock (filter hasText (numbered i pages))),
       total + list_sum (map pageLength (filter hasText (numbered i pages)))).
Proof.
  induction pages as [|p pages IH]; intros i fullText total.
  - cbn. now rewrite app_nil_r, Nat.add_0_r.
  - cbn [readPages numbered]. destruct p as [items|].
    + cbn [filter].
      change (hasText (i, Some items))
        with (0 <? length (JS.trim (JS.join items (lit " ")))).
      destruct (0 <? length (JS.trim (JS.join items (lit " ")))) eqn:E.
      * rewrite IH. cbn [map concat list_sum].
        change (pageBlock (i, Some items))
          with (pageHeader i ++ [newline] ++ JS.join items (lit " ")
                ++ [newline; newline]).
        change (pageLength (i, Some items))
          with (length (JS.trim (JS.join items (lit " ")))).
        f_equal; [now rewrite <- !app_assoc|unfold list_sum; cbn [fold_right]; lia].
      * apply IH.
    + cbn [filter]. change (hasText (i, None)) with false. apply IH.
Qed.

(** The extraction, said without its loop: the pages are numbered from 1;
    those that could be read and hold text that is not blank each give a
    block, a header with the page's own number, the text and two line
    feeds; the text is the trimmed concatenation of the blocks, and the
    document is flagged when it has pages and the trimmed texts of its
    pages have fewer than 50 code units a page.  A page that cannot be
    read is passed over and does not make the extraction fail. *)
Theorem extraction_layout :
  forall (pages : list page),
    let kept := filter hasText (numbered 1 pages) in
    extractTextFromPDF true (Fulfilled pages)
    = Normal {| text := JS.trim (concat (map pageBlock kept));
                isScanned :=
                  (0 <? length pages)
                  && (list_sum (map pageLength kept) <? 50 * length pages) |}.
Proof.
  intros pages kept. unfold extractTextFromPDF. cbn [await bindC].
  rewrite readPages_layout. reflexivity.
Qed.

End LayoutFacts.

(* ------------------------------------------------------------------ *)
(** ** When the analysis of a chapter ends, and what it is given *)

Module CompletionFacts.
Import RegExp PdfService GeminiService App.
Import PatternFacts PdfServiceFacts NumberPrefixFacts HandlerFacts ResultFacts.
Import OutcomeFacts.

(** With fuel beyond the length of the text, the locator returns for a
    title that is not blank. *)
Lemma findChapterText_ends (fuel : nat) (fullText chapterTitle : str)
      (next : option str) :
  JS.trim chapterTitle <> [] ->
  length fullText < fuel ->
  exists result, findChapterText fuel fullText chapterTitle next = Normal result.
Proof.
  intros Hb Hfuel.
  assert (Hs : exists start,
             findStartIndex fuel fullText chapterTitle = Normal start).
  { unfold findStartIndex. rewrite newRegExp_flexible. cbn [bindC].
    destruct (@collectMatches_select (flexibleRegex chapterTitle) fullText fuel)
      as (matches & Hc & _); auto using flexibleRegex_not_nullable.
    rewrite Hc. cbn [bindC].
    destruct (pickStart matches (length fullText)); [eauto|].
    rewrite partialTitleStart_spec. cbn [bindC].
    match goal with |- context [match ?p with Some _ => _ | None => _ end] =>
      destruct p end; [eauto|].
    rewrite numberStart_spec by exact Hfuel. eauto. }
  destruct Hs as [start Hs]. unfold findChapterText. rewrite Hs. cbn [bindC].
  destruct start as [startIndex|]; [|eauto].
  destruct (findEndIndex_total fullText chapterTitle next startIndex) as [e He].
  rewrite He. cbn [bindC]. eauto.
Qed.

Section Remote.
Variable generateContent : request -> settled response.

Lemma analysisParts_ends (chapterTitle : str) (chapterText : option str)
      (type : AnalysisType) (pdfBase64 : option str) :
  analysisParts chapterTitle chapterText type pdfBase64 <> OutOfFuel.
Proof.
  assert (Hd : documentParts chapterTitle type pdfBase64 <> OutOfFuel).
  { unfold documentParts. destruct pdfBase64 as [data|]; [|discriminate].
    destruct (JS.truthy (Some data)); discriminate. }
  unfold analysisParts. destruct chapterText as [t|]; [|exact Hd].
  destruct (JS.truthy (Some t) && (100 <? length t)); [discriminate|exact Hd].
Qed.

Lemma analyzeChapterContent_ends (chapterTitle : str) (chapterText : option str)
      (type : AnalysisType) (pdfBase64 : option str) :
  snd (analyzeChapterContent generateContent chapterTitle chapterText type pdfBase64)
  <> OutOfFuel.
Proof.
  pose proof (@analysisParts_ends chapterTitle chapterText type pdfBase64) as Hp.
  unfold analyzeChapterContent.
  destruct (analysisParts chapterTitle chapterText type pdfBase64) as [ps|e|];
    [| cbn; discriminate | congruence].
  unfold lift, bind, call. cbn [fst snd].
  destruct (generateContent _) as [answer|e]; cbn [await snd]; [|discriminate].
  destruct (responseText answer) as [t|]; [|cbn; discriminate].
  destruct (JS.truthy (Some t)); cbn; discriminate.
Qed.

Lemma handleChapterAnalysis_isolated (fuel : nat) (chapter : Chapter)
      (type : AnalysisType) (st : state) (content : option str) :
  isolateChapter fuel st chapter = Normal content ->
  exists st',
    snd (handleChapterAnalysis generateContent fuel chapter type st) = Normal st'.
Proof.
  intros Hi. unfold handleChapterAnalysis. unfold bind at 1. unfold lift.
  rewrite Hi.
  pose proof (@analyzeChapterContent_ends (title chapter) content type
                (pdfBase64 st)) as Hn.
  destruct (analyzeChapterContent _ _ _ _ _) as [issued done]. cbn [snd app] in *.
  destruct done as [result|e|]; cbn [snd]; [eauto|eauto|congruence].
Qed.

(** When the analysis of a chapter ends.  In scanned mode it ends
    whatever the title, the locator not being run.  In text mode it ends
    for every title that is not blank, given fuel beyond the length of
    the text; for a blank title it does not end, whatever the fuel, and
    issues no request: the locator's loop never returns, and the handler
    does not get to its [await]. *)
Theorem handleChapterAnalysis_completion :
  forall (fuel : nat) (chapter : Chapter) (type : AnalysisType) (st : state),
    let run := handleChapterAnalysis generateContent fuel chapter type st in
    (isScannedMode st = true -> exists st', snd run = Normal st')
    /\ (isScannedMode st = false ->
        JS.trim (title chapter) <> [] ->
        length (pdfText st) < fuel ->
        exists st', snd run = Normal st')
    /\ (isScannedMode st = false ->
        JS.trim (title chapter) = [] ->
        run = ([], OutOfFuel)).
Proof.
  intros fuel chapter type st run. subst run. split; [|split].
  - intros Hm. apply handleChapterAnalysis_isolated with (content := None).
    unfold isolateChapter. now rewrite Hm.
  - intros Hm Hb Hfuel.
    destruct (@findChapterText_ends fuel (pdfText st) (title chapter)
                (option_map title (nextChapterOf chapter (chapters st))) Hb Hfuel)
      as [result Hr].
    apply handleChapterAnalysis_isolated
      with (content := if tooShort result then None else result).
    unfold isolateChapter. rewrite Hm, Hr. cbn [bindC].
    now destruct (tooShort result).
  - intros Hm Hb. unfold handleChapterAnalysis, isolateChapter.
    rewrite Hm, findChapterText_blank by exact Hb. reflexivity.
Qed.

(** The text the handler passes on for analysis, when it passes one, was
    found in text mode and is trimmed text of 200 to 1,000,020 code
    units. *)
Theorem isolateChapter_bounds :
  forall (fuel : nat) (st : state) (chapter : Chapter) (content : str),
    isolateChapter fuel st chapter = Normal (Some content) ->
    isScannedMode st = false
    /\ 200 <= length content
    /\ (N.of_nat (length content) <= 1000020)%N
    /\ JS.trim content = content
    /\ PdfService.findChapterText fuel (pdfText st) (title chapter)
         (option_map title (nextChapterOf chapter (chapters st)))
       = Normal (Some content).
Proof.
  intros fuel st chapter content. unfold isolateChapter.
  destruct (isScannedMode st); [discriminate|].
  destruct (findChapterText fuel (pdfText st) (title chapter)
              (option_map title (nextChapterOf chapter (chapters st))))
    as [result|e|] eqn:E; cbn [bindC]; try discriminate.
  destruct (tooShort result) eqn:Et; [discriminate|].
  intros H. inversion H; subst result.
  split; [reflexivity|]. split.
  { destruct (Nat.lt_ge_cases (length content) 200) as [Hlt|Hge]; [|exact Hge].
    assert (Ht : tooShort (Some content) = true) by now apply tooShort_spec.
    congruence. }
  pose proof (findChapterText_slice E) as (s & e & ->).
  split; [|split; [apply trim_trim|reflexivity]].
  pose proof (@capExtracted_length (JS.slice (pdfText st) s e)) as Hc.
  destruct (trim_split (capExtracted (JS.slice (pdfText st) s e))) as (a & b & Hs).
  apply (f_equal (@length ascii)) in Hs. rewrite !length_app in Hs.
  unfold CHAR_LIMIT in Hc. lia.
Qed.

End Remote.
End CompletionFacts.

(* ------------------------------------------------------------------ *)
(** ** What the page keeps while handlers wait *)

Module PageFacts.
Import GeminiService App HandlerFacts SessionFacts Ui.

(** [kept] reads five fields of the state. *)
Lemma kept_fields (st st' : state) :
  sessions st' = sessions st ->
  activeSessionId st' = activeSessionId st ->
  step st' = step st ->
  chapters st' = chapters st ->
  selectedChapter st' = selectedChapter st ->
  kept st -> kept st'.
Proof.
  intros H1 H2 H3 H4 H5. unfold kept. now rewrite H1, H2, H3, H4, H5.
Qed.

Lemma kept_initial : kept initial.
Proof.
  unfold kept, initial. cbn.
  split; [constructor|]. repeat split; discriminate.
Qed.

Lemma kept_loadSession (session : BookSession) (st : state) :
  Forall (fun s => sessionChapters s <> []) (sessions st) ->
  In session (sessions st) ->
  kept (loadSession session st).
Proof.
  intros Hs Hin. unfold kept. cbn.
  split; [exact Hs|]. split.
  { intros a H. inversion H; subst. exists session. auto. }
  repeat split; try discriminate.
Qed.

Lemma kept_handleUploadNew (st : state) : kept st -> kept (handleUploadNew st).
Proof.
  intros (Hs & _ & _ & _ & _ & _). unfold kept. cbn.
  split; [exact Hs|]. repeat split; try discriminate.
Qed.

Lemma kept_removeSession (sessionId : str) (st : state) :
  kept st -> kept (removeSession sessionId st).
Proof.
  intros Hk. pose proof Hk as (Hs & Ha & Hu & Hc & Hn & Hp).
  unfold removeSession.
  set (remaining := filter (fun s => negb (JS.eqb (id s) sessionId)) (sessions st)).
  assert (Hr : Forall (fun s => sessionChapters s <> []) remaining).
  { apply Forall_forall. intros s H. apply filter_In in H.
    destruct H as [H _]. revert s H. now apply Forall_forall. }
  destruct (isActive sessionId (activeSessionId st)) eqn:E.
  - destruct remaining as [|first rest] eqn:Er.
    + unfold kept. cbn. split; [constructor|]. repeat split; discriminate.
    + apply kept_loadSession; cbn; [exact Hr|now left].
  - unfold kept. cbn. split; [exact Hr|]. split; [|auto].
    intros a H. destruct (Ha a H) as (s & Hin & Hid & Hch).
    exists s. split; [|auto]. apply filter_In. split; [exact Hin|].
    apply negb_true_iff. destruct (JS.eqb (id s) sessionId) eqn:E'; [|reflexivity].
    apply eqb_eq in E'.
    assert (isActive sessionId (activeSessionId st) = true)
      by (apply isActive_spec; congruence).
    congruence.
Qed.

Lemma kept_uploadFailed (err : exn) (st : state) : kept st -> kept (uploadFailed err st).
Proof. now apply kept_fields. Qed.

Lemma kept_analysisFailed (st : state) : kept st -> kept (analysisFailed st).
Proof.
  intros (Hs & Ha & Hu & Hc & Hn & Hp). unfold kept. cbn.
  repeat split; auto; discriminate.
Qed.

Section Remote.
Variable generateContent : request -> settled response.
Variable parseChapters : str -> settled (list Chapter).
Variable pdfjsLib : bool.

Lemma kept_beginAnalysis (fuel : nat) (chapter : Chapter) (type : AnalysisType)
      (st st' : state) (ts : list task) :
  kept st -> In chapter (chapters st) ->
  beginAnalysis fuel chapter type st = Normal (st', ts) ->
  kept st'.
Proof.
  intros Hk Hin. pose proof Hk as (Hs & Ha & Hu & Hc & Hn & Hp).
  assert (H1 : kept (apply [ setSelectedChapter (Some chapter);
                             setCurrentAnalysisType type;
                             setStep analysis;
                             setLoading true;
                             setCurrentAnalysis [] ] st)).
  { unfold kept. cbn. split; [exact Hs|]. split; [exact Ha|].
    split; [discriminate|]. split.
    - intros c H. inversion H; subst. exact Hin.
    - split; discriminate. }
  unfold beginAnalysis.
  destruct (isolateChapter fuel st chapter) as [content|e|];
    [|intros H; inversion H; subst; now apply kept_analysisFailed|discriminate].
  destruct (analysisParts (title chapter) content type (pdfBase64 st));
    intros H; inversion H; subst; [exact H1|now apply kept_analysisFailed].
Qed.

(** What a handler does up to its first wait keeps the state as said. *)
Lemma kept_begin (fuel : nat) (e : event) (st st' : state) (ts : list task) :
  kept st -> offered st e ->
  begin fuel e st = Normal (st', ts) ->
  kept st'.
Proof.
  intros Hk Hoff. pose proof Hk as (Hs & Ha & Hu & Hc & Hn & Hp).
  destruct e; cbn [begin offered] in *.
  - intros H. inversion H; subst. destruct (sessions st) as [|first rest] eqn:E.
    + now apply kept_handleUploadNew.
    + apply kept_loadSession; rewrite E; [exact Hs|now left].
  - intros H. inversion H; subst. now apply kept_fields with (st := st).
  - intros H. inversion H; subst. now apply kept_fields with (st := st).
  - intros H. inversion H; subst. apply kept_loadSession; [exact Hs|apply Hoff].
  - intros H. inversion H; subst. now apply kept_removeSession.
  - intros H. inversion H; subst.
    apply kept_fields with (st := handleUploadNew st); try reflexivity.
    now apply kept_handleUploadNew.
  - intros H. inversion H; subst. now apply kept_fields with (st := st).
  - intros H. inversion H; subst. now apply kept_fields with (st := st).
  - intros H. apply (kept_beginAnalysis Hk (proj2 Hoff) H).
  - intros H. inversion H; subst. now apply kept_handleUploadNew.
  - intros H. inversion H; subst. unfold kept. cbn.
    repeat split; auto; discriminate.
  - destruct (selectedChapter st) as [chapter|] eqn:E.
    + intros H. apply (kept_beginAnalysis Hk (Hc _ eq_refl) H).
    + intros H. inversion H; subst. exact Hk.
Qed.

(** So does what it does from a wait to the next. *)
Lemma kept_resume (t : task) (now now' : nat) (st st' : state) (ts : list task) :
  kept st ->
  resume generateContent parseChapters pdfjsLib t now now' st = (st', ts) ->
  kept st'.
Proof.
  intros Hk. pose proof Hk as (Hs & Ha & Hu & Hc & Hn & Hp).
  destruct t; cbn [resume].
  - destruct (PdfService.convertFileToBase64 (dataUrl file)) as [base64|e|].
    + assert (H1 : kept (setPdfBase64 base64 st)) by now apply kept_fields with (st := st).
      destruct pdfjsLib; intros H; inversion H; subst;
        [exact H1|now apply kept_uploadFailed].
    + intros H; inversion H; subst. now apply kept_uploadFailed.
    + intros H; inversion H; subst. exact Hk.
  - destruct (PdfService.extractTextFromPDF true (pdf file)) as [ex|e|];
      intros H; inversion H; subst.
    + now apply kept_fields with (st := st).
    + now apply kept_uploadFailed.
    + exact Hk.
  - destruct (snd (identifyChapters generateContent parseChapters _ _))
      as [identified|e|].
    + destruct (length identified =? 0) eqn:E; intros H; inversion H; subst.
      * now apply kept_uploadFailed.
      * apply kept_loadSession; cbn; [|now left].
        constructor; [|exact Hs]. cbn. intros ->. discriminate.
    + intros H; inversion H; subst. now apply kept_uploadFailed.
    + intros H; inversion H; subst. exact Hk.
  - destruct (snd (analyzeChapterContent generateContent _ _ _ _)) as [result|e|];
      intros H; inversion H; subst.
    + now apply kept_fields with (st := st).
    + now apply kept_analysisFailed.
    + exact Hk.
Qed.

(** However the handlers that wait are interleaved with the events and
    with each other, the state rendered keeps what [kept] says. *)
Theorem library_page_kept :
  forall (p : page),
    reachable generateContent parseChapters pdfjsLib p -> kept (view p).
Proof.
  intros p H. induction H as [|p e fuel st ts _ IH Hoff Hb
                              |p before after t now now' st ts _ IH _ Hr].
  - apply kept_initial.
  - apply (kept_begin IH Hoff Hb).
  - apply (kept_resume IH Hr).
Qed.

Lemma reach_event_to (p q : page) (e : event) (fuel : nat) (st : state)
      (ts : list task) :
  reachable generateContent parseChapters pdfjsLib p -> offered (view p) e ->
  begin fuel e (view p) = Normal (st, ts) ->
  q = {| view := st; waiting := waiting p ++ ts |} ->
  reachable generateContent parseChapters pdfjsLib q.
Proof. intros Hp Ho Hb ->. exact (reach_event Hp Ho Hb). Qed.

Lemma reach_resume_to (p q : page) (before after : list task) (t : task)
      (now now' : nat) (st : state) (ts : list task) :
  reachable generateContent parseChapters pdfjsLib p ->
  waiting p = before ++ t :: after ->
  resume generateContent parseChapters pdfjsLib t now now' (view p) = (st, ts) ->
  q = {| view := st; waiting := before ++ ts ++ after |} ->
  reachable generateContent parseChapters pdfjsLib q.
Proof. intros Hp Hw Hr ->. exact (reach_resume Hp Hw Hr). Qed.

(** A handler alone on the page may go through its waits at once. *)
Lemma reach_settle (turns now now' : nat) :
  forall (st : state) (ts : list task),
    reachable generateContent parseChapters pdfjsLib
              {| view := st; waiting := ts |} ->
    reachable generateContent parseChapters pdfjsLib
              {| view := fst (settle generateContent parseChapters pdfjsLib
                                     turns now now' st ts);
                 waiting := snd (settle generateContent parseChapters pdfjsLib
                                        turns now now' st ts) |}.
Proof.
  induction turns as [|turns IH]; intros st ts H; [destruct ts; exact H|].
  destruct ts as [|t rest]; [exact H|]. cbn [settle].
  destruct (resume generateContent parseChapters pdfjsLib t now now' st)
    as [st' ts'] eqn:E.
  apply IH. eapply (@reach_resume_to _ _ [] rest t now now' st' ts' H);
    [reflexivity|exact E|reflexivity].
Qed.

Lemma analysis_has_parts (chapterTitle : str) (chapterContent : option str)
      (type : AnalysisType) (data : option str) (result : str) :
  snd (analyzeChapterContent generateContent chapterTitle chapterContent type data)
  = Normal result ->
  exists parts, analysisParts chapterTitle chapterContent type data = Normal parts.
Proof.
  unfold analyzeChapterContent.
  destruct (analysisParts chapterTitle chapterContent type data) as [ps|e|];
    [eauto|discriminate|discriminate].
Qed.

(** The answers of two analyses are shown as they arrive, whatever is
    selected by then.  On the chapters screen a chapter is chosen; while
    its analysis is awaited the logo brings the chapters of the first
    book back, and a chapter of it is chosen; when the answer for the
    second choice has arrived and then the answer for the first, the
    page shows the second chapter as selected, with its type, and under
    it the analysis of the first. *)
Theorem stale_analysis_overwrites :
  forall (p : page) (fuel : nat) (first : BookSession) (rest : list BookSession)
         (c1 c2 : Chapter) (t1 t2 : AnalysisType)
         (content1 content2 : option str) (result1 result2 : str),
    reachable generateContent parseChapters pdfjsLib p ->
    step (view p) = chaptersStep ->
    In c1 (chapters (view p)) ->
    sessions (view p) = first :: rest ->
    In c2 (sessionChapters first) ->
    isolateChapter fuel (view p) c1 = Normal content1 ->
    snd (analyzeChapterContent generateContent (title c1) content1 t1
                               (pdfBase64 (view p)))
    = Normal result1 ->
    isolateChapter fuel (loadSession first (view p)) c2 = Normal content2 ->
    snd (analyzeChapterContent generateContent (title c2) content2 t2
                               (sessionPdfBase64 first))
    = Normal result2 ->
    exists q : page,
      reachable generateContent parseChapters pdfjsLib q
      /\ waiting q = waiting p
      /\ step (view q) = analysis
      /\ loading (view q) = false
      /\ selectedChapter (view q) = Some c2
      /\ currentAnalysisType (view q) = t2
      /\ currentAnalysis (view q) = result1.
Proof.
  intros p fuel first rest c1 c2 t1 t2 content1 content2 result1 result2
         Hp Hstep Hc1 Hsessions Hc2 Hi1 Hr1 Hi2 Hr2.
  destruct (analysis_has_parts Hr1) as [parts1 Hparts1].
  destruct (analysis_has_parts Hr2) as [parts2 Hparts2].
  set (a1 := Analysing (title c1) content1 t1 (pdfBase64 (view p))).
  set (a2 := Analysing (title c2) content2 t2 (sessionPdfBase64 first)).
  set (st1 := apply [ setSelectedChapter (Some c1); setCurrentAnalysisType t1;
                      setStep analysis; setLoading true; setCurrentAnalysis [] ]
                    (view p)).
  assert (H1 : reachable generateContent parseChapters pdfjsLib
                         {| view := st1; waiting := waiting p ++ [a1] |}).
  { apply (@reach_event_to p _ (ChapterSelected c1 t1) fuel st1 [a1] Hp);
      [split; assumption| |reflexivity].
    cbn [begin]. unfold beginAnalysis. now rewrite Hi1, Hparts1. }
  set (st2 := loadSession first st1).
  assert (H2 : reachable generateContent parseChapters pdfjsLib
                         {| view := st2; waiting := waiting p ++ [a1] |}).
  { apply (@reach_event_to _ _ LogoClicked fuel st2 [] H1); [exact I| |].
    - cbn [begin view]. change (sessions st1) with (sessions (view p)).
      now rewrite Hsessions.
    - cbn [view waiting]. now rewrite app_nil_r. }
  set (st3 := apply [ setSelectedChapter (Some c2); setCurrentAnalysisType t2;
                      setStep analysis; setLoading true; setCurrentAnalysis [] ]
                    st2).
  assert (H3 : reachable generateContent parseChapters pdfjsLib
                         {| view := st3; waiting := (waiting p ++ [a1]) ++ [a2] |}).
  { apply (@reach_event_to _ _ (ChapterSelected c2 t2) fuel st3 [a2] H2);
      [split; [reflexivity|exact Hc2]| |reflexivity].
    cbn [begin view]. unfold beginAnalysis.
    assert (E : isolateChapter fuel st2 c2 = Normal content2) by exact Hi2.
    rewrite E. change (pdfBase64 st2) with (sessionPdfBase64 first).
    now rewrite Hparts2. }
  set (st4 := apply [setCurrentAnalysis result2; setLoading false] st3).
  assert (H4 : reachable generateContent parseChapters pdfjsLib
                         {| view := st4; waiting := waiting p ++ [a1] |}).
  { apply (@reach_resume_to _ _ (waiting p ++ [a1]) [] a2 0 0 st4 [] H3);
      [reflexivity| |cbn [app]; now rewrite app_nil_r].
    unfold a2. cbn [resume view]. now rewrite Hr2. }
  set (st5 := apply [setCurrentAnalysis result1; setLoading false] st4).
  exists {| view := st5; waiting := waiting p |}. split.
  { apply (@reach_resume_to _ _ (waiting p) [] a1 0 0 st5 [] H4);
      [reflexivity| |cbn [app]; now rewrite app_nil_r].
    unfold a1. cbn [resume view]. now rewrite Hr1. }
  repeat split.
Qed.

(** With no event in between, the waits of a handler gone through one
    after the other end as the handler run to its end does. *)
Theorem handlers_in_one_go :
  forall (file : File) (now now' fuel : nat) (chapter : Chapter)
         (type : AnalysisType) (st : state),
    (forall issued st',
        handleFileSelect generateContent parseChapters pdfjsLib file now now' st
        = (issued, Normal st') ->
        exists st0,
          begin fuel (FileSelected file) st = Normal (st0, [Reading file])
          /\ settle generateContent parseChapters pdfjsLib 3 now now' st0
                    [Reading file]
             = (st', []))
    /\ (forall issued st',
           handleChapterAnalysis generateContent fuel chapter type st
           = (issued, Normal st') ->
           exists st0 ts,
             begin fuel (ChapterSelected chapter type) st = Normal (st0, ts)
             /\ settle generateContent parseChapters pdfjsLib 1 now now' st0 ts
                = (st', [])).
Proof.
  intros file now now' fuel chapter type st. split.
  - intros issued st' H. eexists. split; [reflexivity|].
    revert H. unfold handleFileSelect, processFile. cbn [settle resume].
    destruct (PdfService.convertFileToBase64 (dataUrl file)) as [base64|e|];
      [|intros H; inversion H; reflexivity|discriminate].
    destruct pdfjsLib.
    + cbn [app settle resume].
      destruct (PdfService.extractTextFromPDF true (pdf file)) as [ex|e|];
        [|intros H; inversion H; reflexivity|discriminate].
      cbn [app settle resume].
      destruct (identifyChapters generateContent parseChapters _ _)
        as [requests [identified|e|]]; cbn [snd];
        [|intros H; inversion H; reflexivity|discriminate].
      destruct (length identified =? 0); intros H; inversion H; reflexivity.
    + cbn [PdfService.extractTextFromPDF]. intros H; inversion H; reflexivity.
  - intros issued st'. unfold handleChapterAnalysis. cbn [begin].
    unfold beginAnalysis, bind, lift.
    destruct (isolateChapter fuel st chapter) as [content|e|];
      [|intros H; inversion H; eexists _, _; split; reflexivity|discriminate].
    unfold analyzeChapterContent at 1.
    destruct (analysisParts (title chapter) content type (pdfBase64 st))
      as [ps|e|] eqn:E.
    + intros H. eexists _, _. split; [reflexivity|]. cbn [settle resume].
      unfold analyzeChapterContent. rewrite E. revert H.
      unfold bind, lift, call. cbn [fst snd app].
      destruct (generateContent _) as [answer|e]; cbn [await].
      * destruct (responseText answer) as [t|];
          [destruct (JS.truthy (Some t))|]; cbn [ret fst snd app];
          intros H; inversion H; reflexivity.
      * intros H; inversion H; reflexivity.
    + unfold bind, lift. cbn [fst snd app].
      intros H; inversion H. eexists _, _. split; reflexivity.
    + unfold bind, lift. cbn [fst snd app]. discriminate.
Qed.

End Remote.
End PageFacts.

(* ------------------------------------------------------------------ *)
(** ** The tiers after the first, by the words of the title *)

Module WordingFacts.
Import RegExp PdfService RegExpFacts PatternFacts PdfServiceFacts NumberPrefixFacts.
Import SentenceFacts ToleranceFacts ChapterLocator Spelling Wording.

Lemma worded_words (words : list str) (body : str) :
  worded words body -> words <> [] /\ Forall isWord words.
Proof.
  induction 1 as [w Hw|w gap words body Hw _ _ _ [_ IH]].
  - split; [discriminate|auto].
  - split; [discriminate|auto].
Qed.

Lemma worded_head (words : list str) (body rest : str) :
  worded words body ->
  match body ++ rest with c :: _ => JS.isWhiteSpace c = false | [] => False end.
Proof.
  intros H. assert (Hw : exists w t, isWord w /\ body = w ++ t).
  { destruct H as [w Hw|w gap words body Hw _ _ _]; [exists w, []|eauto].
    now rewrite app_nil_r. }
  destruct Hw as (w & t & [Hne Hf] & ->).
  destruct w as [|c w]; [congruence|]. now inversion Hf.
Qed.

Lemma worded_last (words : list str) (body : str) :
  worded words body ->
  exists front d, body = front ++ [d] /\ JS.isWhiteSpace d = false.
Proof.
  assert (Hw : forall w, isWord w ->
             exists front d, w = front ++ [d] /\ JS.isWhiteSpace d = false).
  { intros w [Hne Hf]. destruct (exists_last Hne) as (front & d & ->).
    exists front, d. split; [reflexivity|].
    apply Forall_app in Hf. destruct Hf as [_ Hf]. now inversion Hf. }
  induction 1 as [w H|w gap words body _ _ _ _ IH]; [now apply Hw|].
  destruct IH as (front & d & -> & Hd). exists (w ++ gap ++ front), d.
  now rewrite <- !app_assoc.
Qed.

(** Trimming a text of words takes what follows the last word off. *)
Lemma trimStart_spaces (gap rest : str) :
  Forall (fun c => JS.isWhiteSpace c = true) gap ->
  JS.trimStart (gap ++ rest) = JS.trimStart rest.
Proof.
  induction 1 as [|c gap Hc _ IH]; [reflexivity|].
  cbn [app JS.trimStart]. now rewrite Hc.
Qed.

Lemma trim_worded (words : list str) (body trail : str) :
  worded words body ->
  Forall (fun c => JS.isWhiteSpace c = true) trail ->
  JS.trim (body ++ trail) = body.
Proof.
  intros Hw Ht. unfold JS.trim, JS.trimEnd.
  pose proof (worded_head (trail) Hw) as Hh.
  destruct (body ++ trail) as [|c s] eqn:E; [contradiction|].
  cbn [JS.trimStart]. rewrite Hh, <- E. clear E Hh c s.
  destruct (worded_last Hw) as (front & d & -> & Hd).
  rewrite rev_app_distr, trimStart_spaces by (apply Forall_rev; exact Ht).
  rewrite rev_app_distr. cbn [rev app JS.trimStart]. rewrite Hd.
  cbn [rev]. now rewrite rev_involutive.
Qed.

Local Notation "'squeeze'" :=
  (replaceFrom noFlags (plus JS.isWhiteSpace) (fun _ _ => lit " ")).

Lemma clean_word (w : str) :
  Forall (fun c => JS.isWhiteSpace c = false) w ->
  forall (prev : option ascii) (rest : str),
    exists prev', squeeze prev (w ++ rest) 0 = w ++ squeeze prev' rest 0.
Proof.
  induction 1 as [|c w Hc _ IH]; intros prev rest; [now exists prev|].
  cbn [app]. rewrite clean_unit by exact Hc.
  destruct (IH (Some c) rest) as [p ->]. now exists p.
Qed.

Lemma clean_end (prev : option ascii) : squeeze prev [] 0 = [].
Proof. reflexivity. Qed.

(** [cleanText] makes of a text of words the words with one space between
    them. *)
Lemma squeeze_worded (words : list str) (body : str) :
  worded words body ->
  forall prev, squeeze prev body 0 = JS.join words (lit " ").
Proof.
  induction 1 as [w [_ Hw]|w gap words body [_ Hw] Hg Hgap Hb IH]; intros prev.
  - destruct (clean_word Hw prev []) as [p Hp]. rewrite app_nil_r in Hp.
    rewrite Hp, clean_end, app_nil_r. reflexivity.
  - destruct (clean_word Hw prev (gap ++ body)) as [p Hp]. rewrite Hp.
    rewrite clean_gap; auto.
    + rewrite IH. destruct (worded_words Hb) as [Hne _].
      destruct words as [|w' words']; [congruence|]. reflexivity.
    + pose proof (worded_head [] Hb) as H. rewrite app_nil_r in H.
      destruct body; [contradiction|exact H].
Qed.

Lemma cleanText_worded (words : list str) (body trail : str) :
  worded words body ->
  Forall (fun c => JS.isWhiteSpace c = true) trail ->
  cleanText (body ++ trail) = JS.join words (lit " ").
Proof.
  intros Hw Ht. unfold cleanText, replaceAll.
  rewrite (trim_worded Hw Ht). now apply squeeze_worded.
Qed.

Lemma worded_join (words : list str) :
  words <> [] -> Forall isWord words -> worded words (JS.join words (lit " ")).
Proof.
  intros Hne Hf. induction Hf as [|w words Hw Hf IH]; [congruence|].
  destruct words as [|w' words'].
  - cbn [JS.join]. now constructor.
  - change (JS.join (w :: w' :: words') (lit " "))
      with (w ++ lit " " ++ JS.join (w' :: words') (lit " ")).
    constructor; auto; [discriminate| |apply IH; discriminate].
    repeat constructor.
Qed.

Lemma join_snoc_empty (words : list str) :
  words <> [] ->
  JS.join (words ++ [[]]) (lit " ") = JS.join words (lit " ") ++ lit " ".
Proof.
  induction words as [|w words IH]; [congruence|]. intros _.
  destruct words as [|w' words'].
  - cbn [app JS.join]. now rewrite app_nil_r.
  - change (JS.join ((w :: w' :: words') ++ [[]]) (lit " "))
      with (w ++ lit " " ++ JS.join ((w' :: words') ++ [[]]) (lit " ")).
    rewrite IH by discriminate.
    change (JS.join (w :: w' :: words') (lit " "))
      with (w ++ lit " " ++ JS.join (w' :: words') (lit " ")).
    now rewrite <- !app_assoc.
Qed.

(** The first words of a title and the title itself, where it has no
    more words, make the same pattern. *)
Lemma flexibleRegex_worded (words : list str) (body trail : str) :
  worded words body ->
  Forall (fun c => JS.isWhiteSpace c = true) trail ->
  flexibleRegex (body ++ trail) = flexibleRegex (JS.join words (lit " ")).
Proof.
  intros Hw Ht. unfold flexibleRegex. rewrite (cleanText_worded Hw Ht).
  destruct (worded_words Hw) as [Hne Hf].
  pose proof (@cleanText_worded words (JS.join words (lit " ")) []
                (worded_join Hne Hf) (Forall_nil _)) as H.
  rewrite app_nil_r in H. now rewrite H.
Qed.

Lemma flexibleRegex_join_space (words : list str) :
  words <> [] -> Forall isWord words ->
  flexibleRegex (JS.join (words ++ [[]]) (lit " "))
  = flexibleRegex (JS.join words (lit " ")).
Proof.
  intros Hne Hf. rewrite join_snoc_empty by exact Hne.
  apply (@flexibleRegex_worded words (JS.join words (lit " ")) (lit " ")).
  - now apply worded_join.
  - repeat constructor.
Qed.

Local Notation "'pieces'" := (splitFrom noFlags (plus JS.isWhiteSpace)).

Lemma pieces_word (w : str) :
  Forall (fun c => JS.isWhiteSpace c = false) w ->
  forall (prev : option ascii) (rest cur : str),
    exists prev', pieces prev (w ++ rest) cur 0 = pieces prev' rest (cur ++ w) 0.
Proof.
  induction 1 as [|c w Hc _ IH]; intros prev rest cur.
  - exists prev. now rewrite app_nil_r.
  - cbn [app splitFrom]. rewrite matchAt_word by exact Hc.
    destruct (IH (Some c) rest (cur ++ [c])) as [p ->]. exists p.
    now rewrite <- app_assoc.
Qed.

Lemma pieces_skip (gap : str) :
  forall (prev : option ascii) (rest cur : str),
    rest <> [] ->
    exists prev', pieces prev (gap ++ rest) cur (length gap) = pieces prev' rest cur 0.
Proof.
  induction gap as [|c gap IH]; intros prev rest cur Hr; [now exists prev|].
  cbn [app length splitFrom]. now apply IH.
Qed.

Lemma pieces_skip_end (gap : str) :
  forall (prev : option ascii) (cur : str) (skip : nat),
    length gap <= skip -> pieces prev gap cur skip = [cur].
Proof.
  induction gap as [|c gap IH]; intros prev cur skip H; [reflexivity|].
  cbn [length] in H. destruct skip as [|skip]; [lia|].
  cbn [splitFrom]. apply IH. lia.
Qed.

(** At a gap the split ends the piece read and starts an empty one after
    the gap. *)
Lemma pieces_gap (gap rest cur : str) (prev : option ascii) :
  gap <> [] ->
  Forall (fun c => JS.isWhiteSpace c = true) gap ->
  match rest with c :: _ => JS.isWhiteSpace c = false | [] => True end ->
  exists prev',
    pieces prev (gap ++ rest) cur 0
    = cur :: match rest with
             | [] => [[]]
             | _ => pieces prev' rest [] 0
             end.
Proof.
  intros Hne Hg Hr. pose proof (@matchAt_gap prev gap rest Hne Hg Hr) as Hm.
  destruct gap as [|c gap]; [congruence|]. cbn [app] in *. cbn [splitFrom].
  rewrite Hm. cbn [length].
  destruct rest as [|d rest].
  - exists prev. rewrite app_nil_r. f_equal. now apply pieces_skip_end.
  - destruct (@pieces_skip gap (Some c) (d :: rest) [] ltac:(discriminate)) as [p ->].
    now exists p.
Qed.

Lemma pieces_worded (words : list str) (body : str) :
  worded words body ->
  forall (prev : option ascii) (trail : str),
    Forall (fun c => JS.isWhiteSpace c = true) trail ->
    pieces prev (body ++ trail) [] 0
    = words ++ match trail with [] => [] | _ => [[]] end.
Proof.
  induction 1 as [w [_ Hw]|w gap words body [_ Hw] Hg Hgap Hb IH];
    intros prev trail Ht.
  - destruct (pieces_word Hw prev trail []) as [p ->]. cbn [app].
    destruct trail as [|c trail]; [reflexivity|].
    destruct (@pieces_gap (c :: trail) [] w p ltac:(discriminate) Ht I) as [q Hq].
    rewrite app_nil_r in Hq. now rewrite Hq.
  - rewrite <- !app_assoc.
    destruct (pieces_word Hw prev (gap ++ body ++ trail) []) as [p ->]. cbn [app].
    pose proof (worded_head trail Hb) as Hh.
    destruct (@pieces_gap gap (body ++ trail) w p Hg Hgap) as [q Hq].
    { destruct (body ++ trail); [contradiction|exact Hh]. }
    rewrite Hq. destruct (body ++ trail) eqn:E; [contradiction|].
    rewrite <- E, IH by exact Ht. reflexivity.
Qed.

(** The pieces the code splits a title into: its words, and an empty
    piece when white space follows the last. *)
Lemma titleWords_worded (words : list str) (body trail : str) :
  worded words body ->
  Forall (fun c => JS.isWhiteSpace c = true) trail ->
  titleWords (body ++ trail) = words ++ match trail with [] => [] | _ => [[]] end.
Proof.
  intros Hw Ht. unfold titleWords, RegExp.split.
  pose proof (worded_head trail Hw) as Hh.
  destruct (body ++ trail) eqn:E; [contradiction|].
  rewrite <- E. now apply pieces_worded.
Qed.

(** *** The number prefix *)

Lemma rep_prev (A : Type) (f : ascii -> bool) (s : str) :
  forall (min : nat) (max : option nat) (p p' : option ascii)
         (k : option ascii -> str -> option A),
    (forall q q' s', k q s' = k q' s') ->
    rep f min max p s k = rep f min max p' s k.
Proof.
  induction s as [|c s IH]; intros min max p p' k Hk; cbn [rep].
  - destruct min; [apply Hk|reflexivity].
  - rewrite (Hk p p'). reflexivity.
Qed.

Lemma run_word (A : Type) (w : str) :
  forall (prev : option ascii) (s : str) (cap : option str) (k : cont A),
    (forall q q' s' c, k q s' c = k q' s' c) ->
    run flag_i (seqOf (map Lit w)) prev s cap k
    = match readWord w s with
      | Some r => k prev r cap
      | None => None
      end.
Proof.
  induction w as [|c w IH]; intros prev s cap k Hk; [reflexivity|].
  cbn [map seqOf fold_right run readWord].
  destruct s as [|d s]; [reflexivity|].
  destruct (sameChar flag_i c d); [|reflexivity].
  change (fold_right Cat Eps (map Lit w)) with (seqOf (map Lit w)).
  rewrite IH by exact Hk. destruct (readWord w s); [apply Hk|reflexivity].
Qed.

Lemma dropWhile_split (f : ascii -> bool) (s : str) :
  exists taken,
    s = taken ++ dropWhile f s
    /\ Forall (fun c => f c = true) taken
    /\ match dropWhile f s with c :: _ => f c = false | [] => True end.
Proof.
  induction s as [|c s IH]; [exists []; cbn; auto|].
  cbn [dropWhile]. destruct (f c) eqn:E.
  - destruct IH as (taken & H1 & H2 & H3). exists (c :: taken).
    cbn [app]. split; [now rewrite <- H1|auto].
  - exists []. cbn. auto.
Qed.

Lemma run_prefix (f : ascii -> bool) (taken : str) :
  forall (pre suf rest : str),
    pre ++ suf = taken ++ rest ->
    Forall (fun c => f c = true) pre ->
    match rest with c :: _ => f c = false | [] => True end ->
    exists left, taken = pre ++ left /\ suf = left ++ rest.
Proof.
  induction taken as [|c taken IH]; intros pre suf rest E Hp Hr.
  - cbn [app] in E. destruct pre as [|d pre]; [now exists []|].
    cbn [app] in E. subst rest. inversion Hp; subst. congruence.
  - destruct pre as [|d pre]; [exists (c :: taken); auto|].
    cbn [app] in E. inversion E; subst d. inversion Hp; subst.
    destruct (IH pre suf rest) as (left & -> & ->); auto. now exists left.
Qed.

Lemma digit_no_space (c : ascii) : JS.isDigit c = true -> JS.isWhiteSpace c = false.
Proof.
  unfold JS.isDigit, JS.isWhiteSpace. intros H.
  apply andb_true_iff in H. destruct H as [H1 H2].
  apply Nat.leb_le in H1. apply Nat.leb_le in H2.
  destruct (9 <=? JS.charCode c) eqn:E1, (JS.charCode c <=? 13) eqn:E2,
           (JS.charCode c =? 32) eqn:E3, (JS.charCode c =? 160) eqn:E4;
    try reflexivity;
    repeat match goal with
           | H : (_ <=? _) = true |- _ => apply Nat.leb_le in H
           | H : (_ =? _) = true |- _ => apply Nat.eqb_eq in H
           end; lia.
Qed.

(** A keyword, white space and digits, read by the pattern as [numbered]
    reads them. *)
Lemma run_numbered (A : Type) (keyword : string) (prev : option ascii) (s : str)
      (cap : option str) (g : str -> option str -> A) :
  run flag_i (seqOf [word keyword; plus JS.isWhiteSpace; plus JS.isDigit])
      prev s cap (fun _ s' c => Some (g s' c))
  = match readWord (lit keyword) s with
    | Some afterWord =>
        let afterSpace := dropWhile JS.isWhiteSpace afterWord in
        let afterDigits := dropWhile JS.isDigit afterSpace in
        if (length afterSpace <? length afterWord)
           && (length afterDigits <? length afterSpace)
        then Some (g afterDigits cap)
        else None
    | None => None
    end.
Proof.
  cbn [seqOf fold_right run]. unfold word.
  rewrite run_word.
  2:{ intros q q' s' c. unfold plus. cbn [run]. apply rep_prev.
      intros. apply rep_prev. reflexivity. }
  destruct (readWord (lit keyword) s) as [afterWord|]; [|reflexivity].
  cbv zeta. unfold plus. cbn [run].
  destruct (dropWhile_split JS.isWhiteSpace afterWord) as (gap & Eg & Hgap & Hs).
  set (afterSpace := dropWhile JS.isWhiteSpace afterWord) in *.
  destruct (dropWhile_split JS.isDigit afterSpace) as (digits & Ed & Hdig & Hd).
  set (afterDigits := dropWhile JS.isDigit afterSpace) in *.
  assert (Lg : length afterWord = length gap + length afterSpace)
    by (rewrite Eg at 1; apply length_app).
  assert (Ld : length afterSpace = length digits + length afterDigits)
    by (rewrite Ed at 1; apply length_app).
  destruct gap as [|c gap].
  - assert (E1 : (length afterSpace <? length afterWord) = false)
      by (apply Nat.ltb_ge; cbn [length] in Lg; lia).
    rewrite E1. cbn [andb]. cbn [app] in Eg. rewrite Eg.
    destruct afterSpace as [|x r]; [reflexivity|]. cbn [rep]. now rewrite Hs.
  - assert (E1 : (length afterSpace <? length afterWord) = true)
      by (apply Nat.ltb_lt; cbn [length] in Lg; lia).
    rewrite E1. cbn [andb]. destruct digits as [|d digits].
    + assert (E2 : (length afterDigits <? length afterSpace) = false)
        by (apply Nat.ltb_ge; cbn [length] in Ld; lia).
      rewrite E2. apply rep_none. intros p pre suf E _ Hpre.
      rewrite Eg in E. symmetry in E.
      destruct (@run_prefix JS.isWhiteSpace (c :: gap) pre suf afterSpace E Hpre Hs)
        as (left & _ & ->).
      cbn [app] in Ed.
      destruct left as [|x left].
      * cbn [app]. rewrite Ed. destruct afterDigits as [|y r]; [reflexivity|].
        cbn [rep]. now rewrite Hd.
      * cbn [app rep].
        assert (Hx : JS.isDigit x = false).
        { destruct (JS.isDigit x) eqn:Ex; [|reflexivity].
          apply digit_no_space in Ex.
          assert (In x (c :: gap)).
          { destruct (@run_prefix JS.isWhiteSpace (c :: gap) pre
                        ((x :: left) ++ afterSpace) afterSpace E Hpre Hs)
              as (left' & Hl & Hl').
            apply app_inv_tail in Hl'. subst left'. rewrite Hl.
            apply in_or_app. right. now left. }
          rewrite Forall_forall in Hgap. rewrite Hgap in Ex by assumption.
          discriminate. }
        now rewrite Hx.
    + assert (E2 : (length afterDigits <? length afterSpace) = true)
        by (apply Nat.ltb_lt; cbn [length] in Ld; lia).
      rewrite E2, Eg.
      apply rep_run; auto.
      * cbn [length]. lia.
      * intros p. rewrite Ed. apply rep_run; auto. cbn [length]. lia.
Qed.

(** What the number pattern finds at the start of a title is the prefix
    [numberedPrefix] reads. *)
Lemma numberMatch_spec (chapterTitle : str) :
  numberMatch chapterTitle = numberedPrefix chapterTitle.
Proof.
  unfold numberMatch, exec. cbn [length Nat.ltb Nat.leb prevAt skipn].
  assert (Hm : matchAt flag_i numberPrefix None chapterTitle
               = match numberedPrefix chapterTitle with
                 | Some prefix => Some (length prefix, Some prefix)
                 | None => None
                 end).
  { unfold matchAt, numberPrefix. cbn [run atLineStart].
    rewrite !(@run_numbered _ _ None chapterTitle None
                (fun s' _ => (length chapterTitle - length s',
                              Some (firstn (length chapterTitle - length s')
                                           chapterTitle)))).
    unfold numberedPrefix, numbered.
    assert (Hlen : forall r : str, length (firstn (length chapterTitle - length r)
                                            chapterTitle)
                             = length chapterTitle - length r).
    { intros r. rewrite length_firstn. lia. }
    destruct (readWord (lit "Chapter") chapterTitle) as [r|]; cbv zeta.
    - destruct ((_ <? _) && (_ <? _)); [now rewrite Hlen|].
      destruct (readWord (lit "Part") chapterTitle) as [r'|]; cbv zeta;
        [|reflexivity].
      destruct ((_ <? _) && (_ <? _)); [now rewrite Hlen|reflexivity].
    - destruct (readWord (lit "Part") chapterTitle) as [r'|]; cbv zeta;
        [|reflexivity].
      destruct ((_ <? _) && (_ <? _)); [now rewrite Hlen|reflexivity]. }
  destruct chapterTitle as [|c s].
  - cbn [scan]. rewrite Hm. destruct (numberedPrefix []) as [prefix|] eqn:E;
      [|reflexivity].
    unfold numberedPrefix, numbered in E. cbn in E. discriminate.
  - cbn [scan]. rewrite Hm.
    destruct (numberedPrefix (c :: s)) as [prefix|] eqn:E.
    + unfold JS.slice. cbn [skipn Nat.add]. rewrite Nat.sub_0_r.
      f_equal. unfold numberedPrefix, numbered in E.
      assert (Hp : exists r : str, prefix = firstn (length (c :: s) - length r) (c :: s)).
      { destruct (readWord (lit "Chapter") (c :: s)) as [r|]; cbv zeta in E.
        - match type of E with context [if ?b then _ else _] => destruct b end;
            cbv iota beta in E; [injection E as <-; eexists; reflexivity|].
          destruct (readWord (lit "Part") (c :: s)) as [r'|]; cbv zeta in E;
            [|discriminate].
          match type of E with context [if ?b then _ else _] => destruct b end;
            cbv iota beta in E; [injection E as <-; eexists; reflexivity|discriminate].
        - destruct (readWord (lit "Part") (c :: s)) as [r'|]; cbv zeta in E;
            [|discriminate].
          match type of E with context [if ?b then _ else _] => destruct b end;
            cbv iota beta in E; [injection E as <-; eexists; reflexivity|discriminate]. }
      destruct Hp as [r ->]. rewrite length_firstn.
      now rewrite Nat.min_l by lia.
    + now rewrite numberPrefix_needs_start.
Qed.

(** The pattern of the whole title occurs nowhere: so does not that of
    its words joined by single spaces. *)
Lemma whole_title_absent (words : list str) (body trail fullText : str) :
  worded words body ->
  Forall (fun c => JS.isWhiteSpace c = true) trail ->
  exec flag_i (flexibleRegex (body ++ trail)) fullText 0 = None ->
  execIndex flag_i (flexibleRegex (JS.join words (lit " "))) fullText = None.
Proof.
  intros Hw Ht E. unfold execIndex.
  now rewrite <- (flexibleRegex_worded Hw Ht), E.
Qed.

(** The tiers after the first, said with the words of the title.  For a
    title made of words with white space between them, and after the last
    at most, whose pattern occurs nowhere in the text: the start is the
    first match of the first eight words when the title has more than
    three, with no regard to the table of contents; failing that, and when
    the title begins with "Chapter" or "Part", white space and digits, the
    occurrence of that prefix the table-of-contents rule selects; and with
    neither the result is [null].  A title of eight words or fewer gets
    nothing from the retry. *)
Theorem findChapterText_tiers_by_words :
  forall (fuel : nat) (fullText : str) (words : list str) (body trail : str)
         (next : option str),
    worded words body ->
    Forall (fun c => JS.isWhiteSpace c = true) trail ->
    length fullText < fuel ->
    exec flag_i (flexibleRegex (body ++ trail)) fullText 0 = None ->
    let chapterTitle := body ++ trail in
    let partial :=
      if 3 <? length words
      then execIndex flag_i
             (flexibleRegex (JS.join (firstn 8 words) (lit " "))) fullText
      else None in
    let numbered :=
      match numberedPrefix chapterTitle with
      | Some prefix => selectOccurrence (flexibleRegex prefix) fullText
      | None => None
      end in
    findStartIndex fuel fullText chapterTitle
    = Normal (match partial with
              | Some index => Some index
              | None => numbered
              end)
    /\ (partial = None -> numbered = None ->
        findChapterText fuel fullText chapterTitle next = Normal None)
    /\ (length words <= 8 -> partial = None).
Proof.
  intros fuel fullText words body trail next Hw Ht Hfuel E0
         chapterTitle partial numbered.
  pose proof (whole_title_absent Hw Ht E0) as Habsent.
  destruct (worded_words Hw) as [Hne Hwords].
  assert (Hshort : length words <= 8 -> partial = None).
  { intros H. subst partial. rewrite firstn_all2 by exact H.
    rewrite Habsent. now destruct (3 <? length words). }
  assert (Hpartial :
            (if 3 <? length (titleWords chapterTitle)
             then execIndex flag_i
                    (flexibleRegex
                       (JS.join (firstn 8 (titleWords chapterTitle)) (lit " ")))
                    fullText
             else None) = partial).
  { subst chapterTitle. rewrite (titleWords_worded Hw Ht).
    destruct trail as [|c trail]; [now rewrite app_nil_r|].
    rewrite length_app. cbn [length].
    destruct (Nat.le_gt_cases 8 (length words)) as [Hlong|Hfew].
    - rewrite firstn_app.
      replace (8 - length words) with 0 by lia. cbn [firstn]. rewrite app_nil_r.
      subst partial.
      replace (3 <? length words + 1) with true by (symmetry; apply Nat.ltb_lt; lia).
      replace (3 <? length words) with true by (symmetry; apply Nat.ltb_lt; lia).
      reflexivity.
    - rewrite Hshort by lia.
      rewrite firstn_all2 by (rewrite length_app; cbn [length]; lia).
      rewrite flexibleRegex_join_space, Habsent by assumption.
      now destruct (3 <? length words + 1). }
  destruct (@findStartIndex_tiers fuel fullText chapterTitle next Hfuel E0)
    as [Hs Hnull].
  rewrite Hpartial, numberMatch_spec in Hs, Hnull.
  split; [exact Hs|]. split; [exact Hnull|exact Hshort].
Qed.
End WordingFacts.

(* ------------------------------------------------------------------ *)
(** ** The properties on sample inputs *)

Module MoreWitnesses.
Import RegExp PdfService GeminiService App Spelling Samples Fixtures.
Import ToleranceFacts ResultFacts DataUrlFacts SingleRequestFacts PageFacts WordingFacts.
Import Wording.
Import HandlerOutcomes SingleBookFacts LibraryFacts.

Lemma findChapterText_finds_spelling_witness :
  JS.trim heading <> []
  /\ spells (JS.trim heading) spelled
  /\ length (lit "Contents. " ++ spelled ++ lit ": it begins.") < 60
  /\ exists m0 n0 d rest,
       exec flag_i (flexibleRegex heading)
            (lit "Contents. " ++ spelled ++ lit ": it begins.") 0
       = Some (m0, n0)
       /\ m0 <= length (lit "Contents. ")
       /\ findChapterText 60 (lit "Contents. " ++ spelled ++ lit ": it begins.")
                          heading None
          = Normal (Some (d :: rest)).
Proof.
  assert (H1 : JS.trim heading <> []) by discriminate.
  assert (H2 : spells (JS.trim heading) spelled).
  { change (JS.trim heading) with (lit "Chapter" ++ (lit " " ++ lit "One")).
    change spelled
      with (lit "CHAPTER" ++ ([ascii_of_nat 10; " "%char] ++ lit "one")).
    cbn [lit list_ascii_of_string app].
    do 7 (apply spells_unit; [reflexivity|reflexivity|]).
    apply (@spells_gap [" "%char] [ascii_of_nat 10; " "%char]
                       (lit "One") (lit "one"));
      try discriminate; try reflexivity.
    - repeat constructor.
    - repeat constructor.
    - do 3 (apply spells_unit; [reflexivity|reflexivity|]). apply spells_end. }
  assert (H3 : length (lit "Contents. " ++ spelled ++ lit ": it begins.") < 60)
    by (vm_compute; lia).
  split; [exact H1|]. split; [exact H2|]. split; [exact H3|].
  exact (proj1 (@findChapterText_finds_spelling 60 (lit "Contents. ") spelled
                  (lit ": it begins.") heading None H1 H2 H3)).
Defined.

Lemma findChapterText_result_bounds_witness :
  findChapterText 60 Fixtures.book (lit "Two") None
  = Normal (Some (lit "Two. One: it begins here and goes on. Two: it ends."))
  /\ JS.trim (lit "Two. One: it begins here and goes on. Two: it ends.")
     = lit "Two. One: it begins here and goes on. Two: it ends.".
Proof.
  assert (H : findChapterText 60 Fixtures.book (lit "Two") None
              = Normal (Some (lit "Two. One: it begins here and goes on. Two: it ends.")))
    by reflexivity.
  split; [exact H|].
  exact (proj1 (proj2 (@findChapterText_result_bounds 60 Fixtures.book (lit "Two")
                         None _ H))).
Defined.

Lemma convertFileToBase64_payload_witness :
  Forall (fun c => Ascii.eqb c ","%char = false) (lit "data:application/pdf;base64")
  /\ Base64.btoa (lit "%PDF-") = lit "JVBERi0="
  /\ convertFileToBase64
       (Fulfilled (lit "data:application/pdf;base64" ++ ","%char :: Base64.btoa (lit "%PDF-")))
     = Normal (Some (Base64.btoa (lit "%PDF-"))).
Proof.
  assert (H : Forall (fun c => Ascii.eqb c ","%char = false)
                     (lit "data:application/pdf;base64"))
    by (vm_compute; repeat constructor).
  split; [exact H|]. split; [reflexivity|].
  exact (proj1 (@convertFileToBase64_payload (lit "data:application/pdf;base64")
                  (lit "%PDF-") H)).
Defined.

Lemma speech_variants_agree_witness :
  length (prepareTextForSpeech (lit "Hi.")) <= 2000
  /\ isBlank (prepareTextForSpeech (lit "Hi.")) = false
  /\ fst (generateSpeech speaking (lit "Hi."))
     = fst (SingleRequestSpeech.generateSpeech speaking (lit "Hi.")).
Proof.
  assert (H1 : length (prepareTextForSpeech (lit "Hi.")) <= 2000)
    by (vm_compute; lia).
  assert (H2 : isBlank (prepareTextForSpeech (lit "Hi.")) = false) by reflexivity.
  split; [exact H1|]. split; [exact H2|].
  exact (proj1 (proj2 (@speech_variants_agree speaking (lit "Hi.") H1 H2))).
Defined.


Lemma single_book_identifies_by_flag_witness :
  PdfService.convertFileToBase64 (dataUrl leaflet) = Normal (Some (lit "JVBERi0="))
  /\ PdfService.extractTextFromPDF true (pdf leaflet)
     = Normal {| PdfService.text :=
                   lit "--- Page 1 ---" ++ [PdfService.newline] ++ repeat "a"%char 60;
                 PdfService.isScanned := false |}
  /\ fst (handleFileSelect answering oneChapter true leaflet 7 7 initial)
     = [identifyRequest [] (Some (lit "JVBERi0="))]
  /\ exists st',
       SingleBook.handleFileSelect answering oneChapter true leaflet initial
       = ([identifyRequest
             (lit "--- Page 1 ---" ++ [PdfService.newline] ++ repeat "a"%char 60)
             None],
          Normal st')
       /\ isScannedMode st' = true.
Proof.
  assert (H1 : PdfService.convertFileToBase64 (dataUrl leaflet)
               = Normal (Some (lit "JVBERi0="))) by reflexivity.
  assert (H2 : PdfService.extractTextFromPDF true (pdf leaflet)
               = Normal {| PdfService.text :=
                             lit "--- Page 1 ---" ++ [PdfService.newline]
                             ++ repeat "a"%char 60;
                           PdfService.isScanned := false |})
    by (vm_compute; reflexivity).
  split; [exact H1|]. split; [exact H2|].
  destruct (@single_book_identifies_by_flag answering oneChapter true leaflet 7 7
              initial _ _ H1 H2) as ((st' & Hrun & Hmode & _) & Hlib & _).
  split; [exact Hlib|]. exists st'. split; [exact Hrun|exact Hmode].
Defined.

Lemma nextChapterOf_first_entry_witness :
  number chapterOne = number chapterOne
  /\ title chapterOne = title chapterOne
  /\ nextChapterOf chapterOne ([] ++ chapterOne :: [chapterTwo]) = Some chapterTwo.
Proof.
  split; [reflexivity|]. split; [reflexivity|].
  exact (proj1 (@nextChapterOf_first_entry chapterOne [] [chapterTwo] chapterOne
                  eq_refl eq_refl (Forall_nil _))).
Defined.

Lemma isolateChapter_bounds_witness :
  isolateChapter 300 longReading chapterOne = Normal (Some longBook)
  /\ 200 <= length longBook
  /\ JS.trim longBook = longBook.
Proof.
  assert (H : isolateChapter 300 longReading chapterOne = Normal (Some longBook))
    by (vm_compute; reflexivity).
  split; [exact H|].
  pose proof (@CompletionFacts.isolateChapter_bounds 300 longReading chapterOne
                longBook H) as (_ & Hlen & _ & Htrim & _).
  split; [exact Hlen|exact Htrim].
Defined.

Lemma shelved_reachable : Ui.reachable echoing twoChapters true shelved.
Proof.
  unfold shelved. cbv zeta.
  apply (@reach_settle echoing twoChapters true 3 7 7).
  eapply (@reach_event_to echoing twoChapters true
            {| Ui.view := initial; Ui.waiting := [] |} _
            (Ui.FileSelected scannedFile) 0).
  - apply Ui.reach_initial.
  - reflexivity.
  - reflexivity.
  - reflexivity.
Defined.

Lemma library_page_kept_witness :
  Ui.reachable echoing twoChapters true shelved
  /\ Ui.kept (Ui.view shelved)
  /\ step (Ui.view shelved) = chaptersStep
  /\ chapters (Ui.view shelved) = [chapterOne; chapterTwo].
Proof.
  split; [exact shelved_reachable|].
  split; [exact (@library_page_kept echoing twoChapters true shelved shelved_reachable)|].
  split; reflexivity.
Defined.

Lemma stale_analysis_overwrites_witness :
  let first :=
    {| id := JS.toString 7; fileName := lit "scan.pdf"; uploadTimestamp := 7;
       sessionChapters := [chapterOne; chapterTwo];
       sessionPdfText := []; sessionPdfBase64 := Some (lit "JVBERi0=");
       sessionIsScannedMode := true |} in
  sessions (Ui.view shelved) = [first]
  /\ visualPrompt (lit "One") STANDARD <> visualPrompt (lit "Two") STANDARD
  /\ exists q : Ui.page,
       Ui.reachable echoing twoChapters true q
       /\ Ui.waiting q = Ui.waiting shelved
       /\ step (Ui.view q) = analysis
       /\ loading (Ui.view q) = false
       /\ selectedChapter (Ui.view q) = Some chapterTwo
       /\ currentAnalysisType (Ui.view q) = STANDARD
       /\ currentAnalysis (Ui.view q) = visualPrompt (lit "One") STANDARD.
Proof.
  intros first.
  assert (H1 : sessions (Ui.view shelved) = [first]) by reflexivity.
  split; [exact H1|]. split; [discriminate|].
  exact (@stale_analysis_overwrites echoing twoChapters true shelved 0 first []
           chapterOne chapterTwo STANDARD STANDARD None None
           (visualPrompt (lit "One") STANDARD) (visualPrompt (lit "Two") STANDARD)
           shelved_reachable eq_refl (or_introl eq_refl) H1
           (or_intror (or_introl eq_refl)) eq_refl eq_refl eq_refl eq_refl).
Defined.

Lemma findChapterText_tiers_by_words_witness :
  let words :=
    map lit ["The"; "Long"; "Way"; "Round"; "the"; "Old"; "Mill"; "Pond";
             "Again"]%string in
  let chapterTitle := lit "The Long Way Round the Old Mill Pond Again" in
  let fullText :=
    lit "Intro. THE LONG WAY" ++ [ascii_of_nat 10]
    ++ lit "round the old mill pond. It was dawn." in
  worded words chapterTitle
  /\ length fullText < 100
  /\ exec flag_i (flexibleRegex chapterTitle) fullText 0 = None
  /\ findStartIndex 100 fullText chapterTitle = Normal (Some 7).
Proof.
  intros words chapterTitle fullText.
  assert (H1 : worded words chapterTitle).
  { apply (@worded_join words); [discriminate|].
    repeat (constructor; [split; [discriminate|repeat constructor]|]).
    constructor. }
  assert (H2 : length fullText < 100) by (apply Nat.ltb_lt; reflexivity).
  assert (H3 : exec flag_i (flexibleRegex (chapterTitle ++ [])) fullText 0 = None)
    by (vm_compute; reflexivity).
  split; [exact H1|]. split; [exact H2|].
  split; [rewrite <- (app_nil_r chapterTitle); exact H3|].
  pose proof (proj1 (@findChapterText_tiers_by_words 100 fullText words chapterTitle
                       [] None H1 (Forall_nil _) H2 H3)) as H.
  rewrite app_nil_r in H. rewrite H. vm_compute. reflexivity.
Defined.

End MoreWitnesses.
